(** * Backtester: the simulation loop and the performance engine

    A shallow embedding of [Account.py], [Backtest.py] and [Performance.py].

    Number model.  Python and numpy floats are idealised as exact numbers.
    The ledger and the simulation loop use only [+ - * /] and comparisons,
    so they are embedded over the rationals [Q] and stay executable.  The
    performance engine takes square roots, so it is embedded over the reals
    [R], extended with the IEEE specials ([inf], [-inf], [nan]) that numpy
    and polars produce on a zero or missing denominator.

    Errors.  A Python exception ([KeyError] on the position dict,
    [IndexError] on an empty selection, [ZeroDivisionError] on a zero price,
    [ValueError] from numpy) is the [None] of the [option] monad. *)

From Stdlib Require Import QArith Qround Reals Psatz ZArith Sorted.
From stdpp Require Import gmap strings list fin_maps option.

(** ** Account.py *)

Module Account.
Local Open Scope Q_scope.

(** Dates are polars [Date] values: a day count. *)
Definition date := Z.

(** [class account]: [daily_account_value] is a dict of two lists, kept here
    as its two columns. *)
Record account := mk_account {
  cash : Q;
  asset_value : Q;
  daily_account_value_Date : list date;
  daily_account_value_Account_Value : list Q
}.

(** [account.__init__] *)
Definition init (init_cash : Q) : account :=
  {| cash := init_cash; asset_value := 0;
     daily_account_value_Date := [];
     daily_account_value_Account_Value := [] |}.

(** [account.update_cash]: [self.cash += cash] *)
Definition update_cash (self : account) (c : Q) : account :=
  {| cash := cash self + c; asset_value := asset_value self;
     daily_account_value_Date := daily_account_value_Date self;
     daily_account_value_Account_Value := daily_account_value_Account_Value self |}.

(** [account.update_asset_value] *)
Definition update_asset_value (self : account) (v : Q) : account :=
  {| cash := cash self; asset_value := v;
     daily_account_value_Date := daily_account_value_Date self;
     daily_account_value_Account_Value := daily_account_value_Account_Value self |}.

(** [account.update_daily_account_value]: one [append] on each column. *)
Definition update_daily_account_value (self : account) (d : date) : account :=
  {| cash := cash self; asset_value := asset_value self;
     daily_account_value_Date := daily_account_value_Date self ++ [d];
     daily_account_value_Account_Value :=
       daily_account_value_Account_Value self ++ [cash self + asset_value self] |}.

(** [position.__init__]: [{ticker: 0 for ticker in tickers}] *)
Definition position (tickers : list string) : gmap string Q :=
  foldr (λ ticker m, <[ticker := 0]> m) ∅ tickers.

End Account.

(** ** Backtest.py *)

Module Backtest.
Import Account.
Local Open Scope Q_scope.

(** One row of the joined frame.  [price] is read by ticker column,
    [signal] by signal column name (ticker followed by [_signal]); the
    frame has one fixed schema, so both are total on a row. *)
Record Row := mk_Row {
  Date : date;
  price : string → Q;
  signal : string → Z
}.

Record DataFrame := mk_DataFrame {
  columns : list string;
  rows : list Row
}.

(** The fields of [class backtest] that [run] and the orchestration read or
    write. *)
Record backtest := mk_backtest {
  account : Account.account;
  pos : gmap string Q;
  pl_df : list Row;
  tickers : list string;
  signals : list string;
  slippage : Q;
  downside_risk : Q;
  dates : list date;
  timeframe : list Z;
  metrics : list string;
  port_ret : option (list Q)
}.

Definition set_account (f : Account.account → Account.account) (self : backtest) : backtest :=
  {| account := f (account self); pos := pos self; pl_df := pl_df self;
     tickers := tickers self; signals := signals self; slippage := slippage self;
     downside_risk := downside_risk self; dates := dates self;
     timeframe := timeframe self; metrics := metrics self; port_ret := port_ret self |}.

Definition set_pos (f : gmap string Q → gmap string Q) (self : backtest) : backtest :=
  {| account := account self; pos := f (pos self); pl_df := pl_df self;
     tickers := tickers self; signals := signals self; slippage := slippage self;
     downside_risk := downside_risk self; dates := dates self;
     timeframe := timeframe self; metrics := metrics self; port_ret := port_ret self |}.

Definition set_port_ret (r : list Q) (self : backtest) : backtest :=
  {| account := account self; pos := pos self; pl_df := pl_df self;
     tickers := tickers self; signals := signals self; slippage := slippage self;
     downside_risk := downside_risk self; dates := dates self;
     timeframe := timeframe self; metrics := metrics self; port_ret := Some r |}.

(** ['signal' in col] *)
Definition is_signal_col (col : string) : bool :=
  match String.index 0 "signal" col with Some _ => true | None => false end.

(** [f'{ticker}_signal'] *)
Definition signal_col (ticker : string) : string := ticker +:+ "_signal".

(** [backtest.__init__] *)
Definition init (init_capital : Q) (df : DataFrame) (tks : list string)
    (slip dr : Q) (metric : list string) (tf : list Z) : backtest :=
  {| account := Account.init init_capital;
     pos := Account.position tks;
     pl_df := rows df;
     tickers := tks;
     signals := List.filter is_signal_col (columns df);
     slippage := slip;
     downside_risk := dr;
     dates := Date <$> rows df;
     timeframe := tf;
     metrics := metric;
     port_ret := None |}.

(** A [for] loop whose body may raise. *)
Fixpoint for_each {S A : Type} (body : S → A → option S) (l : list A) (s : S)
    : option S :=
  match l with
  | [] => Some s
  | x :: l' => s' ← body s x; for_each body l' s'
  end.

(** [self.pl_df.filter(pl.col('Date') == date)] *)
Definition filter_date (df : list Row) (d : date) : list Row :=
  List.filter (λ r, (Date r =? d)%Z) df.

(** [((curr_day_signal == v).sum_horizontal() > 0).any()] *)
Definition sum_horizontal (sigs : list string) (v : Z) (r : Row) : nat :=
  length (List.filter (λ c, (signal r c =? v)%Z) sigs).

Definition any_signal (sigs : list string) (v : Z) (curr_day : list Row) : bool :=
  existsb (λ r, (0 <? sum_horizontal sigs v r)%nat) curr_day.

(** Body of the sell loop, lines 86-90. *)
Definition sell_ticker (curr_day : list Row) (self : backtest) (ticker : string)
    : option backtest :=
  r ← list.last curr_day;
  if (signal r (signal_col ticker) =? -1)%Z then
    q ← pos self !! ticker;
    if negb (Qeq_bool q 0) then
      let sell_value := price r ticker * q in
      Some (set_pos (λ p, <[ticker := 0]> p)
             (set_account (λ a, update_cash a (sell_value * (1 - slippage self))) self))
    else Some self
  else Some self.

(** Body of the candidate loop, lines 95-96. *)
Definition collect_buy (curr_day : list Row) (self : backtest)
    (buy_ticker : list string) (ticker : string) : option (list string) :=
  r ← list.last curr_day;
  if (signal r (signal_col ticker) =? 1)%Z then
    q ← pos self !! ticker;
    if Qeq_bool q 0 then Some (buy_ticker ++ [ticker]) else Some buy_ticker
  else Some buy_ticker.

(** Body of the buy loop, lines 101-104.  A zero price makes the Python
    float division raise. *)
Definition buy_ticker_body (curr_day : list Row) (cash_allocation : Q)
    (self : backtest) (ticker : string) : option backtest :=
  r ← list.last curr_day;
  let curr_price := price r ticker in
  if Qeq_bool curr_price 0 then None
  else if Qlt_le_dec 1 (cash_allocation / curr_price) then
    Some (set_account (λ a, update_cash a (- cash_allocation * (1 + slippage self)))
           (set_pos (λ p, <[ticker := cash_allocation / curr_price]> p) self))
  else Some self.

(** Lines 84-90. *)
Definition sell_pass (curr_day : list Row) (self : backtest) : option backtest :=
  for_each (sell_ticker curr_day) (tickers self) self.

Definition sell_phase (curr_day : list Row) (self : backtest) : option backtest :=
  if any_signal (signals self) (-1) curr_day then sell_pass curr_day self
  else Some self.

(** Lines 92-104. *)
Definition buy_pass (curr_day : list Row) (self : backtest) : option backtest :=
  buy_ticker ← for_each (collect_buy curr_day self) (tickers self) [];
  if Qlt_le_dec 0 (cash (account self)) then
    if (0 <? length buy_ticker)%nat then
      let cash_allocation := cash (account self) / inject_Z (Z.of_nat (length buy_ticker)) in
      for_each (buy_ticker_body curr_day cash_allocation) buy_ticker self
    else Some self
  else Some self.

Definition buy_phase (curr_day : list Row) (self : backtest) : option backtest :=
  if any_signal (signals self) 1 curr_day then buy_pass curr_day self
  else Some self.

(** Lines 106-108. *)
Definition asset_value_body (curr_day : list Row) (self : backtest)
    (today_asset_value : Q) (ticker : string) : option Q :=
  q ← pos self !! ticker;
  r ← list.last curr_day;
  Some (today_asset_value + q * price r ticker).

(** Lines 106-111. *)
Definition mark_and_record (curr_day : list Row) (d : date) (self : backtest)
    : option backtest :=
  today_asset_value ← for_each (asset_value_body curr_day self) (tickers self) 0;
  Some (set_account
          (λ a, update_daily_account_value (update_asset_value a today_asset_value) d)
          self).

(** The body of the [for date in self.dates] loop on a given selection. *)
Definition day_on (curr_day : list Row) (self : backtest) (d : date)
    : option backtest :=
  s1 ← sell_phase curr_day self;
  s2 ← buy_phase curr_day s1;
  mark_and_record curr_day d s2.

Definition day (self : backtest) (d : date) : option backtest :=
  day_on (filter_date (pl_df self) d) self d.

(** [np.diff] *)
Fixpoint np_diff (a : list Q) : list Q :=
  match a with
  | x :: (y :: _) as a' => (y - x) :: np_diff a'
  | _ => []
  end.

(** Lines 113-114: [np.diff(V) / V[1:]], then one zero padded in front.
    Where an account value is zero numpy's quotient is [inf] or [nan]; the
    quotient of [Q] is 0 there. *)
Definition returns_of (V : list Q) : list Q :=
  0 :: zip_with Qdiv (np_diff V) (tail V).

(** [backtest.run] *)
Definition run (self : backtest) : option backtest :=
  s ← for_each day (dates self) self;
  Some (set_port_ret (returns_of (daily_account_value_Account_Value (account s))) s).

End Backtest.

(** ** Performance.py *)

Module Performance.
Local Open Scope R_scope.

(** A numpy [float64], idealised: a real number or one of the IEEE
    specials.  Signed zeros are not distinguished. *)
Inductive npfloat :=
  | Num (x : R)
  | PosInf
  | NegInf
  | NaN.

Definition is_number (v : npfloat) : Prop := ∃ x, v = Num x.

(** IEEE division. *)
Definition fdiv (a b : npfloat) : npfloat :=
  match a, b with
  | NaN, _ | _, NaN => NaN
  | Num x, Num y =>
      if Req_dec_T y 0 then
        match total_order_T x 0 with
        | inleft (left _) => NegInf
        | inleft (right _) => NaN
        | inright _ => PosInf
        end
      else Num (x / y)
  | Num _, _ => Num 0
  | PosInf, Num y => if Rlt_dec y 0 then NegInf else PosInf
  | NegInf, Num y => if Rlt_dec y 0 then PosInf else NegInf
  | _, _ => NaN
  end.

(** IEEE multiplication. *)
Definition fmul (a b : npfloat) : npfloat :=
  let scale (inf ninf : npfloat) (y : R) :=
    match total_order_T y 0 with
    | inleft (left _) => ninf
    | inleft (right _) => NaN
    | inright _ => inf
    end in
  match a, b with
  | NaN, _ | _, NaN => NaN
  | Num x, Num y => Num (x * y)
  | PosInf, Num y | Num y, PosInf => scale PosInf NegInf y
  | NegInf, Num y | Num y, NegInf => scale NegInf PosInf y
  | PosInf, PosInf | NegInf, NegInf => PosInf
  | _, _ => NegInf
  end.

(** IEEE subtraction. *)
Definition fsub (a b : npfloat) : npfloat :=
  match a, b with
  | NaN, _ | _, NaN => NaN
  | Num x, Num y => Num (x - y)
  | PosInf, PosInf | NegInf, NegInf => NaN
  | PosInf, _ | _, NegInf => PosInf
  | _, _ => NegInf
  end.

(** [np.sqrt] *)
Definition fsqrt (a : npfloat) : npfloat :=
  match a with
  | Num x => if Rlt_dec x 0 then NaN else Num (sqrt x)
  | PosInf => PosInf
  | _ => NaN
  end.

(** Nearest integer, ties to even ([np.rint]). *)
Definition rint (x : R) : Z :=
  let f := Zfloor x in
  match total_order_T (x - IZR f) (1 / 2) with
  | inleft (left _) => f
  | inleft (right _) => if Z.even f then f else (f + 1)%Z
  | inright _ => (f + 1)%Z
  end.

(** [np.round(x, 2)], also what [round(x, 2)] does on a [float64]. *)
Definition round2 (a : npfloat) : npfloat :=
  match a with
  | Num x => Num (IZR (rint (x * 100)) / 100)
  | _ => a
  end.

(** The larger of two values, as [np.max] reduces: a [nan] wins. *)
Definition fmax (a b : npfloat) : npfloat :=
  match a, b with
  | NaN, _ | _, NaN => NaN
  | PosInf, _ | _, PosInf => PosInf
  | NegInf, v | v, NegInf => v
  | Num x, Num y => Num (Rmax x y)
  end.

(** [np.max]: raises on an empty array. *)
Definition np_max (a : list npfloat) : option npfloat :=
  match a with
  | [] => None
  | x :: a' => Some (foldl fmax x a')
  end.

Definition np_sum (a : list R) : R := foldr Rplus 0 a.

(** [ndarray.mean]: [nan] on an empty array. *)
Definition np_mean (a : list R) : npfloat :=
  fdiv (Num (np_sum a)) (Num (INR (length a))).

(** The standard deviation with [ddof] delta degrees of freedom:
    [sqrt(sum((x - mean)^2) / (n - ddof))]. *)
Definition sum_sq_dev (a : list R) : R :=
  let m := np_sum a / INR (length a) in
  np_sum (map (λ x, (x - m) * (x - m)) a).

Definition std_ddof (ddof : nat) (a : list R) : npfloat :=
  fsqrt (fdiv (Num (sum_sq_dev a)) (Num (INR (length a) - INR ddof))).

(** [ndarray.std()]: numpy's default is [ddof = 0]. *)
Definition ndarray_std (a : list R) : npfloat := std_ddof 0 a.

(** The window of [w] values ending at index [i]. *)
Definition window_at (w i : nat) (a : list R) : list R :=
  firstn w (skipn (i + 1 - w) a).

(** [pl.Series(a).rolling_std(w).to_numpy()]: polars' defaults are
    [min_periods = w] and [ddof = 1]; the leading nulls become [nan]. *)
Definition rolling_std (w : nat) (a : list R) : list npfloat :=
  map (λ i, if (i + 1 <? w)%nat then NaN else std_ddof 1 (window_at w i a))
      (seq 0 (length a)).

Definition dot (a b : list R) : R := np_sum (zip_with Rmult a b).

(** [np.convolve(a, v, mode='valid')]: raises on an empty argument and
    swaps the arguments when [v] is the longer one. *)
Definition np_convolve_valid (a v : list R) : option (list R) :=
  match a, v with
  | [], _ | _, [] => None
  | _, _ =>
      let '(a, v) := if (length a <? length v)%nat then (v, a) else (a, v) in
      let m := length v in
      Some (map (λ i, dot (firstn m (skipn i a)) (rev v))
                (seq 0 (length a - m + 1)))
  end.

(** [np.zeros(n)] and [np.ones(n) / d]: a negative length raises. *)
Definition np_zeros (n : Z) : option (list R) :=
  if (n <? 0)%Z then None else Some (repeat 0 (Z.to_nat n)).

Definition np_ones_over (n : Z) (d : R) : option (list R) :=
  if (n <? 0)%Z then None else Some (repeat (1 / d) (Z.to_nat n)).

(** An elementwise binary operation on two one-dimensional arrays, with
    numpy's broadcasting: equal lengths, or one side of length one. *)
Definition broadcast2 {A B C} (f : A → B → C) (a : list A) (b : list B)
    : option (list C) :=
  if (length a =? length b)%nat then Some (zip_with f a b)
  else match a, b with
       | [x], _ => Some (map (f x) b)
       | _, [y] => Some (map (λ x, f x y) a)
       | _, _ => None
       end.

(** [a[start:]] *)
Definition slice_from {A} (start : Z) (a : list A) : list A :=
  let n := Z.of_nat (length a) in
  let s := if (start <? 0)%Z then Z.max 0 (n + start) else Z.min start n in
  skipn (Z.to_nat s) a.

Fixpoint cumprod_from (acc : R) (a : list R) : list R :=
  match a with
  | [] => []
  | x :: a' => (acc * x) :: cumprod_from (acc * x) a'
  end.

(** [np.cumprod] *)
Definition np_cumprod (a : list R) : list R := cumprod_from 1 a.

Fixpoint maximum_accumulate_from (acc : R) (a : list R) : list R :=
  match a with
  | [] => []
  | x :: a' => Rmax acc x :: maximum_accumulate_from (Rmax acc x) a'
  end.

(** [np.maximum.accumulate] *)
Definition np_maximum_accumulate (a : list R) : list R :=
  match a with
  | [] => []
  | x :: a' => x :: maximum_accumulate_from x a'
  end.

(** [np.where(a < downside_risk, a, 0)] *)
Definition np_where_below (downside_risk : R) (a : list R) : list R :=
  map (λ x, if Rlt_dec x downside_risk then x else 0) a.

Record performance := mk_performance {
  years : Z;
  trade_days : Z;
  timeframe : Z;
  portfolio_ret : list R;
  rolling : list R
}.

(** [performance.__init__] *)
Definition init (rets : list R) (yrs : Z) : performance :=
  let tf := (yrs * 252)%Z in
  {| years := yrs; trade_days := 252; timeframe := tf;
     portfolio_ret := slice_from (- tf) rets;
     rolling := rets |}.

(** [compute_cum_rets] *)
Definition compute_cum_rets (self : performance) : list R :=
  np_cumprod (map (λ x, x + 1) (rolling self)).

(** [compute_sharpe] *)
Definition compute_sharpe (self : performance) : npfloat :=
  round2 (fmul (fdiv (np_mean (portfolio_ret self)) (ndarray_std (portfolio_ret self)))
               (Num (sqrt (IZR (trade_days self))))).

(** Lines 47-49 and 62-64: the zero-padded moving average. *)
Definition rolling_mean (self : performance) : option (list R) :=
  pad ← np_zeros (timeframe self - 1);
  kernel ← np_ones_over (timeframe self) (IZR (timeframe self));
  valid ← np_convolve_valid (rolling self) kernel;
  Some (pad ++ valid).

(** Line 50. *)
Definition rolling_std_of (self : performance) (a : list R) : list npfloat :=
  rolling_std (Z.to_nat (timeframe self)) a.

(** [compute_rolling_sharpe] *)
Definition compute_rolling_sharpe (self : performance) : option (list npfloat) :=
  rm ← rolling_mean self;
  let rs := rolling_std_of self (rolling self) in
  ratio ← broadcast2 fdiv (Num <$> rm) rs;
  Some (map (λ v, round2 (fmul v (Num (sqrt (IZR (trade_days self)))))) ratio).

(** [compute_sortino] *)
Definition compute_sortino (self : performance) (downside_risk : R) : npfloat :=
  let downside_ret := np_where_below downside_risk (portfolio_ret self) in
  let downside_std := ndarray_std downside_ret in
  round2 (fmul (fdiv (np_mean (portfolio_ret self)) downside_std)
               (Num (sqrt (IZR (trade_days self))))).

(** [compute_rolling_sortino] *)
Definition compute_rolling_sortino (self : performance) (downside_risk : R)
    : option (list npfloat) :=
  rm ← rolling_mean self;
  let downside_ret := np_where_below downside_risk (rolling self) in
  let rolling_downside_ret := rolling_std_of self downside_ret in
  ratio ← broadcast2 fdiv (Num <$> rm) rolling_downside_ret;
  Some (map (λ v, round2 (fmul v (Num (sqrt (IZR (trade_days self)))))) ratio).

(** Lines 74-77: the drawdown ratios before the maximum is taken. *)
Definition drawdown_ratios (a : list R) : list npfloat :=
  let cum_ret := np_cumprod (map (λ x, 1 + x) a) in
  let cum_roll_max := np_maximum_accumulate cum_ret in
  let drawdowns := zip_with Rminus cum_roll_max cum_ret in
  zip_with (λ d m, fdiv (Num d) (Num m)) drawdowns cum_roll_max.

(** [compute_max_dd] *)
Definition compute_max_dd (self : performance) : option npfloat :=
  max_drawdown ← np_max (drawdown_ratios (portfolio_ret self));
  Some (round2 (fmul max_drawdown (Num 100))).

(** [compute_drawdown] *)
Definition compute_drawdown (self : performance) : list npfloat :=
  let cum_ret := np_cumprod (map (λ x, 1 + x) (portfolio_ret self)) in
  let peak := np_maximum_accumulate cum_ret in
  zip_with (λ c p, fsub (fdiv (Num c) (Num p)) (Num 1)) cum_ret peak.

(** [compute_volatility] *)
Definition compute_volatility (self : performance) : npfloat :=
  let vol := fmul (ndarray_std (portfolio_ret self))
                  (Num (sqrt (IZR (trade_days self)))) in
  round2 (fmul vol (Num 100)).

End Performance.

(** ** Backtest.py: the orchestration on top of the performance engine *)

Module Orchestration.
Import Backtest Performance.
Local Open Scope R_scope.

(** [b ** e] on floats: a negative base has a power only for an integer
    exponent. *)
Definition fpow (b e : R) : npfloat :=
  match total_order_T b 0 with
  | inright _ => Num (Rpower b e)
  | inleft (right _) =>
      match total_order_T e 0 with
      | inleft (left _) => PosInf
      | inleft (right _) => Num 1
      | inright _ => Num 0
      end
  | inleft (left _) =>
      if Req_dec_T (IZR (Zfloor e)) e then Num (powerRZ b (Zfloor e)) else NaN
  end.

(** [compute_annualized_rets]: the Python division of [trade_days] by a
    zero [timeframe] raises. *)
Definition compute_annualized_rets (self : performance) : option npfloat :=
  if (Performance.timeframe self =? 0)%Z then None
  else
    let e := IZR (trade_days self) / IZR (Performance.timeframe self) in
    let annualized_return :=
      fsub (fpow (foldr Rmult 1 (map (λ x, 1 + x) (portfolio_ret self))) e) (Num 1) in
    Some (round2 (fmul annualized_return (Num 100))).

(** The columns [generate_performance] attaches to the frame. *)
Inductive perf_col :=
  | portfolio_cum_ret
  | portfolio_drawdown
  | annualized_sharpe (tf : Z)
  | annualized_sortino (tf : Z).

(** The guard of lines 140 and 166: [len(self.pl_df) > tf]. *)
Definition guard (self : backtest) (tf : Z) : bool :=
  (tf <? Z.of_nat (length (pl_df self)))%Z.

(** [generate_performance]: the attached columns, in order. *)
Definition generate_performance (self : backtest)
    : option (list (perf_col * list npfloat)) :=
  rets ← port_ret self;
  let rets := Q2R <$> rets in
  let compute_port_perf := Performance.init rets 0 in
  let cols := [(portfolio_cum_ret, Num <$> compute_cum_rets compute_port_perf);
               (portfolio_drawdown, compute_drawdown compute_port_perf)] in
  for_each
    (λ cols tf,
       if guard self tf then
         let compute_port_perf := Performance.init rets tf in
         sharpe ← compute_rolling_sharpe compute_port_perf;
         sortino ← compute_rolling_sortino compute_port_perf (Q2R (downside_risk self));
         Some (cols ++ [(annualized_sharpe tf, sharpe); (annualized_sortino tf, sortino)])
       else Some cols)
    (Backtest.timeframe self) cols.

(** What [generate_report] computes for one timeframe, lines 167-173, before
    it prints: annualized return, rolling Sharpe, rolling Sortino, maximum
    drawdown, volatility. *)
Record report_values := mk_report_values {
  port_cum_ret : npfloat;
  port_rolling_sharpe : list npfloat;
  port_rolling_sortino : list npfloat;
  port_maxdd : npfloat;
  port_vol : npfloat
}.

Definition report_one (self : backtest) (rets : list R) (tf : Z)
    : option report_values :=
  let compute_port_perf := Performance.init rets tf in
  a ← compute_annualized_rets compute_port_perf;
  sharpe ← compute_rolling_sharpe compute_port_perf;
  sortino ← compute_rolling_sortino compute_port_perf (Q2R (downside_risk self));
  maxdd ← compute_max_dd compute_port_perf;
  Some {| port_cum_ret := a; port_rolling_sharpe := sharpe;
          port_rolling_sortino := sortino; port_maxdd := maxdd;
          port_vol := compute_volatility compute_port_perf |}.

(** [generate_report], lines 164-180: one entry per metric and per timeframe
    that passes the guard. *)
Definition generate_report (self : backtest)
    : option (list (string * Z * report_values)) :=
  for_each
    (λ out metric,
       for_each
         (λ out tf,
            if guard self tf then
              rets ← port_ret self;
              v ← report_one self (Q2R <$> rets) tf;
              Some (out ++ [(metric, tf, v)])
            else Some out)
         (Backtest.timeframe self) out)
    (metrics self) [].

End Orchestration.

(** ** Vocabulary of the statements *)

(** ** Strategy.py *)

Module Strategy.
Local Open Scope Q_scope.

(** A cell of a float column: a number, or null. *)
Definition cell := option Q.

(** The frame as [double_bbands] reads it: its float columns by name, all
    of one height.  Floats are idealised as rationals; NaN is left out. *)
Definition frame := gmap string (list cell).

(** [a > b] and [a < b] on two cells: null when either side is null. *)
Definition gt (a b : cell) : option bool :=
  x ← a; y ← b; Some (if Qlt_le_dec y x then true else false).

Definition lt (a b : cell) : option bool :=
  x ← a; y ← b; Some (if Qlt_le_dec x y then true else false).

(** [pl.when(p, q)]: the predicates are combined with and, and a row whose
    predicate is null takes the [otherwise] branch. *)
Definition when_ (predicates : list (option bool)) : bool :=
  forallb (default false) predicates.

(** Lines 39-46 on one row. *)
Definition signal_at (close upper_1 upper_2 lower_1 lower_2 : cell) : Z :=
  if when_ [gt close upper_1; lt close upper_2] then 1
  else if when_ [lt close lower_1; gt close lower_2] then -1
  else 0.

(** The cell of a column at a row. *)
Definition at_row (column : list cell) (i : nat) : cell := mjoin (column !! i).

(** Lines 39-47 for one ticker: a column the expression names and the
    frame lacks raises. *)
Definition signal_column (df : frame) (col : string) : option (list Z) :=
  close ← df !! col;
  upper_1 ← df !! (col +:+ "_1_upper_band");
  upper_2 ← df !! (col +:+ "_2_upper_band");
  lower_1 ← df !! (col +:+ "_1_lower_band");
  lower_2 ← df !! (col +:+ "_2_lower_band");
  Some (map (λ i, signal_at (at_row close i) (at_row upper_1 i) (at_row upper_2 i)
                            (at_row lower_1 i) (at_row lower_2 i))
            (seq 0 (length close))).

(** [double_bbands]: the columns [with_columns] adds, in order, each under
    the alias [f'{col}_signal'].  polars refuses two expressions with one
    output name, so a repeated ticker raises. *)
Definition double_bbands (df : frame) (tickers : list string)
    : option (list (string * list Z)) :=
  if decide (NoDup tickers) then
    mapM (λ col, v ← signal_column df col; Some (col +:+ "_signal", v)) tickers
  else None.

End Strategy.

(** ** Indicators.py *)

Module Indicators.
Import Strategy.
Local Open Scope Q_scope.

(** The frame without its [Date] column, which both methods carry along
    untouched: the float columns by name, in order. *)
Definition frame := list (string * list cell).

(** ['sma' in col] *)
Definition is_sma_col (col : string) : bool :=
  match String.index 0 "sma" col with Some _ => true | None => false end.

(** [col.replace('_sma', '')]: every occurrence is dropped, from left to
    right; [skip] counts the characters of an occurrence still to drop. *)
Fixpoint replace_sma_from (skip : nat) (col : string) : string :=
  match col with
  | EmptyString => EmptyString
  | String c col' =>
      match skip with
      | S k => replace_sma_from k col'
      | O => if String.prefix "_sma" col then replace_sma_from 3 col'
             else String c (replace_sma_from 0 col')
      end
  end.

Definition replace_sma (col : string) : string := replace_sma_from 0 col.

(** [pl.concat(frames, how = 'horizontal')]: a column name that occurs
    twice raises. *)
Definition concat_horizontal (frames : list frame) : option frame :=
  let df := concat frames in
  if decide (NoDup df.*1) then Some df else None.

(** Arithmetic on cells: null when an operand is null. *)
Definition add (a b : cell) : cell := x ← a; y ← b; Some (x + y).
Definition sub (a b : cell) : cell := x ← a; y ← b; Some (x - y).
Definition scale (k : Q) (a : cell) : cell := x ← a; Some (k * x).

Section Kernels.

(** polars' [rolling_mean] and [rolling_std] on a column, by window size. *)
Variables rolling_mean rolling_std : Z → list cell → list cell.

(** [compute_SMA]: the new frame and the returned [pl_sma]. *)
Definition compute_SMA (self : frame) (window : Z) : option (frame * frame) :=
  let pl_sma := map (λ c, (c.1 +:+ "_sma", rolling_mean window c.2)) self in
  df ← concat_horizontal [self; pl_sma];
  Some (df, pl_sma).

(** [compute_bbands]; [std_repr] is the text [f'{std}'] puts in the column
    names. *)
Definition compute_bbands (self : frame) (window : Z) (std : Q)
    (std_repr : string) : option frame :=
  let pl_sma := List.filter (λ c, is_sma_col c.1) self in
  let band (op : cell → cell → cell) (side : string) :=
    map (λ c, (replace_sma c.1 +:+ "_" +:+ std_repr +:+ side,
               zip_with op c.2 (map (scale std) (rolling_std window c.2))))
        pl_sma in
  concat_horizontal [self; band add "_upper_band"; band sub "_lower_band"].

End Kernels.

End Indicators.

Module Vocabulary.
Import Account Backtest.
Local Open Scope Q_scope.

(** What [backtest.__init__] guarantees before [run]: polars refuses a
    selection with a repeated column, so the tickers are distinct; the
    position dict has every ticker as a key; every ticker has its signal
    column; and every date of [self.dates] is the date of some row. *)
Record well_formed (self : backtest) : Prop := mk_well_formed {
  wf_nodup : NoDup (tickers self);
  wf_keys : ∀ t, t ∈ tickers self → is_Some (pos self !! t);
  wf_signals : ∀ t, t ∈ tickers self → signal_col t ∈ signals self;
  wf_dates : ∀ d, d ∈ dates self → ∃ r, r ∈ pl_df self ∧ Date r = d
}.

(** Prices are never zero. *)
Definition priced (self : backtest) : Prop :=
  ∀ r t, r ∈ pl_df self → t ∈ tickers self → ¬ price r t == 0.

(** A backtest as [__init__] leaves it: no history yet, and one date per
    row of the frame. *)
Definition fresh (self : backtest) : Prop :=
  daily_account_value_Date (account self) = [] ∧
  daily_account_value_Account_Value (account self) = [] ∧
  dates self = Date <$> pl_df self.

(** The fields [run] never writes. *)
Definition same_frame (s s' : backtest) : Prop :=
  pl_df s' = pl_df s ∧ tickers s' = tickers s ∧ signals s' = signals s ∧
  slippage s' = slippage s ∧ dates s' = dates s.

(** The history of the ledger is left as it is. *)
Definition same_history (s s' : backtest) : Prop :=
  daily_account_value_Date (account s') = daily_account_value_Date (account s) ∧
  daily_account_value_Account_Value (account s') =
    daily_account_value_Account_Value (account s).

(** No key of the position dict is lost. *)
Definition keeps_keys (s s' : backtest) : Prop :=
  ∀ t, is_Some (pos s !! t) → is_Some (pos s' !! t).

(** What every trade leaves alone. *)
Definition trade (s s' : backtest) : Prop :=
  same_frame s s' ∧ same_history s s' ∧ keeps_keys s s'.

(** The quantity held, zero for an absent key. *)
Definition holding (self : backtest) (t : string) : Q :=
  default 0 (pos self !! t).

(** The instruments the sell pass liquidates on row [r]. *)
Definition sells (r : Row) (self : backtest) (t : string) : bool :=
  (signal r (signal_col t) =? -1)%Z && negb (Qeq_bool (holding self t) 0).

(** The proceeds of liquidating [t] on row [r]. *)
Definition proceeds (r : Row) (self : backtest) (t : string) : Q :=
  price r t * holding self t * (1 - slippage self).

(** The candidates of the buy pass on row [r]. *)
Definition candidate (r : Row) (self : backtest) (t : string) : bool :=
  (signal r (signal_col t) =? 1)%Z && Qeq_bool (holding self t) 0.

(** The minimum-lot filter. *)
Definition lot_ok (cash_allocation : Q) (r : Row) (t : string) : bool :=
  if Qlt_le_dec 1 (cash_allocation / price r t) then true else false.

Definition Qsum (l : list Q) : Q := foldr Qplus 0 l.

(** The row that decides date [d]: the last one bearing it. *)
Definition last_row (self : backtest) (d : date) : option Row :=
  list.last (filter_date (pl_df self) d).

End Vocabulary.

Module EngineVocabulary.
Import Performance.
Local Open Scope R_scope.

(** A drawdown ratio that is a number between 0 and 1. *)
Definition unit_ratio (v : npfloat) : Prop := ∃ x, v = Num x ∧ 0 <= x <= 1.

(** The ratios of lines 75-77 past a running maximum [m]. *)
Definition ratios_from (m : R) (C : list R) : list npfloat :=
  zip_with (λ d m, fdiv (Num d) (Num m))
    (zip_with Rminus (maximum_accumulate_from m C) C)
    (maximum_accumulate_from m C).

End EngineVocabulary.

Module LedgerVocabulary.
Import Account Backtest Vocabulary.
Local Open Scope Q_scope.

(** The holdings valued at the prices of row [r]. *)
Definition marked (r : Row) (self : backtest) : Q :=
  Qsum (map (λ t, holding self t * price r t) (tickers self)).

(** What the sell pass liquidates on row [r], before slippage. *)
Definition gross_sold (r : Row) (self : backtest) : Q :=
  Qsum (map (λ t, price r t * holding self t)
            (List.filter (sells r self) (tickers self))).

(** What the buy pass invests on row [r], before slippage: one allocation
    for every candidate that passes the lot filter. *)
Definition invested (r : Row) (self : backtest) : Q :=
  let cands := List.filter (candidate r self) (tickers self) in
  let allocation := cash (account self) / inject_Z (Z.of_nat (length cands)) in
  if Qlt_le_dec 0 (cash (account self))
  then inject_Z (Z.of_nat (length (List.filter (lot_ok allocation r) cands))) * allocation
  else 0.

(** Every holding is zero or more than one unit. *)
Definition lots (self : backtest) : Prop :=
  ∀ t q, pos self !! t = Some q → q == 0 ∨ 1 < q.

Definition Qprod (l : list Q) : Q := foldr Qmult 1 l.

(** The same backtest with its tickers listed in another order. *)
Definition with_tickers (l : list string) (self : backtest) : backtest :=
  {| account := account self; pos := pos self; pl_df := pl_df self;
     tickers := l; signals := signals self; slippage := slippage self;
     downside_risk := downside_risk self; dates := dates self;
     timeframe := timeframe self; metrics := metrics self;
     port_ret := port_ret self |}.

End LedgerVocabulary.

Module SeriesVocabulary.
Import Performance.
Local Open Scope R_scope.

(** The opposite of a float. *)
Definition fneg (v : npfloat) : npfloat :=
  match v with
  | Num x => Num (- x)
  | PosInf => NegInf
  | NegInf => PosInf
  | NaN => NaN
  end.

(** A drawdown that is a number between -1 and 0. *)
Definition unit_loss (v : npfloat) : Prop := ∃ x, v = Num x ∧ -1 <= x <= 0.

End SeriesVocabulary.

Module SignalVocabulary.
Import Strategy.
Local Open Scope Q_scope.

(** The close is a number strictly between two bands that are numbers. *)
Definition in_zone (close lo hi : cell) : Prop :=
  ∃ c a b, close = Some c ∧ lo = Some a ∧ hi = Some b ∧ a < c < b.

(** The frame has the close and the four bands of ticker [t]. *)
Definition has_bands (df : frame) (t : string) : Prop :=
  is_Some (df !! t) ∧
  is_Some (df !! (t +:+ "_1_upper_band")) ∧ is_Some (df !! (t +:+ "_2_upper_band")) ∧
  is_Some (df !! (t +:+ "_1_lower_band")) ∧ is_Some (df !! (t +:+ "_2_lower_band")).

End SignalVocabulary.

Module PipelineVocabulary.
Import Strategy Indicators.

(** ['band' in col] *)
Definition is_band_col (col : string) : bool :=
  match String.index 0 "band" col with Some _ => true | None => false end.

(** A ticker that cannot be taken for a moving average or a band. *)
Definition plain (t : string) : Prop :=
  is_sma_col t = false ∧ is_band_col t = false.

(** The names of the columns the indicators add for the tickers. *)
Definition sma_names (tickers : list string) : list string :=
  (λ t, t +:+ "_sma") <$> tickers.

Definition band_names (std_repr : string) (tickers : list string) : list string :=
  ((λ t, t +:+ "_" +:+ std_repr +:+ "_upper_band") <$> tickers) ++
  ((λ t, t +:+ "_" +:+ std_repr +:+ "_lower_band") <$> tickers).

(** A band as [compute_bbands] computes it from the close of a ticker, once
    [compute_SMA] has run: the moving average, plus or minus [std] times the
    rolling deviation of that moving average. *)
Definition band_of (rolling_mean rolling_std : Z → list cell → list cell)
    (window : Z) (std : Q) (op : cell → cell → cell) (close : list cell)
    : list cell :=
  let sma := rolling_mean window close in
  zip_with op sma (map (scale std) (rolling_std window sma)).

(** The columns the indicators add to a frame of closes. *)
Definition sma_frame (rolling_mean : Z → list cell → list cell) (window : Z)
    (prices : frame) : frame :=
  map (λ c, (c.1 +:+ "_sma", rolling_mean window c.2)) prices.

Definition band_frame (rolling_mean rolling_std : Z → list cell → list cell)
    (window : Z) (std : Q) (std_repr : string) (op : cell → cell → cell)
    (side : string) (prices : frame) : frame :=
  map (λ c, (c.1 +:+ "_" +:+ std_repr +:+ side,
             band_of rolling_mean rolling_std window std op c.2)) prices.

(** Kernels for a frame whose columns never move: the moving average is the
    column, its deviation is zero. *)
Definition still_mean (window : Z) (column : list cell) : list cell := column.

Definition still_std (window : Z) (column : list cell) : list cell :=
  (λ _, Some 0%Q) <$> column.

End PipelineVocabulary.

(** ** Concrete inputs *)

Module Scenario.
Import Account Backtest.
Local Open Scope Q_scope.

Definition row (d : Z) (pA pB : Q) (sA sB : Z) : Row :=
  {| Date := d;
     price := λ t, if String.eqb t "A" then pA else pB;
     signal := λ c, if String.eqb c "A_signal" then sA
                    else if String.eqb c "B_signal" then sB else 0%Z |}.

Definition cols : list string := ["Date"; "A"; "B"; "A_signal"; "B_signal"].

(** Two instruments; A is bought on day 1 and sold on day 2. *)
Definition day1 : Row := row 1 100 50 1 0.
Definition day2 : Row := row 2 110 50 (-1) 0.
Definition two_days : DataFrame := mk_DataFrame cols [day1; day2].

Definition bt (slip : Q) : backtest :=
  Backtest.init 10000 two_days ["A"; "B"] slip 0 [] [1%Z].

(** The same backtest holding 100 units of A and no cash. *)
Definition holding_A : backtest :=
  set_account (λ a, update_cash a (-10000))
    (set_pos (λ p, <["A" := 100]> p) (bt 0)).

(** Day 1 appears twice: the first row says sell A at 1, the last one says
    buy A at 100. *)
Definition day1_early : Row := row 1 1 1 (-1) (-1).
Definition repeated : DataFrame := mk_DataFrame cols [day1_early; day1; day2].

Definition bt_repeated : backtest :=
  Backtest.init 10000 repeated ["A"; "B"] 0 0 [] [1%Z].

(** Two candidates, one of them too expensive for its share. *)
Definition day_lot : Row := row 1 100 6000 1 1.
Definition bt_lot : backtest :=
  Backtest.init 10000 (mk_DataFrame cols [day_lot]) ["A"; "B"] (1 # 100) 0 [] [1%Z].

(** A frame with no row at all. *)
Definition bt_empty : backtest :=
  Backtest.init 10000 (mk_DataFrame cols []) ["A"; "B"] 0 0 [] [1%Z].

(** A is bought at 100 and falls to 10 the next day. *)
Definition bt_crash : backtest :=
  Backtest.init 10000 (mk_DataFrame cols [day1; row 2 10 50 0 0]) ["A"; "B"]
    0 0 [] [1%Z].

(** A hundred quiet days: no signal at all, so every return is zero. *)
Definition quiet_rows : list Row :=
  map (λ d, row (Z.of_nat d) 100 50 0 0) (seq 1 100).

Definition bt_short : backtest :=
  Backtest.init 10000 (mk_DataFrame cols quiet_rows) ["A"; "B"] 0 0
    ["Sharpe Ratio"] [1%Z].

(** The same backtest once [run] has returned. *)
Definition ran_short : backtest := default bt_short (run bt_short).

End Scenario.

Module ReportScenario.
Import Account Backtest Scenario.
Local Open Scope Q_scope.

(** Three hundred quiet days and a one-year window: the return series is
    longer than the window. *)
Definition year_rows : list Row :=
  map (λ d, row (Z.of_nat d) 100 50 0 0) (seq 1 300).

Definition bt_year : backtest :=
  Backtest.init 10000 (mk_DataFrame cols year_rows) ["A"; "B"] 0 0
    ["Sharpe Ratio"; "Max Drawdown"] [1%Z].

Definition ran_year : backtest := default bt_year (run bt_year).

End ReportScenario.

(** ** The simulation loop *)

Section Simulation.
Import Account Backtest Vocabulary.
Local Open Scope Q_scope.

Lemma for_each_ext {S A} (f g : S → A → option S) l s :
  (∀ s x, x ∈ l → f s x = g s x) → for_each f l s = for_each g l s.
Proof.
  revert s. induction l as [|x l IH]; intros s H; simpl; [done|].
  rewrite (H s x) by set_solver.
  destruct (g s x) as [s'|]; simpl; [|done].
  apply IH. intros; apply H; set_solver.
Qed.

Lemma for_each_id {S A} (f : S → A → option S) l s :
  (∀ x, x ∈ l → f s x = Some s) → for_each f l s = Some s.
Proof.
  induction l as [|x l IH]; intros H; simpl; [done|].
  rewrite H by set_solver. simpl. apply IH. intros; apply H; set_solver.
Qed.

Lemma for_each_app {S A} (f : S → A → option S) l1 l2 s :
  for_each f (l1 ++ l2) s = (s' ← for_each f l1 s; for_each f l2 s').
Proof.
  revert s. induction l1 as [|x l1 IH]; intros s; simpl; [done|].
  destruct (f s x); simpl; [apply IH|done].
Qed.

(** A loop invariant for [for_each]. *)
Lemma for_each_inv {S A} (P : S → Prop) (f : S → A → option S) l s s' :
  (∀ s x s', x ∈ l → P s → f s x = Some s' → P s') →
  P s → for_each f l s = Some s' → P s'.
Proof.
  revert s. induction l as [|x l IH]; intros s Hf Hs H; simpl in H.
  - by simplify_eq.
  - destruct (f s x) as [s1|] eqn:E; simpl in H; [|done].
    eapply (IH s1); [|eapply Hf; [|done..]|done]; [|set_solver].
    intros; eapply Hf; [|done..]. set_solver.
Qed.

Lemma any_signal_false sigs v curr_day r c :
  any_signal sigs v curr_day = false → r ∈ curr_day → c ∈ sigs →
  (signal r c =? v)%Z = false.
Proof.
  intros H Hr Hc. unfold any_signal in H.
  destruct (signal r c =? v)%Z eqn:E; [|done].
  assert (existsb (λ r, (0 <? sum_horizontal sigs v r)%nat) curr_day = true) as H'.
  { apply existsb_exists. exists r. split; [by apply list_elem_of_In|].
    apply Nat.ltb_lt. unfold sum_horizontal.
    assert (In c (List.filter (λ c, (signal r c =? v)%Z) sigs)) as Hin.
    { apply filter_In. split; [by apply list_elem_of_In|done]. }
    destruct (List.filter _ sigs); [done|simpl; lia]. }
  congruence.
Qed.

(** The [sell_signal] gate adds nothing: where it is off, no ticker of the
    deciding row carries a sell signal, and the loop would do nothing. *)
Lemma sell_phase_pass curr_day r self :
  list.last curr_day = Some r →
  (∀ t, t ∈ tickers self → signal_col t ∈ signals self) →
  sell_phase curr_day self = sell_pass curr_day self.
Proof.
  intros Hr Hs. unfold sell_phase, sell_pass.
  destruct (any_signal _ _ _) eqn:G; [done|].
  symmetry. apply for_each_id. intros t Ht. unfold sell_ticker.
  rewrite Hr. simpl.
  by rewrite (any_signal_false _ _ _ r _ G (last_Some_elem_of _ _ Hr) (Hs t Ht)).
Qed.

Lemma collect_buy_none curr_day r self l acc :
  list.last curr_day = Some r →
  (∀ t, t ∈ l → (signal r (signal_col t) =? 1)%Z = false) →
  for_each (collect_buy curr_day self) l acc = Some acc.
Proof.
  intros Hr H. apply for_each_id. intros t Ht. unfold collect_buy.
  rewrite Hr. simpl. by rewrite H.
Qed.

(** Likewise for the [buy_signal] gate. *)
Lemma buy_phase_pass curr_day r self :
  list.last curr_day = Some r →
  (∀ t, t ∈ tickers self → signal_col t ∈ signals self) →
  buy_phase curr_day self = buy_pass curr_day self.
Proof.
  intros Hr Hs. unfold buy_phase, buy_pass.
  destruct (any_signal _ _ _) eqn:G; [done|].
  rewrite (collect_buy_none _ r); [|done|].
  - simpl. by destruct (Qlt_le_dec _ _).
  - intros t Ht.
    exact (any_signal_false _ _ _ r _ G (last_Some_elem_of _ _ Hr) (Hs t Ht)).
Qed.

(** The loop bodies read the selection through its last row only. *)
Lemma sell_pass_last cd1 cd2 self :
  list.last cd1 = list.last cd2 → sell_pass cd1 self = sell_pass cd2 self.
Proof.
  intros H. unfold sell_pass. apply for_each_ext. intros s t _.
  unfold sell_ticker. by rewrite H.
Qed.

Lemma buy_pass_last cd1 cd2 self :
  list.last cd1 = list.last cd2 → buy_pass cd1 self = buy_pass cd2 self.
Proof.
  intros H. unfold buy_pass.
  assert (∀ acc, for_each (collect_buy cd1 self) (tickers self) acc =
                 for_each (collect_buy cd2 self) (tickers self) acc) as ->.
  { intros acc. apply for_each_ext. intros s t _. unfold collect_buy. by rewrite H. }
  destruct (for_each _ _ _) as [bt|]; simpl; [|done].
  destruct (Qlt_le_dec _ _); [|done]. destruct (_ <? _)%nat; [|done].
  apply for_each_ext. intros s t _. unfold buy_ticker_body. by rewrite H.
Qed.

Lemma mark_and_record_last cd1 cd2 d self :
  list.last cd1 = list.last cd2 →
  mark_and_record cd1 d self = mark_and_record cd2 d self.
Proof.
  intros H. unfold mark_and_record.
  assert (for_each (asset_value_body cd1 self) (tickers self) 0 =
          for_each (asset_value_body cd2 self) (tickers self) 0) as ->; [|done].
  apply for_each_ext. intros s t _. unfold asset_value_body. by rewrite H.
Qed.

Lemma same_frame_trans s1 s2 s3 :
  same_frame s1 s2 → same_frame s2 s3 → same_frame s1 s3.
Proof.
  unfold same_frame. intros (? & ? & ? & ? & ?) (? & ? & ? & ? & ?).
  repeat split; congruence.
Qed.

Lemma trade_refl s : trade s s.
Proof. unfold trade, same_frame, same_history, keeps_keys. naive_solver. Qed.

Lemma trade_trans s1 s2 s3 : trade s1 s2 → trade s2 s3 → trade s1 s3.
Proof.
  unfold trade, same_frame, same_history, keeps_keys.
  intros ([? [? [? [? ?]]]] & [? ?] & K1) ([? [? [? [? ?]]]] & [? ?] & K2).
  repeat split; try congruence. intros t Ht. by apply K2, K1.
Qed.

Lemma sell_ticker_trade cd s t s' : sell_ticker cd s t = Some s' → trade s s'.
Proof.
  unfold sell_ticker. intros H.
  destruct (list.last cd) as [r|]; simpl in H; [|done].
  destruct (_ =? _)%Z; [|simplify_eq; apply trade_refl].
  destruct (pos s !! t) as [q|] eqn:E; simpl in H; [|done].
  destruct (negb _); simplify_eq; [|apply trade_refl].
  unfold trade, same_frame, same_history, keeps_keys.
  repeat split; simpl. intros u Hu.
  destruct (decide (t = u)) as [->|]; [by rewrite lookup_insert_eq|].
  by rewrite lookup_insert_ne.
Qed.

Lemma buy_ticker_body_trade cd a s t s' :
  buy_ticker_body cd a s t = Some s' → trade s s'.
Proof.
  unfold buy_ticker_body. intros H.
  destruct (list.last cd) as [r|]; simpl in H; [|done].
  destruct (Qeq_bool _ _); [done|].
  destruct (Qlt_le_dec _ _); simplify_eq; [|apply trade_refl].
  unfold trade, same_frame, same_history, keeps_keys.
  repeat split; simpl. intros u Hu.
  destruct (decide (t = u)) as [->|]; [by rewrite lookup_insert_eq|].
  by rewrite lookup_insert_ne.
Qed.

Lemma for_each_trade (f : backtest → string → option backtest) l s s' :
  (∀ s t s', f s t = Some s' → trade s s') →
  for_each f l s = Some s' → trade s s'.
Proof.
  intros Hf. apply (for_each_inv (trade s)); [|apply trade_refl].
  intros s1 x s2 _ H1 H2. eapply trade_trans; [done|by eapply Hf].
Qed.

Lemma sell_pass_trade cd s s' : sell_pass cd s = Some s' → trade s s'.
Proof. apply for_each_trade. intros ???. apply sell_ticker_trade. Qed.

Lemma buy_pass_trade cd s s' : buy_pass cd s = Some s' → trade s s'.
Proof.
  unfold buy_pass. intros H.
  destruct (for_each _ _ []) as [bt|]; simpl in H; [|done].
  destruct (Qlt_le_dec _ _); [|simplify_eq; apply trade_refl].
  destruct (_ <? _)%nat; [|simplify_eq; apply trade_refl].
  revert H. apply for_each_trade. intros ???. apply buy_ticker_body_trade.
Qed.

(** C10, step by step and for the whole period: on every state, the sell
    phase, the buy phase and the mark-to-market of a date do what they would
    do on a selection made of the last row bearing that date alone, so the
    earlier rows of a repeated date are ignored. *)
Theorem last_row_of_date_decides self d r :
  (∀ t, t ∈ tickers self → signal_col t ∈ signals self) →
  last_row self d = Some r →
  let curr_day := filter_date (pl_df self) d in
  (∀ s, signals s = signals self → tickers s = tickers self →
        sell_phase curr_day s = sell_phase [r] s ∧
        buy_phase curr_day s = buy_phase [r] s ∧
        mark_and_record curr_day d s = mark_and_record [r] d s) ∧
  day self d = day_on [r] self d.
Proof.
  intros Hs Hr curr_day. unfold last_row in Hr. fold curr_day in Hr.
  assert (∀ s, signals s = signals self → tickers s = tickers self →
            sell_phase curr_day s = sell_phase [r] s ∧
            buy_phase curr_day s = buy_phase [r] s ∧
            mark_and_record curr_day d s = mark_and_record [r] d s) as Hsteps.
  { intros s E1 E2.
    assert (∀ t, t ∈ tickers s → signal_col t ∈ signals s) as Hs'.
    { intros t Ht. rewrite E1. apply Hs. by rewrite <- E2. }
    split; [|split].
    - rewrite (sell_phase_pass curr_day r), (sell_phase_pass [r] r) by done.
      by apply sell_pass_last.
    - rewrite (buy_phase_pass curr_day r), (buy_phase_pass [r] r) by done.
      by apply buy_pass_last.
    - by apply mark_and_record_last. }
  split; [exact Hsteps|].
  unfold day. fold curr_day. unfold day_on.
  destruct (Hsteps self eq_refl eq_refl) as (-> & _ & _).
  destruct (sell_phase [r] self) as [s1|] eqn:E1; simpl; [|done].
  assert (trade self s1) as (F1 & _).
  { rewrite (sell_phase_pass [r] r) in E1 by done. by eapply sell_pass_trade. }
  destruct F1 as (_ & Ft & Fs & _).
  destruct (Hsteps s1 Fs Ft) as (_ & -> & _).
  destruct (buy_phase [r] s1) as [s2|] eqn:E2; simpl; [|done].
  assert (trade s1 s2) as (F2 & _).
  { rewrite (buy_phase_pass [r] r) in E2; [by eapply buy_pass_trade|done|].
    intros t Ht. rewrite Fs. apply Hs. by rewrite <- Ft. }
  destruct F2 as (_ & Ft2 & Fs2 & _).
  destruct (Hsteps s2) as (_ & _ & ->); congruence.
Qed.

Lemma Qsum_map_ext {A} (f g : A → Q) l :
  (∀ x, x ∈ l → f x = g x) → Qsum (map f l) = Qsum (map g l).
Proof.
  intros H. f_equal. apply map_ext_in. intros x Hx. apply H.
  by apply list_elem_of_In.
Qed.

Lemma bool_decide_elem_of_cons (u t : string) (l : list string) :
  bool_decide (u ∈ t :: l) = bool_decide (u = t) || bool_decide (u ∈ l).
Proof.
  destruct (decide (u = t)) as [->|Hne].
  - rewrite (bool_decide_eq_true_2 (t = t)) by done.
    apply bool_decide_eq_true_2, list_elem_of_here.
  - rewrite (bool_decide_eq_false_2 (u = t)) by done. simpl.
    apply bool_decide_ext. rewrite elem_of_cons.
    split; [by intros [?|?]|by right].
Qed.

Lemma inject_Z_of_nat_S n :
  inject_Z (Z.of_nat (S n)) == inject_Z (Z.of_nat n) + 1.
Proof. rewrite Nat2Z.inj_succ. unfold Z.succ. by rewrite inject_Z_plus. Qed.

(** *** One period, on the row that decides it *)

Section Period.
Variables (curr_day : list Row) (r : Row).
Hypothesis Hlast : list.last curr_day = Some r.

Lemma sell_ticker_spec s t :
  is_Some (pos s !! t) →
  sell_ticker curr_day s t =
    Some (if sells r s t
          then set_pos (λ p, <[t := 0]> p)
                 (set_account (λ a, update_cash a (proceeds r s t)) s)
          else s).
Proof.
  intros [q Hq]. unfold sell_ticker, sells, proceeds, holding.
  rewrite Hlast, Hq. simpl.
  destruct (_ =? _)%Z; [|done]. simpl. by destruct (Qeq_bool q 0).
Qed.

(** The sell loop over distinct tickers. *)
Lemma sell_loop l : ∀ s,
  NoDup l → (∀ t, t ∈ l → is_Some (pos s !! t)) →
  ∃ s', for_each (sell_ticker curr_day) l s = Some s' ∧
    (∀ t, pos s' !! t =
          if bool_decide (t ∈ l) && sells r s t then Some 0 else pos s !! t) ∧
    cash (account s') ==
      cash (account s) + Qsum (map (λ t, proceeds r s t) (List.filter (sells r s) l)) ∧
    asset_value (account s') = asset_value (account s).
Proof.
  induction l as [|t l IH]; intros s Hnd Hk.
  - exists s. simpl. split; [done|]. split; [done|]. split; [|done].
    unfold Qsum. simpl. ring.
  - apply list.NoDup_cons in Hnd as [Hnt Hnd].
    assert (t ∈ t :: l) as Hhere by apply list_elem_of_here.
    assert (∀ u, u ∈ l → u ∈ t :: l) as Hfurther
      by (intros; by apply list_elem_of_further).
    assert (∀ u, u ∈ l → u ≠ t) as Hfresh by (by intros u Hu ->).
    simpl. rewrite sell_ticker_spec by by apply Hk.
    simpl. set (s1 := if sells r s t then _ else s).
    assert (∀ u, u ≠ t → pos s1 !! u = pos s !! u) as Hother.
    { intros u Hu. subst s1. destruct (sells r s t); [|done].
      simpl. by rewrite lookup_insert_ne. }
    assert (slippage s1 = slippage s) as Hslip.
    { subst s1. by destruct (sells r s t). }
    assert (∀ u, u ∈ l → sells r s1 u = sells r s u) as Hsells.
    { intros u Hu. unfold sells, holding. by rewrite Hother by by apply Hfresh. }
    destruct (IH s1 Hnd) as (s' & Hrun & Hpos & Hcash & Hav).
    { intros u Hu. rewrite Hother by by apply Hfresh. by apply Hk, Hfurther. }
    exists s'. split; [done|]. split; [|split].
    + intros u. rewrite Hpos, bool_decide_elem_of_cons.
      destruct (decide (u = t)) as [->|Hne].
      * rewrite (bool_decide_eq_true_2 (t = t)) by done.
        rewrite (bool_decide_eq_false_2 (t ∈ l)) by done. simpl.
        subst s1. destruct (sells r s t); [|done]. simpl. by rewrite lookup_insert_eq.
      * rewrite (bool_decide_eq_false_2 (u = t)) by done. simpl.
        rewrite Hother by done.
        destruct (bool_decide (u ∈ l)) eqn:E; [|done]. simpl.
        rewrite Hsells; [done|]. by apply bool_decide_eq_true in E.
    + rewrite Hcash.
      assert (List.filter (sells r s1) l = List.filter (sells r s) l) as ->.
      { apply filter_ext_in. intros u Hu. apply Hsells. by apply list_elem_of_In. }
      rewrite (Qsum_map_ext (λ u, proceeds r s1 u) (λ u, proceeds r s u)).
      2:{ intros u Hu. apply list_elem_of_In, filter_In in Hu as [Hu _].
          apply list_elem_of_In in Hu. unfold proceeds, holding.
          by rewrite Hslip, Hother by by apply Hfresh. }
      subst s1. destruct (sells r s t); unfold Qsum; simpl; ring.
    + rewrite Hav. subst s1. by destruct (sells r s t).
Qed.

(** The period, once the gates are seen to add nothing: the sell loop, then
    the buy pass on the state it leaves, then the valuation. *)
Lemma day_on_passes self d s1 :
  (∀ t, t ∈ tickers self → signal_col t ∈ signals self) →
  sell_pass curr_day self = Some s1 →
  sell_phase curr_day self = Some s1 ∧
  day_on curr_day self d =
    (s2 ← buy_pass curr_day s1; mark_and_record curr_day d s2).
Proof.
  intros Hs Hrun.
  assert (sell_phase curr_day self = Some s1) as Hphase
    by (by rewrite (sell_phase_pass curr_day r)).
  split; [done|]. unfold day_on. rewrite Hphase. simpl.
  destruct (sell_pass_trade _ _ _ Hrun) as ((_ & Ft & Fs & _) & _).
  rewrite (buy_phase_pass curr_day r); [done..|].
  intros t Ht. rewrite Fs. apply Hs. by rewrite <- Ft.
Qed.

(** C1.  In every period the whole sell loop runs before the buy pass,
    which starts from the state the sells leave.  An instrument whose signal
    is -1 and whose holding is not zero is liquidated: its holding becomes 0
    and cash is credited with price * quantity * (1 - slippage).  Every other
    instrument, one with signal -1 and a zero holding among them, keeps its
    holding and credits nothing. *)
Theorem sells_then_buys self d :
  well_formed self →
  ∃ s1, sell_phase curr_day self = Some s1 ∧
    day_on curr_day self d =
      (s2 ← buy_pass curr_day s1; mark_and_record curr_day d s2) ∧
    (∀ t, t ∈ tickers self → sells r self t = true → pos s1 !! t = Some 0) ∧
    (∀ t, sells r self t = false → pos s1 !! t = pos self !! t) ∧
    cash (account s1) ==
      cash (account self) +
      Qsum (map (λ t, proceeds r self t) (List.filter (sells r self) (tickers self))).
Proof.
  intros [Hnd Hk Hs Hd].
  destruct (sell_loop (tickers self) self Hnd Hk)
    as (s1 & Hrun & Hpos & Hcash & _).
  destruct (day_on_passes self d s1 Hs Hrun) as [Hphase Hday].
  exists s1. split; [done|]. split; [done|]. split; [|split].
  - intros t Ht Hsell. rewrite Hpos, Hsell.
    by rewrite (bool_decide_eq_true_2 _ Ht).
  - intros t Hsell. rewrite Hpos, Hsell. by rewrite andb_false_r.
  - done.
Qed.

Lemma collect_buy_spec self acc t :
  is_Some (pos self !! t) →
  collect_buy curr_day self acc t =
    Some (if candidate r self t then acc ++ [t] else acc).
Proof.
  intros [q Hq]. unfold collect_buy, candidate, holding. rewrite Hlast, Hq.
  simpl. destruct (_ =? _)%Z; [|done]. simpl. by destruct (Qeq_bool q 0).
Qed.

(** The candidate loop collects, in order, the tickers with a buy signal
    and a zero holding. *)
Lemma collect_loop self l : ∀ acc,
  (∀ t, t ∈ l → is_Some (pos self !! t)) →
  for_each (collect_buy curr_day self) l acc =
    Some (acc ++ List.filter (candidate r self) l).
Proof.
  induction l as [|t l IH]; intros acc Hk; simpl.
  - by rewrite app_nil_r.
  - rewrite collect_buy_spec by apply Hk, list_elem_of_here. simpl.
    rewrite IH by (intros; by apply Hk, list_elem_of_further).
    destruct (candidate r self t); [|done]. by rewrite <- app_assoc.
Qed.

Lemma buy_ticker_body_spec a s t :
  ¬ price r t == 0 →
  buy_ticker_body curr_day a s t =
    Some (if lot_ok a r t
          then set_account (λ acc, update_cash acc (- a * (1 + slippage s)))
                 (set_pos (λ p, <[t := a / price r t]> p) s)
          else s).
Proof.
  intros Hp. unfold buy_ticker_body, lot_ok. rewrite Hlast. simpl.
  destruct (Qeq_bool (price r t) 0) eqn:Ez.
  { by apply Qeq_bool_eq in Ez. }
  by destruct (Qlt_le_dec 1 (a / price r t)).
Qed.

(** The buy loop at a fixed allocation [a]. *)
Lemma buy_loop a l : ∀ s,
  (∀ t, t ∈ l → ¬ price r t == 0) →
  ∃ s', for_each (buy_ticker_body curr_day a) l s = Some s' ∧
    (∀ t, pos s' !! t =
          if bool_decide (t ∈ l) && lot_ok a r t then Some (a / price r t)
          else pos s !! t) ∧
    cash (account s') ==
      cash (account s) -
      inject_Z (Z.of_nat (length (List.filter (lot_ok a r) l))) * (a * (1 + slippage s)).
Proof.
  induction l as [|t l IH]; intros s Hp.
  - exists s. simpl. split; [done|]. split; [done|]. ring.
  - simpl. rewrite buy_ticker_body_spec by apply Hp, list_elem_of_here.
    simpl. set (s1 := if lot_ok a r t then _ else s).
    assert (slippage s1 = slippage s) as Hslip.
    { subst s1. by destruct (lot_ok a r t). }
    assert (∀ u, pos s1 !! u =
                 if bool_decide (u = t) && lot_ok a r u then Some (a / price r u)
                 else pos s !! u) as Hpos1.
    { intros u. subst s1. destruct (decide (u = t)) as [->|Hne].
      - rewrite bool_decide_eq_true_2 by done. simpl.
        destruct (lot_ok a r t); [|done]. simpl. by rewrite lookup_insert_eq.
      - rewrite bool_decide_eq_false_2 by done. simpl.
        destruct (lot_ok a r t); [|done]. simpl. by rewrite lookup_insert_ne. }
    assert (cash (account s1) ==
            cash (account s) - (if lot_ok a r t then 1 else 0) * (a * (1 + slippage s)))
      as Hcash1.
    { subst s1. destruct (lot_ok a r t); simpl; ring. }
    destruct (IH s1) as (s' & Hrun & Hpos & Hcash).
    { intros u Hu. by apply Hp, list_elem_of_further. }
    exists s'. split; [done|]. split.
    + intros u. rewrite Hpos, Hpos1, bool_decide_elem_of_cons.
      by destruct (bool_decide (u = t)), (bool_decide (u ∈ l)), (lot_ok a r u).
    + rewrite Hcash, Hcash1, Hslip.
      destruct (lot_ok a r t); simpl length; [|ring].
      rewrite inject_Z_of_nat_S. ring.
Qed.

(** The buy pass never fails where the tickers are priced. *)
Lemma buy_pass_total s :
  (∀ t, t ∈ tickers s → is_Some (pos s !! t)) →
  (∀ t, t ∈ tickers s → ¬ price r t == 0) →
  ∃ s', buy_pass curr_day s = Some s'.
Proof.
  intros Hk Hp. unfold buy_pass. rewrite collect_loop by done. simpl.
  destruct (Qlt_le_dec _ _); [|by eexists].
  destruct (_ <? _)%nat; [|by eexists].
  edestruct buy_loop as (s' & Hrun & _); [|by eexists].
  intros t Ht. apply Hp. apply list_elem_of_In, filter_In in Ht as [Ht _].
  by apply list_elem_of_In.
Qed.

(** C2.  With a positive cash balance and at least one candidate, the buy
    pass fixes allocation = cash / |candidates| from the cash it starts with.
    A candidate whose allocation / price exceeds 1 gets the holding
    allocation / price; another keeps its zero holding; nothing else moves.
    Cash is debited allocation * (1 + slippage) once per candidate that
    passes the lot filter, whatever the other candidates do, and is not
    clamped: when slippage is positive and every candidate passes, cash ends
    below zero. *)
Theorem buy_pass_equal_weight self :
  well_formed self →
  let cands := List.filter (candidate r self) (tickers self) in
  let allocation := cash (account self) / inject_Z (Z.of_nat (length cands)) in
  0 < cash (account self) → cands ≠ [] →
  (∀ t, t ∈ cands → ¬ price r t == 0) →
  ∃ s', buy_pass curr_day self = Some s' ∧
    (∀ t, t ∈ cands → lot_ok allocation r t = true →
          pos s' !! t = Some (allocation / price r t)) ∧
    (∀ t, t ∈ cands → lot_ok allocation r t = false →
          pos s' !! t = pos self !! t ∧ holding s' t == 0) ∧
    (∀ t, t ∉ cands → pos s' !! t = pos self !! t) ∧
    cash (account s') ==
      cash (account self) -
      inject_Z (Z.of_nat (length (List.filter (lot_ok allocation r) cands))) *
        (allocation * (1 + slippage self)) ∧
    (List.filter (lot_ok allocation r) cands = cands → 0 < slippage self →
     cash (account s') < 0).
Proof.
  intros [Hnd Hk Hs Hd] cands allocation Hcash Hne Hp.
  destruct (buy_loop allocation cands self Hp) as (s' & Hrun & Hpos & Hc).
  exists s'. split.
  { unfold buy_pass. rewrite collect_loop by done. simpl.
    fold cands. destruct (Qlt_le_dec 0 (cash (account self))) as [_|Hle].
    2:{ exfalso. by eapply Qlt_not_le. }
    destruct cands; [done|]. simpl Nat.ltb. exact Hrun. }
  split; [|split; [|split; [|split]]].
  - intros t Ht Hl. by rewrite Hpos, Hl, (bool_decide_eq_true_2 _ Ht).
  - intros t Ht Hl.
    assert (pos s' !! t = pos self !! t) as E.
    { by rewrite Hpos, Hl, andb_false_r. }
    split; [done|]. unfold holding. rewrite E.
    apply list_elem_of_In, filter_In in Ht as [_ Hc'].
    unfold candidate in Hc'. apply andb_true_iff in Hc' as [_ Hq].
    by apply Qeq_bool_eq.
  - intros t Ht. by rewrite Hpos, (bool_decide_eq_false_2 _ Ht).
  - done.
  - intros Hall Hslip. rewrite Hc, Hall.
    set (n := inject_Z (Z.of_nat (length cands))).
    assert (0 < n) as Hn.
    { subst n. change 0 with (inject_Z 0). rewrite <- Zlt_Qlt.
      destruct cands; [done|]. simpl length. lia. }
    assert (cash (account self) - n * (allocation * (1 + slippage self)) ==
            - (cash (account self) * slippage self)) as ->.
    { assert (allocation == cash (account self) / n) as -> by reflexivity.
      clearbody n. field. intros E. rewrite E in Hn. by apply Qlt_irrefl in Hn. }
    assert (0 < cash (account self) * slippage self)
      as Hprod by (by apply Qmult_lt_0_compat).
    revert Hprod. generalize (cash (account self) * slippage self).
    clear. intros x Hx. lra.
Qed.

(** Mark-to-market: the asset value is the sum of quantity * price. *)
Lemma asset_value_body_spec s acc t q :
  pos s !! t = Some q →
  asset_value_body curr_day s acc t = Some (acc + q * price r t).
Proof. intros Hq. unfold asset_value_body. by rewrite Hq, Hlast. Qed.

Lemma asset_value_loop s l : ∀ acc,
  (∀ t, t ∈ l → is_Some (pos s !! t)) →
  ∃ v, for_each (asset_value_body curr_day s) l acc = Some v ∧
       v == acc + Qsum (map (λ t, holding s t * price r t) l).
Proof.
  induction l as [|t l IH]; intros acc Hk.
  - exists acc. split; [done|]. unfold Qsum. simpl. ring.
  - destruct (Hk t) as [q Hq]; [apply list_elem_of_here|].
    destruct (IH (acc + q * price r t)) as (v & Hv & Ev).
    { intros u Hu. apply Hk. by apply list_elem_of_further. }
    exists v. split.
    + simpl. rewrite (asset_value_body_spec s acc t q) by done. exact Hv.
    + rewrite Ev. unfold Qsum, holding. simpl. rewrite Hq. simpl. ring.
Qed.

Lemma mark_and_record_spec d s :
  (∀ t, t ∈ tickers s → is_Some (pos s !! t)) →
  ∃ v, mark_and_record curr_day d s =
         Some (set_account
                 (λ a, update_daily_account_value (update_asset_value a v) d) s) ∧
       v == Qsum (map (λ t, holding s t * price r t) (tickers s)).
Proof.
  intros Hk. destruct (asset_value_loop s (tickers s) 0 Hk) as (v & Hv & Ev).
  exists v. unfold mark_and_record. rewrite Hv. split; [done|].
  rewrite Ev. ring.
Qed.

End Period.

(** *** The ledger *)

Lemma mark_and_record_appends cd d s s' :
  mark_and_record cd d s = Some s' →
  same_frame s s' ∧ pos s' = pos s ∧
  daily_account_value_Date (account s') = daily_account_value_Date (account s) ++ [d] ∧
  daily_account_value_Account_Value (account s') =
    daily_account_value_Account_Value (account s) ++
    [cash (account s') + asset_value (account s')].
Proof.
  unfold mark_and_record. intros H.
  destruct (for_each _ _ _) as [v|]; simpl in H; [|done].
  simplify_eq. by repeat split.
Qed.

Lemma sell_phase_trade cd s s' : sell_phase cd s = Some s' → trade s s'.
Proof.
  unfold sell_phase. destruct (any_signal _ _ _).
  - apply sell_pass_trade.
  - intros; simplify_eq. apply trade_refl.
Qed.

Lemma buy_phase_trade cd s s' : buy_phase cd s = Some s' → trade s s'.
Proof.
  unfold buy_phase. destruct (any_signal _ _ _).
  - apply buy_pass_trade.
  - intros; simplify_eq. apply trade_refl.
Qed.

(** Whatever the period does, it appends one entry to each column of the
    history and leaves the frame alone. *)
Lemma day_appends s d s' :
  day s d = Some s' →
  same_frame s s' ∧ keeps_keys s s' ∧
  daily_account_value_Date (account s') = daily_account_value_Date (account s) ++ [d] ∧
  daily_account_value_Account_Value (account s') =
    daily_account_value_Account_Value (account s) ++
    [cash (account s') + asset_value (account s')].
Proof.
  unfold day, day_on. intros H.
  destruct (sell_phase _ s) as [s1|] eqn:E1; simpl in H; [|done].
  destruct (buy_phase _ s1) as [s2|] eqn:E2; simpl in H; [|done].
  apply sell_phase_trade in E1. apply buy_phase_trade in E2.
  destruct (trade_trans _ _ _ E1 E2) as (F & (HD & HV) & K).
  apply mark_and_record_appends in H as (F' & Hp & HD' & HV').
  rewrite HD', HV', HD, HV. split; [|split; [|done]].
  - by apply (same_frame_trans _ s2).
  - intros t Ht. rewrite Hp. by apply K.
Qed.

Lemma well_formed_step s s' :
  same_frame s s' → keeps_keys s s' → well_formed s → well_formed s'.
Proof.
  intros (E1 & E2 & E3 & E4 & E5) K [Hnd Hk Hs Hd].
  split; rewrite ?E1, ?E2, ?E3, ?E5; [done| |done|done].
  intros t Ht. by apply K, Hk.
Qed.

Lemma priced_step s s' : same_frame s s' → priced s → priced s'.
Proof. intros (E1 & E2 & _) H r t. rewrite E1, E2. apply H. Qed.

Lemma last_row_some self d :
  (∃ r, r ∈ pl_df self ∧ Date r = d) →
  ∃ r, last_row self d = Some r ∧ r ∈ pl_df self.
Proof.
  intros (r0 & Hin & Hd). unfold last_row.
  destruct (list.last (filter_date (pl_df self) d)) as [r|] eqn:E.
  - exists r. split; [done|]. apply last_Some_elem_of, list_elem_of_In in E.
    apply filter_In in E as [E _]. by apply list_elem_of_In.
  - apply last_None in E.
    assert (In r0 (filter_date (pl_df self) d)) as Hin'.
    { apply filter_In. split; [by apply list_elem_of_In|]. by apply Z.eqb_eq. }
    rewrite E in Hin'. destruct Hin'.
Qed.

(** A period never fails on a well-formed, priced backtest. *)
Lemma day_total self d :
  well_formed self → priced self → d ∈ dates self → ∃ s', day self d = Some s'.
Proof.
  intros Hwf Hp Hd.
  destruct (last_row_some self d) as (r & Hr & Hin); [by apply (wf_dates self)|].
  unfold last_row in Hr. unfold day.
  destruct (sell_loop _ r Hr (tickers self) self (wf_nodup _ Hwf) (wf_keys _ Hwf))
    as (s1 & Hrun & _).
  destruct (day_on_passes _ r Hr self d s1 (wf_signals _ Hwf) Hrun) as [Hs1 ->].
  apply sell_phase_trade in Hs1 as (F1 & _ & K1).
  pose proof (well_formed_step _ _ F1 K1 Hwf) as Hwf1.
  destruct (buy_pass_total _ r Hr s1) as (s2 & Hs2).
  { apply (wf_keys s1 Hwf1). }
  { intros t Ht. apply (priced_step _ _ F1 Hp); [|done].
    destruct F1 as (-> & _). done. }
  rewrite Hs2. simpl.
  apply buy_pass_trade in Hs2 as (F2 & _ & K2).
  pose proof (well_formed_step _ _ F2 K2 Hwf1) as Hwf2.
  destruct (mark_and_record_spec _ r Hr d s2 (wf_keys s2 Hwf2)) as (v & -> & _).
  by eexists.
Qed.

(** The date loop, from any state. *)
Lemma date_loop_appends l : ∀ s s',
  for_each day l s = Some s' →
  same_frame s s' ∧ keeps_keys s s' ∧
  daily_account_value_Date (account s') = daily_account_value_Date (account s) ++ l ∧
  daily_account_value_Account_Value (account s) `prefix_of`
    daily_account_value_Account_Value (account s') ∧
  length (daily_account_value_Account_Value (account s')) =
    (length (daily_account_value_Account_Value (account s)) + length l)%nat.
Proof.
  induction l as [|d l IH]; intros s s' H; simpl in H.
  - simplify_eq. rewrite app_nil_r.
    unfold same_frame, keeps_keys. repeat split; auto with lia.
  - destruct (day s d) as [s1|] eqn:E; simpl in H; [|done].
    apply day_appends in E as (F1 & K1 & D1 & V1).
    apply IH in H as (F2 & K2 & D2 & V2 & L2).
    split; [|split; [|split; [|split]]].
    + by apply (same_frame_trans _ s1).
    + intros t Ht. by apply K2, K1.
    + by rewrite D2, D1, <- app_assoc.
    + etrans; [|exact V2]. rewrite V1. by apply prefix_app_r.
    + rewrite L2, V1, length_app. simpl. lia.
Qed.

Lemma date_loop_total l : ∀ s,
  well_formed s → priced s → (∀ d, d ∈ l → d ∈ dates s) →
  ∃ s', for_each day l s = Some s'.
Proof.
  induction l as [|d l IH]; intros s Hwf Hp Hl; simpl; [by eexists|].
  destruct (day_total s d Hwf Hp) as (s1 & E); [apply Hl, list_elem_of_here|].
  rewrite E. simpl.
  pose proof (day_appends _ _ _ E) as (F & K & _).
  apply IH.
  - by eapply well_formed_step.
  - by eapply priced_step.
  - intros d' Hd'. destruct F as (_ & _ & _ & _ & ->).
    by apply Hl, list_elem_of_further.
Qed.

Lemma run_total self :
  well_formed self → priced self → ∃ s', run self = Some s'.
Proof.
  intros Hwf Hp. destruct (date_loop_total (dates self) self Hwf Hp) as (s & E); [done|].
  unfold run. rewrite E. by eexists.
Qed.

(** A run on a backtest as [__init__] builds it, when it returns. *)
Lemma run_fresh self s' :
  fresh self → run self = Some s' →
  ∃ s1, for_each day (dates self) self = Some s1 ∧
    s' = set_port_ret (returns_of (daily_account_value_Account_Value (account s1))) s1 ∧
    daily_account_value_Date (account s1) = Date <$> pl_df self ∧
    length (daily_account_value_Account_Value (account s1)) = length (pl_df self).
Proof.
  intros (HD & HV & Hdates) H. unfold run in H.
  destruct (for_each day (dates self) self) as [s1|] eqn:E; simpl in H; [|done].
  simplify_eq. exists s1. split; [done|]. split; [done|].
  apply date_loop_appends in E as (_ & _ & D & _ & L).
  rewrite D, L, HD, HV, Hdates. simpl. by rewrite length_fmap.
Qed.

(** C4.  Every period that completes appends exactly one date and one
    value, the value being cash + asset value as they stand when it is
    recorded; a run only extends the history it finds; on a backtest as
    [__init__] builds it, a run that returns leaves one entry per input row,
    dated in the order of the rows; and it does return when the frame is
    well formed and priced. *)
Theorem history_is_append_only self :
  fresh self →
  (∀ s d s2, day s d = Some s2 →
     daily_account_value_Date (account s2) =
       daily_account_value_Date (account s) ++ [d] ∧
     daily_account_value_Account_Value (account s2) =
       daily_account_value_Account_Value (account s) ++
       [cash (account s2) + asset_value (account s2)]) ∧
  (∀ s s2, run s = Some s2 →
     daily_account_value_Account_Value (account s) `prefix_of`
       daily_account_value_Account_Value (account s2)) ∧
  (∀ s', run self = Some s' →
     daily_account_value_Date (account s') = Date <$> pl_df self ∧
     length (daily_account_value_Account_Value (account s')) = length (pl_df self)) ∧
  (well_formed self → priced self → ∃ s', run self = Some s').
Proof.
  intros Hf. split; [|split; [|split]].
  - intros s d s2 H. by apply day_appends in H as (_ & _ & ? & ?).
  - intros s s2 H. unfold run in H.
    destruct (for_each day (dates s) s) as [s1|] eqn:E; simpl in H; [|done].
    simplify_eq. simpl. by apply date_loop_appends in E as (_ & _ & _ & ? & _).
  - intros s' H. by destruct (run_fresh self s' Hf H) as (s1 & _ & -> & D & L).
  - apply run_total.
Qed.

(** *** The return series *)

Lemma np_diff_length V : length (np_diff V) = (length V - 1)%nat.
Proof.
  induction V as [|x [|y V] IH]; [done..|].
  change (np_diff (x :: y :: V)) with ((y - x) :: np_diff (y :: V)).
  simpl length in *. lia.
Qed.

Lemma np_diff_lookup V : ∀ t vt vp,
  V !! S t = Some vt → V !! t = Some vp → np_diff V !! t = Some (vt - vp).
Proof.
  induction V as [|x [|y V] IH]; intros t vt vp H1 H0; [done..|].
  change (np_diff (x :: y :: V)) with ((y - x) :: np_diff (y :: V)).
  destruct t as [|t]; simpl in *; [by simplify_eq|].
  by apply IH.
Qed.

Lemma returns_of_spec V :
  V ≠ [] →
  length (returns_of V) = length V ∧
  returns_of V !! 0%nat = Some 0 ∧
  ∀ t vt vp, (1 ≤ t)%nat → V !! t = Some vt → V !! (t - 1)%nat = Some vp →
    returns_of V !! t = Some ((vt - vp) / vt).
Proof.
  intros HV. unfold returns_of. split; [|split]; [|done|].
  - simpl. rewrite length_zip_with, np_diff_length.
    destruct V; [done|]. simpl. lia.
  - intros [|t] vt vp Ht H1 H0; [lia|]. simpl in *.
    rewrite Nat.sub_0_r in H0. rewrite lookup_zip_with.
    rewrite (np_diff_lookup V t vt vp H1 H0). simpl.
    destruct V; [done|]. simpl in *. by rewrite H1.
Qed.


(** *** What [__init__] establishes *)

Lemma is_signal_col_signal_col t : is_signal_col (signal_col t) = true.
Proof.
  unfold is_signal_col, signal_col.
  assert (∃ n, String.index 0 "signal" (t +:+ "_signal") = Some n) as [n ->]; [|done].
  induction t as [|a t [n IH]]; [exists 1%nat; reflexivity|].
  change (String.index 0 "signal" (String a t +:+ "_signal")) with
    (if String.prefix "signal" (String a (t +:+ "_signal")) then Some 0%nat
     else match String.index 0 "signal" (t +:+ "_signal") with
          | Some k => Some (S k)
          | None => None
          end).
  rewrite IH. destruct (String.prefix _ _); eexists; reflexivity.
Qed.

Lemma position_keys tks t : t ∈ tks → is_Some (Account.position tks !! t).
Proof.
  induction tks as [|u tks IH]; intros H; [by apply elem_of_nil in H|].
  simpl. destruct (decide (u = t)) as [->|Hne].
  - by rewrite lookup_insert_eq.
  - rewrite lookup_insert_ne by done. apply IH.
    apply elem_of_cons in H as [->|]; done.
Qed.

Lemma init_well_formed c df tks slip dr m tf :
  NoDup tks → (∀ t, t ∈ tks → signal_col t ∈ columns df) →
  well_formed (Backtest.init c df tks slip dr m tf) ∧
  fresh (Backtest.init c df tks slip dr m tf).
Proof.
  intros Hnd Hc. split; [split; simpl|done].
  - done.
  - apply position_keys.
  - intros t Ht. apply list_elem_of_In, filter_In.
    split; [by apply list_elem_of_In, Hc|apply is_signal_col_signal_col].
  - intros d Hd. apply list_elem_of_fmap in Hd as (r & -> & Hr). by exists r.
Qed.

(** *** The statements on concrete inputs *)

Import Scenario.

Ltac split_members :=
  repeat match goal with
  | H : _ ∈ [] |- _ => by apply elem_of_nil in H
  | H : _ ∈ _ :: _ |- _ => apply elem_of_cons in H as [->|H]
  end.

Ltac scenario_wf :=
  apply init_well_formed;
  [ by compute_done
  | let t := fresh "t" in let Ht := fresh "Ht" in
    intros t Ht; split_members; compute_done ].

Ltac scenario_priced :=
  let r := fresh "r" in let t := fresh "t" in
  let Hr := fresh "Hr" in let Ht := fresh "Ht" in
  intros r t Hr Ht; simpl in Hr, Ht; split_members; by vm_compute.

Lemma bt_well_formed slip : well_formed (bt slip) ∧ fresh (bt slip).
Proof. scenario_wf. Qed.

Lemma bt_priced slip : priced (bt slip).
Proof. scenario_priced. Qed.

Lemma bt_repeated_well_formed : well_formed bt_repeated ∧ fresh bt_repeated.
Proof. scenario_wf. Qed.

Lemma bt_lot_well_formed : well_formed bt_lot ∧ fresh bt_lot.
Proof. scenario_wf. Qed.

Lemma holding_A_well_formed : well_formed holding_A.
Proof.
  apply (well_formed_step (bt 0)); [done| |apply bt_well_formed].
  intros t Ht. unfold holding_A. simpl.
  destruct (decide ("A" = t)) as [<-|]; [by rewrite lookup_insert_eq|].
  by rewrite lookup_insert_ne.
Qed.

(** The scenario of the specification: 100 units of A bought at 100 with
    all the cash, sold the next day at 110. *)
Example scenario_two_days :
  match run (bt 0) with
  | Some s =>
      cash (account s) == 11000 ∧ holding s "A" == 0 ∧
      asset_value (account s) == 0 ∧
      daily_account_value_Date (account s) = [1%Z; 2%Z] ∧
      Forall2 Qeq (daily_account_value_Account_Value (account s)) [10000; 11000] ∧
      option_Forall2 (Forall2 Qeq) (port_ret s) (Some [0; 1 # 11])
  | None => False
  end.
Proof.
  vm_compute. repeat split; repeat constructor; by vm_compute.
Qed.

(** With 1% slippage the same purchase costs 10100: cash ends at -100. *)
Example scenario_negative_cash :
  match day (bt (1 # 100)) 1%Z with
  | Some s => cash (account s) == -100 ∧ holding s "A" == 100
  | None => False
  end.
Proof. by vm_compute. Qed.

(** A sale funds a purchase of the same period: the sells come first. *)
Example scenario_sale_funds_purchase :
  match day_on [row 2 110 50 (-1) 1] holding_A 2%Z with
  | Some s => holding s "A" == 0 ∧ holding s "B" == 220 ∧ cash (account s) == 0
  | None => False
  end.
Proof. by vm_compute. Qed.

(** On the repeated date the early row (sell A at 1) is ignored: A is
    bought at 100, both times the date is processed. *)
Example scenario_repeated_date :
  match run bt_repeated with
  | Some s =>
      Forall2 Qeq (daily_account_value_Account_Value (account s))
        [10000; 10000; 11000]
  | None => False
  end.
Proof. vm_compute. repeat constructor; by vm_compute. Qed.

(** A fall of the account value from 10000 to 1000 is the return
    (1000 - 10000) / 1000 = -9: the current value divides. *)
Example scenario_crash :
  option_Forall2 (Forall2 Qeq) (run bt_crash ≫= port_ret) (Some [0; -9]).
Proof. vm_compute. repeat constructor; by vm_compute. Qed.

(** On an empty frame the padding alone makes a return series of length 1. *)
Example scenario_empty_frame :
  (port_ret <$> run bt_empty) = Some (Some [0]).
Proof. by vm_compute. Qed.

(** C1 on a holder of 100 A told to sell at 110. *)
Lemma sells_then_buys_witness :
  ∃ s1, sell_phase [day2] holding_A = Some s1 ∧
        pos s1 !! "A" = Some 0 ∧ pos s1 !! "B" = Some 0 ∧
        cash (account s1) == 11000.
Proof.
  destruct (sells_then_buys [day2] day2 eq_refl holding_A 2%Z holding_A_well_formed)
    as (s1 & H1 & _ & Hs & Hk & Hc).
  exists s1. split; [done|]. split; [|split].
  - apply Hs; [compute_done|by vm_compute].
  - rewrite Hk; by vm_compute.
  - rewrite Hc. by vm_compute.
Defined.

(** C2 on two candidates sharing 10000: A passes the lot filter, B does not. *)
Lemma buy_pass_equal_weight_witness :
  ∃ s', buy_pass [day_lot] bt_lot = Some s' ∧
        holding s' "A" == 50 ∧ holding s' "B" == 0 ∧
        cash (account s') == 4950.
Proof.
  destruct (buy_pass_equal_weight [day_lot] day_lot eq_refl bt_lot
              (proj1 bt_lot_well_formed))
    as (s' & H & Hok & Hno & _ & Hc & _).
  - by vm_compute.
  - by vm_compute.
  - intros t Ht. assert (t ∈ ["A"; "B"]) as Ht' by exact Ht.
    clear Ht. split_members; by vm_compute.
  - exists s'. split; [done|]. split; [|split].
    + unfold holding. rewrite (Hok "A"); [by vm_compute|compute_done|by vm_compute].
    + apply (Hno "B"); [compute_done|by vm_compute].
    + rewrite Hc. by vm_compute.
Defined.

(** C4 on the two-day scenario. *)
Lemma history_is_append_only_witness :
  ∃ s', run (bt 0) = Some s' ∧
        daily_account_value_Date (account s') = [1%Z; 2%Z] ∧
        length (daily_account_value_Account_Value (account s')) = 2%nat.
Proof.
  destruct (history_is_append_only (bt 0) (proj2 (bt_well_formed 0)))
    as (_ & _ & Hlen & Hrun).
  destruct (Hrun (proj1 (bt_well_formed 0)) (bt_priced 0)) as (s' & H).
  exists s'. split; [done|]. exact (Hlen s' H).
Defined.


(** C10 on the frame where day 1 appears twice. *)
Lemma last_row_of_date_decides_witness :
  day bt_repeated 1%Z = day_on [day1] bt_repeated 1%Z.
Proof.
  apply (last_row_of_date_decides bt_repeated 1%Z day1).
  - apply (wf_signals _ (proj1 bt_repeated_well_formed)).
  - reflexivity.
Defined.

End Simulation.

(** ** The performance engine *)

Section Engine.
Import Performance EngineVocabulary.
Local Open Scope R_scope.

Lemma cumprod_from_length a : ∀ acc, length (cumprod_from acc a) = length a.
Proof. induction a as [|x a IH]; intros acc; simpl; [done|]. by rewrite IH. Qed.

Lemma np_cumprod_length a : length (np_cumprod a) = length a.
Proof. apply cumprod_from_length. Qed.

Lemma maximum_accumulate_from_length a :
  ∀ acc, length (maximum_accumulate_from acc a) = length a.
Proof. induction a as [|x a IH]; intros acc; simpl; [done|]. by rewrite IH. Qed.

Lemma np_maximum_accumulate_length a :
  length (np_maximum_accumulate a) = length a.
Proof. destruct a; simpl; [done|]. by rewrite maximum_accumulate_from_length. Qed.

Lemma slice_from_zero {A} (a : list A) : slice_from 0 a = a.
Proof. unfold slice_from. simpl. rewrite Z.min_l by lia. done. Qed.


(** C8.  With [years = 0] the windowed slice is the whole return series, so
    the cumulative returns and the drawdown curve of that engine are
    computed on the complete series and have its length. *)
Theorem years_zero_is_full_series rets :
  let p := Performance.init rets 0 in
  portfolio_ret p = rets ∧ rolling p = rets ∧
  compute_cum_rets p = np_cumprod (map (λ x, x + 1) rets) ∧
  length (compute_cum_rets p) = length rets ∧
  compute_drawdown p =
    (let cum_ret := np_cumprod (map (λ x, 1 + x) rets) in
     zip_with (λ c m, fsub (fdiv (Num c) (Num m)) (Num 1))
       cum_ret (np_maximum_accumulate cum_ret)) ∧
  length (compute_drawdown p) = length rets.
Proof.
  intros p.
  assert (portfolio_ret p = rets) as E by apply slice_from_zero.
  split; [done|]. split; [done|]. split; [done|]. split; [|split].
  - unfold compute_cum_rets. by rewrite np_cumprod_length, length_map.
  - unfold compute_drawdown. by rewrite E.
  - unfold compute_drawdown. rewrite E.
    rewrite length_zip_with, np_maximum_accumulate_length, np_cumprod_length, length_map.
    lia.
Qed.

(** *** Rounding *)

Lemma rint_bounds (a b : Z) y :
  IZR a <= y <= IZR b → (a ≤ rint y ≤ b)%Z.
Proof.
  intros [Ha Hb]. unfold rint.
  pose proof (Zfloor_bound y) as [Hf1 Hf2].
  pose proof (Zfloor_lub a y Ha) as Hlo.
  assert (Zfloor y ≤ b)%Z as Hhi by (apply le_IZR; lra).
  assert (IZR (Zfloor y) < y → (Zfloor y + 1 ≤ b)%Z) as Hup.
  { intros Hlt. assert (Zfloor y < b)%Z by (apply lt_IZR; lra). lia. }
  destruct (total_order_T (y - IZR (Zfloor y)) (1 / 2)) as [[Hlt|Heq]|Hgt].
  - lia.
  - destruct (Z.even (Zfloor y)); [lia|]. split; [lia|]. apply Hup. lra.
  - split; [lia|]. apply Hup. lra.
Qed.

Lemma rint_IZR z : rint (IZR z) = z.
Proof. destruct (rint_bounds z z (IZR z)); [lra|lia]. Qed.

Lemma round2_bounds (a b : Z) y :
  IZR a <= y <= IZR b →
  ∃ x, round2 (Num y) = Num x ∧ IZR a <= x <= IZR b.
Proof.
  intros [Ha Hb]. eexists. split; [done|].
  destruct (rint_bounds (a * 100) (b * 100) (y * 100)) as [H1 H2].
  { rewrite !mult_IZR. lra. }
  apply IZR_le in H1, H2. rewrite mult_IZR in H1, H2. lra.
Qed.

(** *** Maximum drawdown *)

Lemma fdiv_num x y : y ≠ 0 → fdiv (Num x) (Num y) = Num (x / y).
Proof. intros H. unfold fdiv. by destruct (Req_dec_T y 0). Qed.

Lemma Rdiv_unit d m : 0 < m → 0 <= d <= m → 0 <= d / m <= 1.
Proof.
  intros Hm [H0 H1]. pose proof (Rinv_0_lt_compat m Hm) as Hi.
  unfold Rdiv. split; [nra|].
  apply (Rmult_le_reg_r m); [done|].
  rewrite Rmult_assoc, Rinv_l by lra. lra.
Qed.

Lemma ratios_from_unit C : ∀ m,
  0 < m → Forall (λ c, 0 <= c) C → Forall unit_ratio (ratios_from m C).
Proof.
  induction C as [|c C IH]; intros m Hm HC; [constructor|].
  apply list.Forall_cons in HC as [Hc HC].
  assert (m <= Rmax m c ∧ c <= Rmax m c) as [H1 H2]
    by (split; [apply Rmax_l|apply Rmax_r]).
  change (ratios_from m (c :: C)) with
    (fdiv (Num (Rmax m c - c)) (Num (Rmax m c)) :: ratios_from (Rmax m c) C).
  constructor; [|apply IH; [lra|done]].
  rewrite fdiv_num by lra. eexists. split; [done|].
  apply Rdiv_unit; lra.
Qed.

Lemma ratios_from_sorted C : ∀ m,
  0 < m → Sorted Rle (m :: C) → Forall (λ v, v = Num 0) (ratios_from m C).
Proof.
  induction C as [|c C IH]; intros m Hm HS; [constructor|].
  apply Sorted_inv in HS as [HS Hd]. apply HdRel_inv in Hd.
  change (ratios_from m (c :: C)) with
    (fdiv (Num (Rmax m c - c)) (Num (Rmax m c)) :: ratios_from (Rmax m c) C).
  rewrite (Rmax_right m c) by done.
  constructor; [|apply IH; [lra|done]].
  rewrite fdiv_num by lra. f_equal. unfold Rdiv, Rminus. rewrite Rplus_opp_r. lra.
Qed.

Lemma foldl_fmax_unit l : ∀ v,
  unit_ratio v → Forall unit_ratio l → unit_ratio (foldl fmax v l).
Proof.
  induction l as [|u l IH]; intros v Hv Hl; [done|].
  apply list.Forall_cons in Hl as [Hu Hl]. simpl. apply IH; [|done].
  destruct Hv as (x & -> & Hx), Hu as (y & -> & Hy).
  eexists. split; [done|]. unfold Rmax. destruct (Rle_dec x y); lra.
Qed.

Lemma foldl_fmax_zero l :
  Forall (λ v, v = Num 0) l → foldl fmax (Num 0) l = Num 0.
Proof.
  induction l as [|u l IH]; intros Hl; [done|].
  apply list.Forall_cons in Hl as [-> Hl]. simpl.
  rewrite (Rmax_left 0 0) by lra. by apply IH.
Qed.

(** The ratios of a curve that starts positive. *)
Lemma drawdown_ratios_curve a c0 rest :
  np_cumprod (map (λ x, 1 + x) a) = c0 :: rest → 0 < c0 →
  drawdown_ratios a = Num 0 :: ratios_from c0 rest.
Proof.
  intros E H0. unfold drawdown_ratios. rewrite E.
  cbn [np_maximum_accumulate zip_with].
  rewrite fdiv_num by lra. fold (ratios_from c0 rest).
  do 2 f_equal. unfold Rdiv, Rminus. rewrite Rplus_opp_r. lra.
Qed.

(** C9, amended.  On a window whose cumulative return curve starts above
    zero and never falls below zero (no period loses more than 100%),
    [compute_max_dd] returns a number between 0 and 100, and exactly 0 when
    the curve never decreases. *)
Theorem max_dd_percent_range p c0 rest :
  np_cumprod (map (λ x, 1 + x) (portfolio_ret p)) = c0 :: rest →
  0 < c0 → Forall (λ c, 0 <= c) rest →
  ∃ x, compute_max_dd p = Some (Num x) ∧ 0 <= x <= 100 ∧
       (Sorted Rle (c0 :: rest) → x = 0).
Proof.
  intros E H0 Hrest. unfold compute_max_dd.
  rewrite (drawdown_ratios_curve _ c0 rest E H0). simpl.
  destruct (foldl_fmax_unit (ratios_from c0 rest) (Num 0)) as (y & Ey & Hy).
  { exists 0. split; [done|lra]. }
  { by apply ratios_from_unit. }
  rewrite Ey. simpl fmul.
  destruct (round2_bounds 0 100 (y * 100)) as (x & Ex & Hx); [lra|].
  exists x. split; [by rewrite Ex|]. split; [done|].
  intros HS.
  rewrite foldl_fmax_zero in Ey by (by apply ratios_from_sorted).
  injection Ey as <-. simpl in Ex. injection Ex as <-.
  replace (0 * 100 * 100) with (IZR 0) by lra. rewrite rint_IZR. lra.
Qed.

(** C9 on a window that only gains. *)
Lemma max_dd_percent_range_witness :
  ∃ x, compute_max_dd (Performance.init [0; 1] 1) = Some (Num x) ∧ 0 <= x <= 100.
Proof.
  destruct (max_dd_percent_range (Performance.init [0; 1] 1)
              (1 * (1 + 0)) [1 * (1 + 0) * (1 + 1)])
    as (x & H & Hx & _).
  - reflexivity.
  - lra.
  - constructor; [lra|constructor].
  - by exists x.
Defined.

(** C9 as stated fails: a fall of the account value from 10000 to 1000 is
    the return (1000 - 10000) / 1000 = -9, and on the window [0; -9] the
    maximum drawdown comes out as 900 percent. *)
Lemma max_dd_above_100 :
  let p := Performance.init [0; -9] 1 in
  portfolio_ret p ≠ [] ∧ compute_max_dd p = Some (Num 900) ∧ ¬ (900 <= 100).
Proof.
  intros p. split; [done|]. split; [|lra].
  unfold compute_max_dd.
  change (portfolio_ret p) with [0; -9].
  unfold drawdown_ratios, np_cumprod.
  cbn [map cumprod_from np_maximum_accumulate maximum_accumulate_from zip_with].
  replace (1 * (1 + 0)) with 1 by lra.
  replace (1 * (1 + -9)) with (-8) by lra.
  rewrite (Rmax_left 1 (-8)) by lra.
  rewrite !fdiv_num by lra.
  cbn [np_max foldl fmax mbind option_bind].
  replace ((1 - 1) / 1) with 0 by lra.
  replace ((1 - -8) / 1) with 9 by lra.
  rewrite (Rmax_right 0 9) by lra.
  cbn [fmul round2]. do 2 f_equal.
  replace (9 * 100 * 100) with (IZR 90000) by lra.
  rewrite rint_IZR. lra.
Qed.

(** A window that loses everything at once has the curve [0] and the
    ratio 0/0: the maximum drawdown is NaN. *)
Example max_dd_total_loss :
  compute_max_dd (Performance.init [-1] 1) = Some NaN.
Proof.
  unfold compute_max_dd. change (portfolio_ret _) with [-1].
  unfold drawdown_ratios, np_cumprod.
  cbn [map cumprod_from np_maximum_accumulate zip_with np_max foldl mbind option_bind].
  replace (1 * (1 + -1)) with 0 by lra. replace (0 - 0) with 0 by lra.
  unfold fdiv. destruct (Req_dec_T 0 0) as [_|]; [|done].
  destruct (total_order_T 0 0) as [[?|_]|?]; [lra|done|lra].
Qed.

(** *** The rolling series *)

Lemma lookup_map {A B} (f : A → B) l i : map f l !! i = f <$> l !! i.
Proof. revert i. induction l as [|x l IH]; intros [|i]; simpl; auto. Qed.

Lemma lookup_repeat {A} (x : A) n i : (i < n)%nat → repeat x n !! i = Some x.
Proof.
  revert i. induction n as [|n IH]; intros i Hi; [lia|].
  destruct i; simpl; [done|]. apply IH. lia.
Qed.

Lemma np_convolve_valid_ge a v :
  v ≠ [] → (length v ≤ length a)%nat →
  np_convolve_valid a v =
    Some (map (λ i, dot (firstn (length v) (skipn i a)) (rev v))
              (seq 0 (length a - length v + 1))).
Proof.
  intros Hv Hle. unfold np_convolve_valid.
  destruct a as [|x a]; [destruct v; simpl in *; [done|lia]|].
  destruct v as [|y v]; [done|].
  by rewrite (proj2 (Nat.ltb_ge _ _) Hle).
Qed.

Lemma np_convolve_valid_lt a v :
  a ≠ [] → (length a < length v)%nat →
  np_convolve_valid a v =
    Some (map (λ i, dot (firstn (length a) (skipn i v)) (rev a))
              (seq 0 (length v - length a + 1))).
Proof.
  intros Ha Hlt. unfold np_convolve_valid.
  destruct a as [|x a]; [done|].
  destruct v as [|y v]; [simpl in *; lia|].
  by rewrite (proj2 (Nat.ltb_lt _ _) Hlt).
Qed.

Lemma rolling_std_length w a : length (rolling_std w a) = length a.
Proof. unfold rolling_std. by rewrite length_map, length_seq. Qed.

Lemma rolling_std_lookup w a i :
  (i < length a)%nat →
  rolling_std w a !! i =
    Some (if (i + 1 <? w)%nat then NaN else std_ddof 1 (window_at w i a)).
Proof.
  intros Hi. unfold rolling_std. rewrite lookup_map, lookup_seq_lt by done.
  done.
Qed.

(** The engine of a positive number of years: its window is [years * 252]
    periods long. *)
Lemma timeframe_positive rets yrs :
  (1 ≤ yrs)%Z →
  let p := Performance.init rets yrs in
  let w := Z.to_nat (timeframe p) in
  (252 ≤ w)%nat ∧ timeframe p = Z.of_nat w ∧ rolling p = rets ∧
  trade_days p = 252%Z.
Proof. intros H p w. subst w. simpl. split; [lia|]. split; [lia|done]. Qed.

Lemma rolling_mean_spec rets yrs :
  (1 ≤ yrs)%Z →
  let p := Performance.init rets yrs in
  let w := Z.to_nat (timeframe p) in
  (w ≤ length rets)%nat →
  ∃ rm, rolling_mean p = Some rm ∧ length rm = length rets ∧
    (∀ i, (i < w - 1)%nat → rm !! i = Some 0) ∧
    (∀ i, (w - 1 ≤ i < length rets)%nat →
       rm !! i = Some (dot (window_at w i rets)
                           (rev (repeat (1 / IZR (timeframe p)) w)))).
Proof.
  intros Hy p w Hw.
  destruct (timeframe_positive rets yrs Hy) as (Hw252 & Htf & Hroll & _).
  fold p in Hw252, Htf, Hroll. fold w in Hw252, Htf.
  unfold rolling_mean, np_zeros, np_ones_over.
  rewrite (proj2 (Z.ltb_ge (timeframe p - 1) 0)) by lia.
  rewrite (proj2 (Z.ltb_ge (timeframe p) 0)) by lia.
  cbn [mbind option_bind]. fold w.
  set (kernel := repeat (1 / IZR (timeframe p)) w).
  assert (length kernel = w) as Hk by apply repeat_length.
  rewrite np_convolve_valid_ge.
  2:{ intros E. rewrite E in Hk. simpl in Hk. lia. }
  2:{ rewrite Hk, Hroll. done. }
  cbn [mbind option_bind]. rewrite Hk, Hroll.
  replace (Z.to_nat (timeframe p - 1)) with (w - 1)%nat by lia.
  eexists. split; [done|]. split; [|split].
  - rewrite length_app, repeat_length, length_map, length_seq. lia.
  - intros i Hi. rewrite lookup_app_l by (rewrite repeat_length; lia).
    by apply lookup_repeat.
  - intros i Hi. rewrite lookup_app_r by (rewrite repeat_length; lia).
    rewrite repeat_length, lookup_map, lookup_seq_lt by lia. simpl.
    unfold window_at. do 4 f_equal. lia.
Qed.

Lemma broadcast2_same {A B C} (f : A → B → C) a b :
  length a = length b → broadcast2 f a b = Some (zip_with f a b).
Proof. intros H. unfold broadcast2. by rewrite H, Nat.eqb_refl. Qed.

(** The rolling Sharpe series, position by position. *)
Lemma rolling_sharpe_spec rets yrs :
  (1 ≤ yrs)%Z →
  let p := Performance.init rets yrs in
  let w := Z.to_nat (timeframe p) in
  (w ≤ length rets)%nat →
  ∃ rm out, rolling_mean p = Some rm ∧ compute_rolling_sharpe p = Some out ∧
    length rm = length rets ∧ length out = length rets ∧
    (∀ i, (i < w - 1)%nat → rm !! i = Some 0) ∧
    (∀ i, (i < length rets)%nat →
       ∃ m, rm !! i = Some m ∧
         out !! i = Some (round2 (fmul
           (fdiv (Num m)
                 (if (i + 1 <? w)%nat then NaN else std_ddof 1 (window_at w i rets)))
           (Num (sqrt 252))))).
Proof.
  intros Hy p w Hw.
  destruct (rolling_mean_spec rets yrs Hy Hw) as (rm & Hrm & Hlen & Hpad & Hval).
  fold p in Hrm, Hpad, Hval. fold w in Hpad, Hval.
  exists rm. unfold compute_rolling_sharpe. rewrite Hrm. cbn [mbind option_bind].
  unfold rolling_std_of. fold w.
  change (rolling p) with rets.
  rewrite broadcast2_same by (by rewrite length_fmap, rolling_std_length).
  cbn [mbind option_bind]. eexists. split; [done|]. split; [done|].
  split; [done|]. split; [|split; [done|]].
  - rewrite length_map, length_zip_with, length_fmap, rolling_std_length. lia.
  - intros i Hi.
    destruct (lookup_lt_is_Some_2 rm i) as [m Hm]; [lia|].
    exists m. split; [done|].
    rewrite lookup_map, lookup_zip_with, list_lookup_fmap, Hm.
    rewrite rolling_std_lookup by done. done.
Qed.

(** *** Standard deviations *)

Lemma np_sum_nonneg l : Forall (λ x, 0 <= x) l → 0 <= np_sum l.
Proof.
  unfold np_sum. induction 1 as [|x l Hx Hl IH]; simpl; lra.
Qed.

Lemma sum_sq_dev_nonneg a : 0 <= sum_sq_dev a.
Proof.
  unfold sum_sq_dev. apply np_sum_nonneg, Forall_forall.
  intros y Hy. apply in_map_iff in Hy as (x & <- & _). apply Rle_0_sqr.
Qed.

Lemma np_sum_repeat x n : np_sum (repeat x n) = INR n * x.
Proof.
  induction n as [|n IH]; [unfold np_sum; simpl; lra|].
  rewrite S_INR. change (np_sum (repeat x (S n))) with (x + np_sum (repeat x n)).
  rewrite IH. lra.
Qed.

Lemma sum_sq_dev_zeros n : sum_sq_dev (repeat 0 n) = 0.
Proof.
  unfold sum_sq_dev. rewrite map_repeat, !np_sum_repeat. unfold Rdiv. nra.
Qed.

Lemma dot_zeros n : ∀ l, dot (repeat 0 n) l = 0.
Proof.
  unfold dot. induction n as [|n IH]; intros [|y l]; simpl; try lra.
  rewrite IH. lra.
Qed.

(** With at least two values the sample deviation is a number. *)
Lemma std_ddof_1_number a :
  (2 ≤ length a)%nat →
  std_ddof 1 a = Num (sqrt (sum_sq_dev a / (INR (length a) - 1))).
Proof.
  intros Hn. unfold std_ddof.
  assert (2 <= INR (length a)) as Hn' by (apply (le_INR 2); lia).
  pose proof (sum_sq_dev_nonneg a) as Hss.
  change (INR 1) with 1. rewrite fdiv_num by lra. unfold fsqrt.
  destruct (Rlt_dec _ 0) as [Hneg|]; [|done].
  exfalso. apply (Rlt_not_le _ _ Hneg).
  unfold Rdiv. apply Rmult_le_pos; [done|].
  left. apply Rinv_0_lt_compat. lra.
Qed.

(** The population deviation of a non-empty array is a number. *)
Lemma ndarray_std_number a :
  (1 ≤ length a)%nat →
  ndarray_std a = Num (sqrt (sum_sq_dev a / INR (length a))).
Proof.
  intros Hn. unfold ndarray_std, std_ddof.
  assert (1 <= INR (length a)) as Hn' by (apply (le_INR 1); lia).
  pose proof (sum_sq_dev_nonneg a) as Hss.
  change (INR 0) with 0. rewrite Rminus_0_r, fdiv_num by lra. unfold fsqrt.
  destruct (Rlt_dec _ 0) as [Hneg|]; [|done].
  exfalso. apply (Rlt_not_le _ _ Hneg).
  unfold Rdiv. apply Rmult_le_pos; [done|].
  left. apply Rinv_0_lt_compat. lra.
Qed.

Lemma window_at_length w i (a : list R) :
  (w - 1 ≤ i < length a)%nat → length (window_at w i a) = w.
Proof.
  intros Hi. unfold window_at. rewrite length_firstn, length_skipn. lia.
Qed.

(** A Sharpe value is a number exactly when its denominator is not zero. *)
Lemma sharpe_value_number m s q :
  0 < q → is_number (round2 (fmul (fdiv (Num m) (Num s)) (Num q))) ↔ s ≠ 0.
Proof.
  intros Hq. split.
  - intros [x Hx] ->. unfold fdiv in Hx.
    destruct (Req_dec_T 0 0) as [_|]; [|done].
    unfold fmul in Hx.
    destruct (total_order_T m 0) as [[?|?]|?]; try done;
      destruct (total_order_T q 0) as [[?|?]|?]; done || lra.
  - intros Hs. rewrite fdiv_num by done. by eexists.
Qed.

(** C7, amended.  For an engine of at least one year over a series at least
    as long as its window, the rolling mean is zero-filled and the rolling
    deviation is NaN at the first window_length - 1 positions, so the rolling
    Sharpe is NaN there; from the first full window on, the rolling deviation
    is a number, and the rolling Sharpe is a number exactly where that
    deviation is not zero. *)
Theorem rolling_sharpe_padding rets yrs :
  (1 ≤ yrs)%Z →
  let p := Performance.init rets yrs in
  let w := Z.to_nat (timeframe p) in
  (w ≤ length rets)%nat →
  ∃ rm out, rolling_mean p = Some rm ∧ compute_rolling_sharpe p = Some out ∧
    length rm = length rets ∧ length out = length rets ∧
    (∀ i, (i < w - 1)%nat →
       rm !! i = Some 0 ∧ rolling_std_of p (rolling p) !! i = Some NaN ∧
       out !! i = Some NaN) ∧
    (∀ i, (w - 1 ≤ i < length rets)%nat →
       ∃ s v, rolling_std_of p (rolling p) !! i = Some (Num s) ∧
              out !! i = Some v ∧ (is_number v ↔ s ≠ 0)).
Proof.
  intros Hy p w Hw.
  destruct (rolling_sharpe_spec rets yrs Hy Hw)
    as (rm & out & Hrm & Hout & Lrm & Lout & Hpad & Hval).
  fold p in Hrm, Hout, Hval. fold w in Hpad, Hval.
  destruct (timeframe_positive rets yrs Hy) as (Hw252 & _).
  fold p in Hw252. fold w in Hw252.
  exists rm, out. do 4 (split; [done|]). split.
  - intros i Hi. destruct (Hval i) as (m & Hm & Ho); [lia|].
    unfold rolling_std_of. fold w. change (rolling p) with rets.
    rewrite rolling_std_lookup by lia.
    rewrite (proj2 (Nat.ltb_lt (i + 1) w)) in Ho |- * by lia.
    by rewrite Hpad.
  - intros i Hi. destruct (Hval i) as (m & Hm & Ho); [lia|].
    unfold rolling_std_of. fold w. change (rolling p) with rets.
    rewrite rolling_std_lookup by lia.
    rewrite (proj2 (Nat.ltb_ge (i + 1) w)) in Ho |- * by lia.
    rewrite std_ddof_1_number in Ho |- * by (rewrite window_at_length; lia).
    eexists _, _. split; [done|]. split; [exact Ho|].
    apply sharpe_value_number, sqrt_lt_R0. lra.
Qed.

(** C7 on one year of zero returns. *)
Lemma rolling_sharpe_padding_witness :
  ∃ out, compute_rolling_sharpe (Performance.init (repeat 0 252) 1) = Some out ∧
         length out = 252%nat ∧ out !! 0%nat = Some NaN.
Proof.
  destruct (rolling_sharpe_padding (repeat 0 252) 1)
    as (rm & out & _ & Hout & _ & Lout & Hpad & _).
  - lia.
  - rewrite repeat_length. apply Nat.eq_le_incl. reflexivity.
  - exists out. split; [done|]. split.
    + by rewrite Lout, repeat_length.
    + apply (Hpad 0%nat). change (0 < 252 - 1)%nat. lia.
Defined.

(** C7 as stated fails on a window without variance: on 252 zero returns,
    which is what a year without a trade produces, the first full window has
    mean 0 and deviation 0, and the rolling Sharpe there is NaN. *)
Lemma rolling_sharpe_full_window_nan :
  let p := Performance.init (repeat 0 252) 1 in
  Z.to_nat (timeframe p) = 252%nat ∧ length (rolling p) = 252%nat ∧
  ∃ out, compute_rolling_sharpe p = Some out ∧
         out !! 251%nat = Some NaN ∧ ¬ is_number NaN.
Proof.
  intros p. split; [done|]. split; [apply repeat_length|].
  assert (Z.to_nat (timeframe p) ≤ length (repeat 0 252))%nat as Hw
    by by rewrite repeat_length.
  destruct (rolling_sharpe_spec (repeat 0 252) 1 ltac:(lia) Hw)
    as (rm & out & Hrm & Hout & _ & _ & _ & Hval).
  destruct (rolling_mean_spec (repeat 0 252) 1 ltac:(lia) Hw)
    as (rm' & Hrm' & _ & _ & Hmean).
  fold p in Hrm, Hrm', Hout.
  assert (rm' = rm) as -> by congruence.
  exists out. split; [done|]. split; [|by intros [x Hx]].
  destruct (Hval 251%nat) as (m & Hm & ->); [rewrite repeat_length; lia|].
  rewrite Hmean in Hm by (rewrite repeat_length; change (252 - 1 ≤ 251 < 252)%nat; lia).
  assert (window_at 252 251 (repeat 0 252) = repeat 0 252) as Ewin.
  { unfold window_at. change (251 + 1 - 252)%nat with 0%nat.
    apply firstn_all2. by rewrite repeat_length. }
  change (Z.to_nat (timeframe (Performance.init (repeat 0 252) 1))) with 252%nat in *.
  rewrite Ewin in Hm |- *. rewrite dot_zeros in Hm. injection Hm as <-.
  change (251 + 1 <? 252)%nat with false. cbv iota.
  rewrite std_ddof_1_number by (rewrite repeat_length; lia).
  rewrite sum_sq_dev_zeros. unfold Rdiv at 1. rewrite Rmult_0_l, sqrt_0.
  unfold fdiv. destruct (Req_dec_T 0 0) as [_|]; [|done].
  destruct (total_order_T 0 0) as [[?|_]|?]; [lra|done|lra].
Qed.

(** *** Population against sample deviation *)







End Engine.

(** ** The orchestration *)

Section Orchestrating.
Import Account Backtest Performance Orchestration Scenario.
Local Open Scope R_scope.

Lemma broadcast2_mismatch {A B C} (f : A → B → C) a b :
  length a ≠ length b → (2 ≤ length a)%nat → (2 ≤ length b)%nat →
  broadcast2 f a b = None.
Proof.
  intros Hne Ha Hb. unfold broadcast2.
  rewrite (proj2 (Nat.eqb_neq _ _) Hne).
  destruct a as [|x [|x' a]]; simpl in Ha; try lia.
  destruct b as [|y [|y' b]]; simpl in Hb; try lia. done.
Qed.

(** On a series shorter than the window numpy swaps the arguments of the
    convolution, and the padded mean comes out longer than the series. *)
Lemma rolling_mean_short rets yrs :
  (1 ≤ yrs)%Z →
  let p := Performance.init rets yrs in
  let w := Z.to_nat (Performance.timeframe p) in
  (1 ≤ length rets < w)%nat →
  ∃ rm, rolling_mean p = Some rm ∧
        length rm = (w - 1 + (w - length rets + 1))%nat.
Proof.
  intros Hy p w Hn.
  destruct (timeframe_positive rets yrs Hy) as (Hw252 & Htf & Hroll & _).
  fold p in Hw252, Htf, Hroll. fold w in Hw252, Htf.
  unfold rolling_mean, np_zeros, np_ones_over.
  rewrite (proj2 (Z.ltb_ge (Performance.timeframe p - 1) 0)) by lia.
  rewrite (proj2 (Z.ltb_ge (Performance.timeframe p) 0)) by lia.
  cbn [mbind option_bind]. fold w.
  set (kernel := repeat (1 / IZR (Performance.timeframe p)) w).
  assert (length kernel = w) as Hk by apply repeat_length.
  rewrite np_convolve_valid_lt.
  2:{ rewrite Hroll. intros E. rewrite E in Hn. simpl in Hn. lia. }
  2:{ rewrite Hk, Hroll. lia. }
  cbn [mbind option_bind]. rewrite Hk, Hroll.
  eexists. split; [done|].
  rewrite length_app, repeat_length, length_map, length_seq. lia.
Qed.

(** There the division of the mean by the rolling deviation raises. *)
Lemma rolling_sharpe_short rets yrs :
  (1 ≤ yrs)%Z →
  (2 ≤ length rets < Z.to_nat (yrs * 252))%nat →
  compute_rolling_sharpe (Performance.init rets yrs) = None.
Proof.
  intros Hy Hn.
  destruct (rolling_mean_short rets yrs Hy) as (rm & Hrm & Lrm);
    [simpl; lia|].
  simpl in Lrm. unfold compute_rolling_sharpe. rewrite Hrm.
  cbn [mbind option_bind]. rewrite broadcast2_mismatch; [done|..].
  - rewrite length_fmap. unfold rolling_std_of. rewrite rolling_std_length.
    simpl. lia.
  - rewrite length_fmap. lia.
  - unfold rolling_std_of. rewrite rolling_std_length. simpl. lia.
Qed.

Lemma orchestration_short s rets tf m ms :
  port_ret s = Some rets → Backtest.timeframe s = [tf] → metrics s = m :: ms →
  guard s tf = true → (1 ≤ tf)%Z →
  (2 ≤ length rets < Z.to_nat (tf * 252))%nat →
  generate_performance s = None ∧ generate_report s = None.
Proof.
  intros Hp Ht Hm Hg Hy Hn.
  assert (compute_rolling_sharpe (Performance.init (Q2R <$> rets) tf) = None) as Hs.
  { apply rolling_sharpe_short; [done|]. by rewrite length_fmap. }
  split.
  - unfold generate_performance. rewrite Hp. cbn [mbind option_bind].
    rewrite Ht. cbn [for_each]. rewrite Hg, Hs. done.
  - unfold generate_report. rewrite Hm, Ht. cbn [for_each].
    rewrite Hg, Hp. cbn [mbind option_bind]. unfold report_one.
    rewrite Hs. by destruct (compute_annualized_rets _).
Qed.

(** C6 on the code: with 100 rows and a timeframe of one year the guard
    [len(self.pl_df) > tf] holds, although the return series has 100
    elements and the window 252; the windowed metrics are invoked, and the
    rolling Sharpe raises in both [generate_performance] and
    [generate_report]. *)
Theorem guard_compares_rows_with_years :
  run bt_short = Some ran_short ∧
  length (pl_df ran_short) = 100%nat ∧
  Backtest.timeframe ran_short = [1%Z] ∧
  guard ran_short 1 = true ∧
  (∃ rets, port_ret ran_short = Some rets ∧ length rets = 100%nat ∧
     Performance.timeframe (Performance.init (Q2R <$> rets) 1) = 252%Z) ∧
  generate_performance ran_short = None ∧
  generate_report ran_short = None.
Proof.
  assert (run bt_short = Some ran_short) as Hrun by (by vm_compute).
  assert (∃ rets, port_ret ran_short = Some rets ∧ length rets = 100%nat)
    as (rets & Hp & Hl).
  { eexists. split; by vm_compute. }
  split; [done|]. split; [by vm_compute|]. split; [by vm_compute|].
  split; [by vm_compute|].
  split; [exists rets; split; [exact Hp|split; [exact Hl|reflexivity]]|].
  apply (orchestration_short ran_short rets 1 "Sharpe Ratio" []);
    [done|by vm_compute..| |].
  - lia.
  - rewrite Hl. change (2 ≤ 100 < 252)%nat. lia.
Qed.

End Orchestrating.

(** ** The ledger across a period *)

Section Ledger.
Import Account Backtest Vocabulary LedgerVocabulary Scenario.
Local Open Scope Q_scope.

Ltac each_member :=
  repeat match goal with
  | H : _ ∈ [] |- _ => by apply elem_of_nil in H
  | H : _ ∈ _ :: _ |- _ => apply elem_of_cons in H as [->|H]
  end.

Lemma position_lookup tks t :
  Account.position tks !! t = if bool_decide (t ∈ tks) then Some 0 else None.
Proof.
  induction tks as [|u tks IH]; [done|].
  rewrite bool_decide_elem_of_cons. simpl.
  destruct (decide (t = u)) as [->|Hne].
  - rewrite lookup_insert_eq. by rewrite (bool_decide_eq_true_2 (u = u)).
  - rewrite lookup_insert_ne by done.
    by rewrite (bool_decide_eq_false_2 (t = u)).
Qed.

(** X1.  The position dict built by [position.__init__] has the tickers as
    its keys and nothing else, every one of them at quantity 0; so a fresh
    backtest holds nothing. *)
Theorem position_starts_flat tks c df slip dr m tf t :
  Account.position tks !! t = (if bool_decide (t ∈ tks) then Some 0 else None) ∧
  holding (Backtest.init c df tks slip dr m tf) t = 0.
Proof.
  split; [apply position_lookup|].
  unfold holding. simpl. rewrite position_lookup.
  by destruct (bool_decide _).
Qed.





(** *** Holdings are flat or more than one unit *)

Lemma sell_ticker_lots cd s t s' :
  lots s → sell_ticker cd s t = Some s' → lots s'.
Proof.
  unfold sell_ticker. intros Hl H.
  destruct (list.last cd) as [r|]; simpl in H; [|done].
  destruct (_ =? _)%Z; [|by simplify_eq].
  destruct (pos s !! t) as [q|] eqn:E; simpl in H; [|done].
  destruct (negb _); simplify_eq; [|done].
  intros u q'. simpl. destruct (decide (t = u)) as [->|Hne].
  - rewrite lookup_insert_eq. intros [= <-]. by left.
  - rewrite lookup_insert_ne by done. apply Hl.
Qed.

Lemma buy_ticker_body_lots cd a s t s' :
  lots s → buy_ticker_body cd a s t = Some s' → lots s'.
Proof.
  unfold buy_ticker_body. intros Hl H.
  destruct (list.last cd) as [r|]; simpl in H; [|done].
  destruct (Qeq_bool _ _); [done|].
  destruct (Qlt_le_dec _ _) as [Hlt|]; simplify_eq; [|done].
  intros u q'. simpl. destruct (decide (t = u)) as [->|Hne].
  - rewrite lookup_insert_eq. intros [= <-]. by right.
  - rewrite lookup_insert_ne by done. apply Hl.
Qed.

Lemma day_lots s d s' : lots s → day s d = Some s' → lots s'.
Proof.
  unfold day, day_on. intros Hl H.
  destruct (sell_phase _ s) as [s1|] eqn:E1; simpl in H; [|done].
  destruct (buy_phase _ s1) as [s2|] eqn:E2; simpl in H; [|done].
  assert (lots s1) as Hl1.
  { unfold sell_phase in E1. destruct (any_signal _ _ _); [|by simplify_eq].
    revert E1. apply for_each_inv; [|done].
    intros ??? _. apply sell_ticker_lots. }
  assert (lots s2) as Hl2.
  { unfold buy_phase, buy_pass in E2. destruct (any_signal _ _ _); [|by simplify_eq].
    destruct (for_each _ _ []) as [bt|]; simpl in E2; [|done].
    destruct (Qlt_le_dec _ _); [|by simplify_eq].
    destruct (_ <? _)%nat; [|by simplify_eq].
    revert E2. apply for_each_inv; [|done].
    intros ??? _. apply buy_ticker_body_lots. }
  apply mark_and_record_appends in H as (_ & Hp & _).
  unfold lots. by rewrite Hp.
Qed.

(** X3.  A sale sets a holding to 0 and a purchase sets it to a quantity
    above 1, so a run that starts with every holding at zero or above one
    unit ends that way: no holding is ever negative, and none lies in the
    interval from 0 (excluded) to 1 (included). *)
Theorem holdings_flat_or_above_one self s' :
  lots self → run self = Some s' →
  lots s' ∧ ∀ t, 0 <= holding s' t ∧ ¬ (0 < holding s' t <= 1).
Proof.
  intros Hl H. unfold run in H.
  destruct (for_each day (dates self) self) as [s1|] eqn:E; simpl in H; [|done].
  simplify_eq.
  assert (lots s1) as Hl1.
  { revert E. apply for_each_inv; [|done]. intros ??? _. apply day_lots. }
  split; [exact Hl1|]. intros t. unfold holding. simpl.
  destruct (pos s1 !! t) as [q|] eqn:Eq; simpl.
  - destruct (Hl1 t q Eq) as [Hz|Hgt].
    + rewrite Hz. split; [apply Qle_refl|]. intros [Hlt _]. by apply Qlt_irrefl in Hlt.
    + split; [lra|]. intros [_ Hle]. lra.
  - split; [apply Qle_refl|]. intros [Hlt _]. by apply Qlt_irrefl in Hlt.
Qed.

Lemma init_lots c df tks slip dr m tf : lots (Backtest.init c df tks slip dr m tf).
Proof.
  intros t q. simpl. rewrite position_lookup.
  destruct (bool_decide _); [|done]. intros [= <-]. by left.
Qed.

Lemma holdings_flat_or_above_one_witness :
  ∃ s', run (bt 0) = Some s' ∧ 0 <= holding s' "A".
Proof.
  destruct (run_total (bt 0) (proj1 (bt_well_formed 0)) (bt_priced 0)) as (s' & H).
  exists s'. split; [done|].
  apply (holdings_flat_or_above_one (bt 0) s' (init_lots _ _ _ _ _ _ _) H).
Defined.

(** *** A position is closed by a sell signal and by nothing else *)

Lemma buy_loop_frame cd a l t : ∀ s s',
  t ∉ l → for_each (buy_ticker_body cd a) l s = Some s' →
  pos s' !! t = pos s !! t.
Proof.
  intros s s' Ht. apply (for_each_inv (λ s2, pos s2 !! t = pos s !! t)); [|done].
  intros s1 x s2 Hx IH H. rewrite <- IH. unfold buy_ticker_body in H.
  destruct (list.last cd) as [r|]; simpl in H; [|done].
  destruct (Qeq_bool _ _); [done|].
  destruct (Qlt_le_dec _ _); simplify_eq; [|done].
  simpl. apply lookup_insert_ne. by intros ->.
Qed.

Lemma buy_pass_frame cd r s s' t :
  list.last cd = Some r →
  (∀ u, u ∈ tickers s → is_Some (pos s !! u)) →
  buy_pass cd s = Some s' → candidate r s t = false →
  pos s' !! t = pos s !! t.
Proof.
  intros Hr Hk H Hc. unfold buy_pass in H.
  rewrite (collect_loop _ r Hr) in H by done. simpl in H.
  destruct (Qlt_le_dec _ _); [|by simplify_eq].
  destruct (_ <? _)%nat; [|by simplify_eq].
  revert H. apply buy_loop_frame.
  intros Hin. apply list_elem_of_In, filter_In in Hin as [_ Hin]. congruence.
Qed.

(** X4.  Through a whole period, sell pass, buy pass and valuation: an
    instrument that is held and has no sell signal on the deciding row keeps
    exactly the quantity it had, so the buy pass never adds to a position;
    an instrument that is held and has the sell signal ends the period at
    quantity 0, for the buy pass cannot buy it back on the same row. *)
Theorem position_closed_by_sell_signal_only self d r s' :
  well_formed self → last_row self d = Some r → day self d = Some s' →
  (∀ t, ¬ holding self t == 0 → signal r (signal_col t) ≠ (-1)%Z →
        pos s' !! t = pos self !! t) ∧
  (∀ t, t ∈ tickers self → sells r self t = true → pos s' !! t = Some 0).
Proof.
  intros Hwf Hr H. unfold last_row in Hr. unfold day in H.
  destruct (sell_loop _ r Hr (tickers self) self (wf_nodup _ Hwf) (wf_keys _ Hwf))
    as (s1 & Hrun & Hpos & _).
  destruct (day_on_passes _ r Hr self d s1 (wf_signals _ Hwf) Hrun) as [Hs1 E].
  rewrite E in H. clear E.
  apply sell_phase_trade in Hs1 as (F1 & _ & K1).
  pose proof (well_formed_step _ _ F1 K1 Hwf) as Hwf1.
  destruct (buy_pass (filter_date (pl_df self) d) s1) as [s2|] eqn:E2;
    simpl in H; [|done].
  apply mark_and_record_appends in H as (_ & -> & _).
  split.
  - intros t Hh Hsig.
    assert (pos s1 !! t = pos self !! t) as E1.
    { rewrite Hpos. unfold sells.
      rewrite (proj2 (Z.eqb_neq _ _) Hsig). simpl. by rewrite andb_false_r. }
    rewrite <- E1. apply (buy_pass_frame _ r s1 s2 t Hr (wf_keys _ Hwf1) E2).
    unfold candidate, holding. rewrite E1. fold (holding self t).
    destruct (Qeq_bool (holding self t) 0) eqn:Ez; [|by rewrite andb_false_r].
    by apply Qeq_bool_eq in Ez.
  - intros t Ht Hsell.
    assert (pos s1 !! t = Some 0) as E1.
    { by rewrite Hpos, Hsell, (bool_decide_eq_true_2 _ Ht). }
    rewrite <- E1. apply (buy_pass_frame _ r s1 s2 t Hr (wf_keys _ Hwf1) E2).
    unfold candidate. unfold sells in Hsell.
    apply andb_true_iff in Hsell as [Hsig _]. apply Z.eqb_eq in Hsig.
    rewrite Hsig. done.
Qed.

Lemma position_closed_by_sell_signal_only_witness :
  ∃ s', day_on [day2] holding_A 2%Z = Some s' ∧ pos s' !! "A" = Some 0.
Proof.
  assert (∃ s', day holding_A 2%Z = Some s') as (s' & H) by (by eexists).
  exists s'. split; [exact H|].
  apply (position_closed_by_sell_signal_only holding_A 2%Z day2 s'
           holding_A_well_formed eq_refl H); [compute_done|by vm_compute].
Defined.

(** *** Slippage is the only cost of trading *)

Lemma Qsum_cons x l : Qsum (x :: l) = x + Qsum l.
Proof. done. Qed.

Lemma Qsum_map_Qeq {A} (f g : A → Q) l :
  (∀ x, x ∈ l → f x == g x) → Qsum (map f l) == Qsum (map g l).
Proof.
  induction l as [|x l IH]; intros H; simpl map; [reflexivity|].
  rewrite !Qsum_cons. apply Qplus_comp.
  - apply H, list_elem_of_here.
  - apply IH. intros y Hy. by apply H, list_elem_of_further.
Qed.

Lemma Qsum_map_plus {A} (f g : A → Q) l :
  Qsum (map (λ x, f x + g x) l) == Qsum (map f l) + Qsum (map g l).
Proof.
  induction l as [|x l IH]; simpl map; rewrite ?Qsum_cons; [reflexivity|].
  rewrite IH. ring.
Qed.

Lemma Qsum_map_scale {A} (f : A → Q) c l :
  Qsum (map (λ x, f x * c) l) == Qsum (map f l) * c.
Proof.
  induction l as [|x l IH]; simpl map; rewrite ?Qsum_cons; [reflexivity|].
  rewrite IH. ring.
Qed.

Lemma Qsum_map_filter {A} (f : A → Q) (b : A → bool) l :
  Qsum (map f (List.filter b l)) == Qsum (map (λ x, if b x then f x else 0) l).
Proof.
  induction l as [|x l IH]; [reflexivity|]. cbn [List.filter map].
  destruct (b x); cbn [map]; rewrite !Qsum_cons, IH; ring.
Qed.

Lemma Qsum_map_count {A} (b : A → bool) a l :
  Qsum (map (λ x, if b x then a else 0) l) ==
  inject_Z (Z.of_nat (length (List.filter b l))) * a.
Proof.
  induction l as [|x l IH]; simpl map; rewrite ?Qsum_cons; [simpl; ring|].
  rewrite IH. simpl List.filter. destruct (b x); [|ring].
  simpl length. rewrite inject_Z_of_nat_S. ring.
Qed.

Lemma filter_filter_andb {A} (f g : A → bool) l :
  List.filter g (List.filter f l) = List.filter (λ x, f x && g x) l.
Proof.
  induction l as [|x l IH]; [done|]. simpl.
  destruct (f x); simpl; [|done]. destruct (g x); by rewrite IH.
Qed.

Lemma holding_Some s t q : pos s !! t = Some q → holding s t = q.
Proof. unfold holding. by intros ->. Qed.

(** The sell pass turns holdings into cash at the row's prices, less
    slippage. *)
Lemma sell_pass_value cd r self :
  list.last cd = Some r → well_formed self →
  ∃ s1, sell_pass cd self = Some s1 ∧
    cash (account s1) ==
      cash (account self) + gross_sold r self * (1 - slippage self) ∧
    marked r s1 == marked r self - gross_sold r self.
Proof.
  intros Hr Hwf.
  destruct (sell_loop _ r Hr (tickers self) self (wf_nodup _ Hwf) (wf_keys _ Hwf))
    as (s1 & Hrun & Hpos & Hcash & _).
  exists s1. split; [done|].
  destruct (sell_pass_trade _ _ _ Hrun) as ((_ & Ft & _) & _).
  split.
  - rewrite Hcash. unfold gross_sold, proceeds.
    by rewrite (Qsum_map_scale (λ t, price r t * holding self t)).
  - unfold marked, gross_sold. rewrite Ft, Qsum_map_filter.
    rewrite (Qsum_map_Qeq (λ t, holding self t * price r t)
               (λ t, (if sells r self t then 0 else holding self t * price r t) +
                     (if sells r self t then price r t * holding self t else 0))).
    2:{ intros t _. destruct (sells r self t); ring. }
    rewrite Qsum_map_plus.
    rewrite (Qsum_map_Qeq (λ t, holding s1 t * price r t)
               (λ t, if sells r self t then 0 else holding self t * price r t)).
    { ring. }
    intros t Ht. unfold holding at 1. rewrite Hpos, (bool_decide_eq_true_2 _ Ht).
    simpl. destruct (sells r self t); simpl; [ring|reflexivity].
Qed.

(** The buy pass turns cash into holdings at the row's prices, plus
    slippage. *)
Lemma buy_pass_value cd r self :
  list.last cd = Some r → well_formed self →
  (∀ t, t ∈ tickers self → ¬ price r t == 0) →
  ∃ s', buy_pass cd self = Some s' ∧
    cash (account s') ==
      cash (account self) - invested r self * (1 + slippage self) ∧
    marked r s' == marked r self + invested r self.
Proof.
  intros Hr Hwf Hp. unfold buy_pass, invested.
  rewrite (collect_loop _ r Hr) by apply (wf_keys _ Hwf). simpl.
  set (cands := List.filter (candidate r self) (tickers self)).
  set (a := cash (account self) / inject_Z (Z.of_nat (length cands))).
  destruct (Qlt_le_dec 0 (cash (account self))) as [Hc|Hc].
  2:{ exists self. split; [done|]. split; ring. }
  destruct cands as [|c0 cands'] eqn:Ec.
  { exists self. split; [done|]. simpl. split; ring. }
  rewrite <- Ec in *. simpl Nat.ltb.
  replace (0 <? length cands)%nat with true by (by rewrite Ec).
  destruct (buy_loop _ r Hr a cands self) as (s' & Hrun & Hpos & Hcash).
  { intros t Ht. apply Hp. apply list_elem_of_In, filter_In in Ht as [Ht _].
    by apply list_elem_of_In. }
  exists s'. split; [done|]. split.
  - rewrite Hcash. ring.
  - assert (tickers s' = tickers self) as Ft.
    { eapply for_each_trade in Hrun as ((_ & Ft & _) & _); [done|].
      intros ???. apply buy_ticker_body_trade. }
    unfold marked. rewrite Ft.
    rewrite (Qsum_map_Qeq (λ t, holding s' t * price r t)
               (λ t, holding self t * price r t +
                     (if candidate r self t && lot_ok a r t then a else 0))).
    { rewrite Qsum_map_plus, Qsum_map_count.
      subst cands. by rewrite filter_filter_andb. }
    intros t Ht. unfold holding at 1. rewrite Hpos.
    assert (bool_decide (t ∈ cands) = candidate r self t) as ->.
    { destruct (candidate r self t) eqn:E.
      - apply bool_decide_eq_true_2. subst cands.
        apply list_elem_of_In, filter_In. split; [by apply list_elem_of_In|done].
      - apply bool_decide_eq_false_2. subst cands. intros Hin.
        apply list_elem_of_In, filter_In in Hin as [_ Hin]. congruence. }
    destruct (candidate r self t) eqn:E; simpl; [|unfold holding; ring].
    assert (holding self t == 0) as Hz.
    { unfold candidate in E. apply andb_true_iff in E as [_ E].
      by apply Qeq_bool_eq. }
    destruct (lot_ok a r t); simpl.
    + rewrite Hz. field. by apply Hp.
    + fold (holding self t). ring.
Qed.

(** X5.  On a well-formed backtest whose deciding row has no zero price a
    period returns, and the value it records is the cash and the holdings it
    started with, valued at the row's prices, less slippage times the
    turnover: the gross proceeds of the sell pass plus what the buy pass
    invests from the state the sells left.  With zero slippage, trading does
    not change the value at all. *)
Theorem slippage_is_the_only_cost self d r :
  well_formed self → last_row self d = Some r →
  (∀ t, t ∈ tickers self → ¬ price r t == 0) →
  ∃ s1 s', sell_pass (filter_date (pl_df self) d) self = Some s1 ∧
    day self d = Some s' ∧
    cash (account s') + asset_value (account s') ==
      cash (account self) + marked r self -
      slippage self * (gross_sold r self + invested r s1) ∧
    list.last (daily_account_value_Account_Value (account s')) =
      Some (cash (account s') + asset_value (account s')) ∧
    (slippage self == 0 →
     cash (account s') + asset_value (account s') ==
       cash (account self) + marked r self).
Proof.
  intros Hwf Hr Hp. unfold last_row in Hr.
  destruct (sell_pass_value _ r self Hr Hwf) as (s1 & Hrun & Hc1 & Hm1).
  destruct (day_on_passes _ r Hr self d s1 (wf_signals _ Hwf) Hrun) as [Hs1 E].
  apply sell_phase_trade in Hs1 as (F1 & _ & K1).
  pose proof (well_formed_step _ _ F1 K1 Hwf) as Hwf1.
  destruct F1 as (_ & Ft1 & _ & Fslip1 & _).
  destruct (buy_pass_value _ r s1 Hr Hwf1) as (s2 & Hbuy & Hc2 & Hm2).
  { rewrite Ft1. exact Hp. }
  pose proof (buy_pass_trade _ _ _ Hbuy) as (F2 & _ & K2).
  pose proof (well_formed_step _ _ F2 K2 Hwf1) as Hwf2.
  destruct (mark_and_record_spec _ r Hr d s2 (wf_keys _ Hwf2)) as (v & Hmark & Ev).
  eexists s1, _. split; [done|]. split.
  { unfold day. rewrite E, Hbuy. simpl. exact Hmark. }
  simpl.
  assert (cash (account s2) + v ==
          cash (account self) + marked r self -
          slippage self * (gross_sold r self + invested r s1)) as Hval.
  { rewrite Ev. fold (marked r s2). rewrite Hc2, Hm2, Hc1, Hm1, Fslip1. ring. }
  split; [exact Hval|]. split; [by rewrite last_snoc|].
  intros Hz. rewrite Hval, Hz. ring.
Qed.

(** With 1% slippage, buying 10000 worth of A costs 100. *)
Lemma slippage_is_the_only_cost_witness :
  ∃ s', day (bt (1 # 100)) 1%Z = Some s' ∧
        cash (account s') + asset_value (account s') == 9900.
Proof.
  destruct (slippage_is_the_only_cost (bt (1 # 100)) 1%Z day1
              (proj1 (bt_well_formed _)) eq_refl)
    as (s1 & s' & Hs1 & H & Hv & _).
  - intros t Ht. assert (t ∈ ["A"; "B"]) as Ht' by exact Ht.
    clear Ht. each_member; by vm_compute.
  - exists s'. split; [done|]. rewrite Hv.
    assert (Some s1 = Some (bt (1 # 100))) as [= ->]
      by (rewrite <- Hs1; reflexivity).
    by vm_compute.
Defined.

(** *** A zero price *)

Lemma for_each_raises {S A} (f : S → A → option S) l x :
  x ∈ l → (∀ s, f s x = None) → ∀ s, for_each f l s = None.
Proof.
  intros Hx Hf. induction l as [|y l IH]; intros s; [by apply elem_of_nil in Hx|].
  simpl. apply elem_of_cons in Hx as [<-|Hx]; [by rewrite Hf|].
  destruct (f s y); simpl; [by apply IH|done].
Qed.

(** X6.  The buy loop divides the allocation by the price before it looks
    at anything else, so with cash in hand one candidate priced at zero on
    the deciding row makes the whole buy phase raise, and the period with
    it, whatever the other candidates are; no state is returned. *)
Theorem zero_price_candidate_raises curr_day r self t :
  list.last curr_day = Some r → well_formed self →
  0 < cash (account self) →
  t ∈ tickers self → candidate r self t = true → price r t == 0 →
  buy_pass curr_day self = None ∧ buy_phase curr_day self = None ∧
  (sell_phase curr_day self = Some self → ∀ d, day_on curr_day self d = None).
Proof.
  intros Hr Hwf Hc Ht Hcand Hz.
  assert (buy_pass curr_day self = None) as Hpass.
  { unfold buy_pass. rewrite (collect_loop _ r Hr) by apply (wf_keys _ Hwf). simpl.
    destruct (Qlt_le_dec 0 (cash (account self))) as [_|Hle]; [|lra].
    assert (t ∈ List.filter (candidate r self) (tickers self)) as Hin.
    { apply list_elem_of_In, filter_In. split; [by apply list_elem_of_In|done]. }
    destruct (List.filter _ _) as [|c0 cands] eqn:Ec; [by apply elem_of_nil in Hin|].
    simpl Nat.ltb. cbv iota. apply (for_each_raises _ _ t Hin).
    intros s. unfold buy_ticker_body. rewrite Hr. simpl.
    by rewrite (proj2 (Qeq_bool_iff _ _) Hz). }
  assert (buy_phase curr_day self = None) as Hphase.
  { by rewrite (buy_phase_pass _ r _ Hr (wf_signals _ Hwf)). }
  split; [done|]. split; [done|].
  intros Hs d. unfold day_on. rewrite Hs. simpl. by rewrite Hphase.
Qed.

Lemma zero_price_candidate_raises_witness :
  day_on [row 1 0 50 1 0] (bt 0) 1%Z = None.
Proof.
  apply (zero_price_candidate_raises [row 1 0 50 1 0] (row 1 0 50 1 0) (bt 0) "A");
    [reflexivity|apply bt_well_formed|by vm_compute|compute_done|reflexivity
    |reflexivity|reflexivity].
Defined.

(** *** The two columns of the history *)

(** X7.  [update_daily_account_value] appends to both lists at once and
    nothing else writes them, so a run started with the two columns of the
    history at one length leaves them at one length: every recorded value
    has its date. *)
Theorem history_columns_stay_aligned self s' :
  length (daily_account_value_Date (account self)) =
    length (daily_account_value_Account_Value (account self)) →
  run self = Some s' →
  length (daily_account_value_Date (account s')) =
    length (daily_account_value_Account_Value (account s')) ∧
  length (daily_account_value_Date (account s')) =
    (length (daily_account_value_Date (account self)) + length (dates self))%nat.
Proof.
  intros Hl H. unfold run in H.
  destruct (for_each day (dates self) self) as [s1|] eqn:E; simpl in H; [|done].
  simplify_eq. simpl.
  apply date_loop_appends in E as (_ & _ & D & _ & L).
  rewrite D, L, length_app. lia.
Qed.

Lemma history_columns_stay_aligned_witness :
  ∃ s', run (bt 0) = Some s' ∧
        length (daily_account_value_Date (account s')) =
        length (daily_account_value_Account_Value (account s')).
Proof.
  destruct (run_total (bt 0) (proj1 (bt_well_formed 0)) (bt_priced 0)) as (s' & H).
  exists s'. split; [done|].
  apply (history_columns_stay_aligned (bt 0) s' eq_refl H).
Defined.

(** *** What the return series compounds to *)

Lemma returns_of_cons x y V :
  returns_of (x :: y :: V) = 0 :: (y - x) / y :: tail (returns_of (y :: V)).
Proof. done. Qed.

Lemma Qsquare_zero x : x * x == 0 → x == 0.
Proof. intros H. by destruct (Qmult_integral _ _ H). Qed.

(** X8.  The returns of [run] divide by the current value, so it is the
    factor 1 - r[t] that leads from V[t] back to V[t-1]; over a history
    without a zero value these factors take the last value back to the
    first one.  The factor 1 + r[t], which the engine compounds, is the
    growth V[t] / V[t-1] only in a period where the value did not move. *)
Theorem returns_compound_backwards v0 V :
  Forall (λ v, ¬ v == 0) (v0 :: V) →
  Qprod (map (λ r, 1 - r) (tail (returns_of (v0 :: V)))) * default v0 (list.last V)
    == v0 ∧
  ∀ t vt vp rt, V !! t = Some vt → (v0 :: V) !! t = Some vp →
    returns_of (v0 :: V) !! S t = Some rt →
    vt * (1 - rt) == vp ∧ (1 + rt == vt / vp ↔ vt == vp).
Proof.
  intros Hnz. split.
  - revert v0 Hnz. induction V as [|y V IH]; intros v0 Hnz.
    + unfold Qprod. simpl. ring.
    + rewrite returns_of_cons. cbn [tail map]. unfold Qprod. cbn [foldr].
      fold (Qprod (map (λ r, 1 - r) (tail (returns_of (y :: V))))).
      apply list.Forall_cons in Hnz as [H0 Hnz].
      pose proof (IH y Hnz) as IHy.
      pose proof (proj1 (proj1 (list.Forall_cons _ _ _) Hnz)) as Hy.
      assert (default v0 (list.last (y :: V)) = default y (list.last V)) as ->.
      { destruct V as [|z V]; [done|]. rewrite !last_cons.
        by destruct (list.last V). }
      rewrite <- Qmult_assoc, IHy. by field.
  - intros t vt vp rt Ht Hp Hr.
    assert (¬ vt == 0) as Hvt.
    { apply list.Forall_cons in Hnz as [_ Hnz].
      rewrite Forall_lookup in Hnz. by apply (Hnz t). }
    assert (¬ vp == 0) as Hvp.
    { rewrite Forall_lookup in Hnz. by apply (Hnz t). }
    destruct (returns_of_spec (v0 :: V)) as (_ & _ & Hret); [done|].
    rewrite (Hret (S t) vt vp) in Hr; [|lia|done|by rewrite Nat.sub_succ, Nat.sub_0_r].
    injection Hr as <-. split; [by field|]. split.
    + intros E.
      assert ((vt - vp) * (vt - vp) == 0) as Hsq.
      { assert ((vt - vp) * (vt - vp) ==
                (vt / vp - (1 + (vt - vp) / vt)) * (vt * vp)) as -> by (by field).
        rewrite E. ring. }
      apply Qsquare_zero in Hsq. lra.
    + intros E. rewrite E. by field.
Qed.

Lemma returns_compound_backwards_witness :
  Qprod (map (λ r, 1 - r) (tail (returns_of [10000; 11000]))) * 11000 == 10000.
Proof.
  apply (returns_compound_backwards 10000 [11000]).
  repeat constructor; by vm_compute.
Defined.

(** *** The gates *)

(** X24.  The [sell_signal] and [buy_signal] gates never change what a
    period does: on a selection with a last row, and with every ticker's
    signal column among the signal columns, the gated phase is the plain
    loop, whatever the other rows and columns make of the gate.  On an empty
    selection the gates are off and both phases return the state as it is,
    where the loops alone would raise on the first ticker. *)
Theorem gates_change_nothing curr_day self :
  (∀ t, t ∈ tickers self → signal_col t ∈ signals self) →
  (∀ r, list.last curr_day = Some r →
     sell_phase curr_day self = sell_pass curr_day self ∧
     buy_phase curr_day self = buy_pass curr_day self) ∧
  (curr_day = [] →
     sell_phase curr_day self = Some self ∧ buy_phase curr_day self = Some self ∧
     (tickers self ≠ [] →
      sell_pass curr_day self = None ∧ buy_pass curr_day self = None)).
Proof.
  intros Hs. split.
  - intros r Hr. split; [by apply (sell_phase_pass _ r)|by apply (buy_phase_pass _ r)].
  - intros ->. split; [done|]. split; [done|]. intros Hne.
    unfold sell_pass, buy_pass. destruct (tickers self) as [|t l]; [done|]. done.
Qed.

Lemma gates_change_nothing_witness :
  sell_phase [day1_early; day1] bt_repeated = sell_pass [day1_early; day1] bt_repeated.
Proof.
  destruct (gates_change_nothing [day1_early; day1] bt_repeated) as [H _].
  - apply (wf_signals _ (proj1 bt_repeated_well_formed)).
  - by destruct (H day1 eq_refl).
Defined.

(** *** The order of the tickers *)

Lemma Qsum_map_perm {A} (f : A → Q) l l' :
  l ≡ₚ l' → Qsum (map f l) == Qsum (map f l').
Proof.
  induction 1 as [|x l l' _ IH|x y l|l l' l'' _ IH1 _ IH2]; simpl map;
    rewrite ?Qsum_cons.
  - reflexivity.
  - by rewrite IH.
  - ring.
  - by rewrite IH1.
Qed.

Lemma filter_length_perm {A} (b : A → bool) l l' :
  l ≡ₚ l' → length (List.filter b l) = length (List.filter b l').
Proof.
  induction 1 as [|x l l' _ IH|x y l|l l' l'' _ IH1 _ IH2]; simpl.
  - done.
  - destruct (b x); simpl; by rewrite IH.
  - by destruct (b x), (b y).
  - by rewrite IH1.
Qed.

Lemma elem_of_filter_bool {A} (b : A → bool) l x :
  x ∈ List.filter b l ↔ x ∈ l ∧ b x = true.
Proof. rewrite !list_elem_of_In. apply filter_In. Qed.

Lemma bool_decide_perm (t : string) l l' :
  l ≡ₚ l' → bool_decide (t ∈ l) = bool_decide (t ∈ l').
Proof. intros H. apply bool_decide_ext. by rewrite H. Qed.

(** X25.  Within a pass no ticker depends on another: started from one
    state, the sell pass and the buy pass leave the same holdings and the
    same cash whatever the order in which the tickers are listed. *)
Theorem passes_ignore_ticker_order curr_day r self l' :
  list.last curr_day = Some r → well_formed self → tickers self ≡ₚ l' →
  (∀ t, t ∈ tickers self → ¬ price r t == 0) →
  (∃ s1 s1', sell_pass curr_day self = Some s1 ∧
     sell_pass curr_day (with_tickers l' self) = Some s1' ∧
     pos s1' = pos s1 ∧ cash (account s1') == cash (account s1)) ∧
  (∃ s2 s2', buy_pass curr_day self = Some s2 ∧
     buy_pass curr_day (with_tickers l' self) = Some s2' ∧
     pos s2' = pos s2 ∧ cash (account s2') == cash (account s2)).
Proof.
  intros Hr Hwf Hperm Hp.
  assert (NoDup l') as Hnd' by (rewrite <- Hperm; apply (wf_nodup _ Hwf)).
  assert (∀ t, t ∈ l' → is_Some (pos self !! t)) as Hk'.
  { intros t Ht. apply (wf_keys _ Hwf). by rewrite Hperm. }
  split.
  - destruct (sell_loop _ r Hr (tickers self) self (wf_nodup _ Hwf) (wf_keys _ Hwf))
      as (s1 & Hrun & Hpos & Hcash & _).
    destruct (sell_loop _ r Hr l' (with_tickers l' self) Hnd' Hk')
      as (s1' & Hrun' & Hpos' & Hcash' & _).
    exists s1, s1'. split; [done|]. split; [done|]. split.
    + apply map_eq. intros t. rewrite Hpos, Hpos'.
      by rewrite (bool_decide_perm t _ _ Hperm).
    + rewrite Hcash, Hcash'. cbn [with_tickers account].
      apply Qplus_comp; [reflexivity|].
      rewrite !Qsum_map_filter.
      rewrite (Qsum_map_perm _ _ _ Hperm).
      apply Qsum_map_Qeq. intros t _. reflexivity.
  - unfold buy_pass.
    rewrite (collect_loop _ r Hr self) by apply (wf_keys _ Hwf).
    rewrite (collect_loop _ r Hr (with_tickers l' self)) by done.
    cbn [mbind option_bind app with_tickers account tickers].
    change (candidate r (with_tickers l' self)) with (candidate r self).
    set (cands := List.filter (candidate r self) (tickers self)).
    set (cands' := List.filter (candidate r self) l').
    assert (length cands' = length cands) as Hlen
      by (symmetry; by apply filter_length_perm).
    rewrite Hlen.
    set (a := cash (account self) / inject_Z (Z.of_nat (length cands))).
    destruct (Qlt_le_dec 0 (cash (account self))).
    2:{ exists self, (with_tickers l' self). repeat split; reflexivity. }
    destruct (0 <? length cands)%nat.
    2:{ exists self, (with_tickers l' self). repeat split; reflexivity. }
    destruct (buy_loop _ r Hr a cands self) as (s2 & Hrun & Hpos & Hcash).
    { intros t Ht. apply elem_of_filter_bool in Ht as [Ht _]. by apply Hp. }
    destruct (buy_loop _ r Hr a cands' (with_tickers l' self))
      as (s2' & Hrun' & Hpos' & Hcash').
    { intros t Ht. apply elem_of_filter_bool in Ht as [Ht _].
      apply Hp. by rewrite Hperm. }
    exists s2, s2'. split; [done|]. split; [done|]. split.
    + apply map_eq. intros t. rewrite Hpos, Hpos'. cbn [with_tickers pos].
      assert (bool_decide (t ∈ cands') = bool_decide (t ∈ cands)) as ->; [|done].
      apply bool_decide_ext. unfold cands, cands'.
      rewrite !elem_of_filter_bool. by rewrite Hperm.
    + rewrite Hcash, Hcash'. cbn [with_tickers account slippage].
      unfold cands, cands'. rewrite !filter_filter_andb.
      by rewrite (filter_length_perm _ _ _ Hperm).
Qed.

Lemma passes_ignore_ticker_order_witness :
  ∃ s2 s2', buy_pass [day_lot] bt_lot = Some s2 ∧
            buy_pass [day_lot] (with_tickers ["B"; "A"] bt_lot) = Some s2' ∧
            pos s2' = pos s2.
Proof.
  destruct (passes_ignore_ticker_order [day_lot] day_lot bt_lot ["B"; "A"])
    as (_ & s2 & s2' & H & H' & Hpos & _).
  - reflexivity.
  - apply bt_lot_well_formed.
  - apply perm_swap.
  - intros t Ht. assert (t ∈ ["A"; "B"]) as Ht' by exact Ht.
    clear Ht. each_member; by vm_compute.
  - by exists s2, s2'.
Defined.

End Ledger.

(** ** The performance engine at its edges *)

Section EngineEdges.
Import Performance Orchestration EngineVocabulary SeriesVocabulary.
Local Open Scope R_scope.

(** *** The window *)

(** X9.  [portfolio_ret[-timeframe:]]: for a positive number of years the
    window is the trailing part of the series, 252 * years long, or the
    whole series when that is shorter; for a negative number of years the
    slice runs the other way and drops the first 252 * |years| returns. *)
Theorem window_is_trailing_slice rets yrs :
  let p := Performance.init rets yrs in
  let n := length rets in
  ((1 ≤ yrs)%Z →
     portfolio_ret p = skipn (n - Z.to_nat (yrs * 252)) rets ∧
     length (portfolio_ret p) = Nat.min n (Z.to_nat (yrs * 252)) ∧
     ∃ older, rets = older ++ portfolio_ret p) ∧
  ((yrs ≤ -1)%Z → portfolio_ret p = skipn (Z.to_nat (- yrs * 252)) rets).
Proof.
  intros p n. split; intros Hy.
  - assert (portfolio_ret p = skipn (n - Z.to_nat (yrs * 252)) rets) as E.
    { unfold p, Performance.init, portfolio_ret, slice_from.
      rewrite (proj2 (Z.ltb_lt (- (yrs * 252)) 0)) by lia.
      f_equal. fold n. lia. }
    rewrite E. split; [done|]. split.
    + rewrite length_skipn. fold n. lia.
    + exists (firstn (n - Z.to_nat (yrs * 252)) rets).
      by rewrite firstn_skipn.
  - unfold p, Performance.init, portfolio_ret, slice_from.
    rewrite (proj2 (Z.ltb_ge (- (yrs * 252)) 0)) by lia. fold n.
    destruct (Z.le_gt_cases (Z.of_nat n) (- (yrs * 252))) as [Hge|Hlt].
    + rewrite Z.min_r by done. rewrite Nat2Z.id.
      rewrite !skipn_all2; [done|fold n; lia|done].
    + rewrite Z.min_l by lia. f_equal. lia.
Qed.

Lemma window_is_trailing_slice_witness :
  portfolio_ret (Performance.init (repeat 0 300 ++ [1]) 1) = repeat 0 251 ++ [1].
Proof.
  destruct (window_is_trailing_slice (repeat 0 300 ++ [1]) 1) as [H _].
  destruct H as (E & _); [lia|]. rewrite E. reflexivity.
Defined.

(** *** The empty series *)

Lemma fdiv_zero_zero : fdiv (Num 0) (Num 0) = NaN.
Proof.
  unfold fdiv. destruct (Req_dec_T 0 0) as [_|]; [|done].
  destruct (total_order_T 0 0) as [[?|_]|?]; [lra|done|lra].
Qed.

Lemma np_mean_nil : np_mean [] = NaN.
Proof. apply fdiv_zero_zero. Qed.

Lemma ndarray_std_nil : ndarray_std [] = NaN.
Proof.
  unfold ndarray_std, std_ddof, sum_sq_dev.
  cbn [length map np_sum foldr INR]. rewrite Rminus_0_r.
  by rewrite fdiv_zero_zero.
Qed.

Lemma rolling_mean_nil yrs : rolling_mean (Performance.init [] yrs) = None.
Proof.
  unfold rolling_mean, np_zeros, np_ones_over.
  cbn [Performance.init timeframe rolling].
  destruct (yrs * 252 - 1 <? 0)%Z; [done|]. cbn [mbind option_bind].
  by destruct (yrs * 252 <? 0)%Z.
Qed.

(** X10.  On an empty return series, whatever the number of years: the
    cumulative returns and the drawdown series are empty; [compute_max_dd]
    raises, for [np.max] has nothing to reduce; Sharpe, Sortino and
    volatility are NaN; and both rolling metrics raise. *)
Theorem empty_series yrs dr :
  let p := Performance.init [] yrs in
  compute_cum_rets p = [] ∧ compute_drawdown p = [] ∧
  compute_max_dd p = None ∧
  compute_sharpe p = NaN ∧ compute_sortino p dr = NaN ∧
  compute_volatility p = NaN ∧
  compute_rolling_sharpe p = None ∧ compute_rolling_sortino p dr = None.
Proof.
  intros p.
  assert (portfolio_ret p = []) as E.
  { unfold p, Performance.init, portfolio_ret, slice_from. apply skipn_nil. }
  unfold compute_max_dd, compute_sharpe, compute_sortino, compute_volatility,
    compute_drawdown, compute_rolling_sharpe, compute_rolling_sortino.
  rewrite E. unfold p. rewrite rolling_mean_nil.
  change (np_where_below dr []) with (@nil R).
  rewrite np_mean_nil, ndarray_std_nil. done.
Qed.

(** *** Maximum drawdown is never negative *)

Lemma foldl_fmax_nan l : foldl fmax NaN l = NaN.
Proof. induction l as [|u l IH]; [done|]. simpl. exact IH. Qed.

Lemma foldl_fmax_inf l : ∀ x, foldl fmax PosInf l ≠ Num x.
Proof.
  induction l as [|u l IH]; intros x; [done|]. simpl.
  destruct u; simpl; try apply IH. by rewrite foldl_fmax_nan.
Qed.

Lemma foldl_fmax_lower l : ∀ a x, foldl fmax (Num a) l = Num x → a <= x.
Proof.
  induction l as [|u l IH]; intros a x H; simpl in H.
  - injection H as <-. lra.
  - destruct u as [y| | |]; simpl in H.
    + apply IH in H. pose proof (Rmax_l a y). lra.
    + by apply foldl_fmax_inf in H.
    + by apply IH.
    + by rewrite foldl_fmax_nan in H.
Qed.

Lemma rint_lower (a : Z) y : IZR a <= y → (a ≤ rint y)%Z.
Proof.
  intros Ha. unfold rint. pose proof (Zfloor_lub a y Ha).
  destruct (total_order_T _ _) as [[?|?]|?]; [lia| |lia].
  destruct (Z.even _); lia.
Qed.

(** X11.  Whatever the returns of the window, a maximum drawdown that is a
    number is not negative: the first ratio is 0 (or NaN, which [np.max]
    propagates), and the maximum cannot come out below it. *)
Theorem max_dd_is_not_negative p x :
  compute_max_dd p = Some (Num x) → 0 <= x.
Proof.
  unfold compute_max_dd, drawdown_ratios. intros H.
  destruct (portfolio_ret p) as [|r0 rest]; [done|].
  unfold np_cumprod in H.
  cbn [map cumprod_from np_maximum_accumulate zip_with np_max mbind option_bind] in H.
  set (c0 := 1 * (1 + r0)) in *.
  replace (c0 - c0) with 0 in H by lra.
  destruct (Req_dec_T c0 0) as [Ez|Hnz].
  - rewrite Ez, fdiv_zero_zero, foldl_fmax_nan in H. done.
  - rewrite fdiv_num in H by done. replace (0 / c0) with 0 in H by (unfold Rdiv; lra).
    destruct (foldl fmax (Num 0) _) as [y| | |] eqn:Ey; simpl in H;
      try (destruct (total_order_T 100 0) as [[?|?]|?]; done).
    apply foldl_fmax_lower in Ey. injection H as <-.
    assert (0 ≤ rint (y * 100 * 100))%Z as Hr.
    { apply (rint_lower 0). nra. }
    apply IZR_le in Hr. lra.
Qed.

Lemma max_dd_is_not_negative_witness :
  ∃ x, compute_max_dd (Performance.init [0] 1) = Some (Num x) ∧ 0 <= x.
Proof.
  assert (∃ x, compute_max_dd (Performance.init [0] 1) = Some (Num x)) as [x H].
  { unfold compute_max_dd, drawdown_ratios, np_cumprod.
    change (portfolio_ret _) with [0].
    cbn [map cumprod_from np_maximum_accumulate zip_with np_max foldl mbind option_bind].
    rewrite fdiv_num by lra. by eexists. }
  exists x. split; [done|].
  exact (max_dd_is_not_negative _ x H).
Defined.

(** *** The drawdown series *)

Lemma drawdown_value c m :
  fsub (fdiv (Num c) (Num m)) (Num 1) = fneg (fdiv (Num (m - c)) (Num m)).
Proof.
  unfold fdiv. destruct (Req_dec_T m 0) as [->|Hm].
  - destruct (total_order_T c 0) as [[?|?]|?];
      destruct (total_order_T (0 - c) 0) as [[?|?]|?]; done || lra.
  - simpl. f_equal. by field.
Qed.

Lemma drawdown_zip C : ∀ P,
  zip_with (λ c p, fsub (fdiv (Num c) (Num p)) (Num 1)) C P =
  map fneg (zip_with (λ d m, fdiv (Num d) (Num m)) (zip_with Rminus P C) P).
Proof.
  induction C as [|c C IH]; intros [|m P]; try done.
  cbn [zip_with map]. f_equal; [apply drawdown_value|apply IH].
Qed.

(** X12.  [compute_drawdown] is, position by position, the opposite of the
    ratio whose maximum [compute_max_dd] reports; and on a window whose
    cumulative curve starts above zero and never falls below zero it is a
    series of numbers between -1 and 0 that starts with 0. *)
Theorem drawdown_is_negated_ratio p :
  compute_drawdown p = map fneg (drawdown_ratios (portfolio_ret p)) ∧
  ∀ c0 rest, np_cumprod (map (λ x, 1 + x) (portfolio_ret p)) = c0 :: rest →
    0 < c0 → Forall (λ c, 0 <= c) rest →
    Forall unit_loss (compute_drawdown p) ∧
    compute_drawdown p !! 0%nat = Some (Num 0).
Proof.
  assert (compute_drawdown p = map fneg (drawdown_ratios (portfolio_ret p))) as E
    by apply drawdown_zip.
  split; [exact E|]. intros c0 rest Ec H0 Hrest.
  rewrite E, (drawdown_ratios_curve _ c0 rest Ec H0).
  split; [|cbn [map fneg]; by rewrite Ropp_0].
  cbn [map]. constructor.
  - exists (-0). split; [done|lra].
  - pose proof (ratios_from_unit rest c0 H0 Hrest) as Hu.
    induction Hu as [|v l (x & -> & Hx) _ IH]; cbn [map]; constructor; [|exact IH].
    exists (- x). split; [done|lra].
Qed.

Lemma drawdown_is_negated_ratio_witness :
  Forall unit_loss (compute_drawdown (Performance.init [0; 1] 1)).
Proof.
  destruct (drawdown_is_negated_ratio (Performance.init [0; 1] 1)) as [_ H].
  apply (H (1 * (1 + 0)) [1 * (1 + 0) * (1 + 1)]).
  - reflexivity.
  - lra.
  - constructor; [lra|constructor].
Defined.

(** *** A series without variance *)

Lemma sum_sq_dev_repeat c n : sum_sq_dev (repeat c n) = 0.
Proof.
  unfold sum_sq_dev. rewrite map_repeat, !np_sum_repeat, repeat_length.
  destruct n as [|n]; [simpl; lra|].
  assert (INR (S n) ≠ 0) as Hn by (apply not_0_INR; lia).
  replace (INR (S n) * c / INR (S n)) with c by (by field). nra.
Qed.

Lemma ndarray_std_repeat c n : ndarray_std (repeat c (S n)) = Num 0.
Proof.
  rewrite ndarray_std_number by (rewrite repeat_length; lia).
  rewrite sum_sq_dev_repeat. unfold Rdiv. by rewrite Rmult_0_l, sqrt_0.
Qed.


(** A ratio over a zero deviation is never a number. *)
Lemma ratio_over_zero v q :
  ¬ is_number (round2 (fmul (fdiv v (Num 0)) (Num q))).
Proof.
  intros [x Hx]. unfold fdiv in Hx.
  destruct v as [m| | |]; simpl in Hx.
  - destruct (Req_dec_T 0 0) as [_|]; [|done].
    destruct (total_order_T m 0) as [[?|?]|?]; simpl in Hx; try done;
      destruct (total_order_T q 0) as [[?|?]|?]; done.
  - destruct (Rlt_dec 0 0); simpl in Hx;
      destruct (total_order_T q 0) as [[?|?]|?]; done.
  - destruct (Rlt_dec 0 0); simpl in Hx;
      destruct (total_order_T q 0) as [[?|?]|?]; done.
  - done.
Qed.




(** *** A window without a return below the threshold *)

Lemma np_where_below_none dr a :
  Forall (λ x, ¬ x < dr) a → np_where_below dr a = repeat 0 (length a).
Proof.
  induction 1 as [|x a Hx _ IH]; [done|]. unfold np_where_below in *.
  cbn [map length repeat]. rewrite IH. by destruct (Rlt_dec x dr).
Qed.

(** X14.  [compute_sortino] replaces the returns that are not below the
    threshold by 0 and takes the deviation of the result; on a window
    without a single return below the threshold that deviation is 0 (NaN
    on an empty window), and the Sortino ratio is never a number. *)
Theorem sortino_needs_a_downside_return p dr :
  Forall (λ x, ¬ x < dr) (portfolio_ret p) →
  ¬ is_number (compute_sortino p dr).
Proof.
  intros H. unfold compute_sortino. rewrite (np_where_below_none _ _ H).
  destruct (portfolio_ret p) as [|x a].
  - cbn [length repeat]. rewrite np_mean_nil. by intros [? ?].
  - cbn [length]. rewrite ndarray_std_repeat. apply ratio_over_zero.
Qed.

Lemma sortino_needs_a_downside_return_witness :
  ¬ is_number (compute_sortino (Performance.init [0; 1] 1) 0).
Proof.
  apply sortino_needs_a_downside_return.
  constructor; [lra|]. constructor; [lra|]. constructor.
Defined.

(** *** The annualized return *)

Lemma fpow_one b : fpow b 1 = Num b.
Proof.
  unfold fpow. destruct (total_order_T b 0) as [[Hneg|Hz]|Hpos]; [| subst b |].
  - rewrite (ZfloorZ 1). destruct (Req_dec_T 1 1) as [_|]; [|done].
    f_equal. simpl. lra.
  - destruct (total_order_T 1 0) as [[?|?]|?]; [lra|lra|done].
  - by rewrite Rpower_1.
Qed.

(** X15.  [compute_annualized_rets] raises exactly when the number of
    years is zero, where the exponent [trade_days / timeframe] is a division
    by zero; and for one year the exponent is 1, so the figure is the plain
    compounded return of the trailing window, in percent. *)
Theorem annualized_return_edges rets yrs :
  (compute_annualized_rets (Performance.init rets yrs) = None ↔ yrs = 0%Z) ∧
  compute_annualized_rets (Performance.init rets 1) =
    Some (round2 (Num
      ((foldr Rmult 1 (map (λ x, 1 + x) (portfolio_ret (Performance.init rets 1))) - 1)
       * 100))).
Proof.
  split.
  - unfold compute_annualized_rets. cbn [Performance.init timeframe].
    destruct (yrs * 252 =? 0)%Z eqn:E.
    + apply Z.eqb_eq in E. split; [lia|done].
    + apply Z.eqb_neq in E. split; [done|lia].
  - unfold compute_annualized_rets. cbn [Performance.init timeframe trade_days].
    change (1 * 252 =? 0)%Z with false. cbv iota.
    change (1 * 252)%Z with 252%Z.
    replace (IZR 252 / IZR 252) with 1 by (by field).
    by rewrite fpow_one.
Qed.

(** *** The cumulative returns *)

Lemma cumprod_from_positive a : ∀ acc,
  0 < acc → Forall (λ x, 0 < x) a → Forall (λ x, 0 < x) (cumprod_from acc a).
Proof.
  induction a as [|x a IH]; intros acc Hacc Ha; [constructor|].
  apply list.Forall_cons in Ha as [Hx Ha]. simpl.
  assert (0 < acc * x) by (by apply Rmult_lt_0_compat).
  constructor; [done|by apply IH].
Qed.

Lemma cumprod_from_last a : ∀ acc x,
  list.last (cumprod_from acc (x :: a)) = Some (acc * foldr Rmult 1 (x :: a)).
Proof.
  induction a as [|y a IH]; intros acc x.
  - simpl. f_equal. lra.
  - change (cumprod_from acc (x :: y :: a)) with
      ((acc * x) :: cumprod_from (acc * x) (y :: a)).
    change (cumprod_from (acc * x) (y :: a)) with
      ((acc * x * y) :: cumprod_from (acc * x * y) a).
    rewrite last_cons_cons.
    change ((acc * x * y) :: cumprod_from (acc * x * y) a) with
      (cumprod_from (acc * x) (y :: a)).
    rewrite IH. f_equal. simpl. lra.
Qed.

(** X16.  [compute_cum_rets] has one value per return, whatever the number
    of years; when no period loses 100% or more every value is above zero,
    so the logarithm the chart takes of it exists; and the last value is
    the product of all the factors 1 + r. *)
Theorem cum_rets_positive rets yrs :
  Forall (λ r, -1 < r) rets →
  let c := compute_cum_rets (Performance.init rets yrs) in
  length c = length rets ∧ Forall (λ x, 0 < x) c ∧
  (rets ≠ [] → list.last c = Some (foldr Rmult 1 (map (λ x, x + 1) rets))).
Proof.
  intros H c. subst c. unfold compute_cum_rets. cbn [Performance.init rolling].
  split; [by rewrite np_cumprod_length, length_map|]. split.
  - apply cumprod_from_positive; [lra|].
    induction H as [|x a Hx _ IH]; cbn [map]; constructor; [lra|exact IH].
  - intros Hne. destruct rets as [|x a]; [done|]. unfold np_cumprod.
    cbn [map]. rewrite cumprod_from_last. f_equal. lra.
Qed.

Lemma cum_rets_positive_witness :
  Forall (λ x, 0 < x) (compute_cum_rets (Performance.init [0; 1] 1)).
Proof.
  apply (cum_rets_positive [0; 1] 1).
  repeat constructor; lra.
Defined.

(** *** The rolling Sortino series *)

Lemma np_where_below_length dr a : length (np_where_below dr a) = length a.
Proof. apply length_map. Qed.

Lemma window_at_map (f : R → R) w i a :
  window_at w i (map f a) = map f (window_at w i a).
Proof. unfold window_at. by rewrite skipn_map, firstn_map. Qed.

Lemma std_ddof_1_zeros n : (2 ≤ n)%nat → std_ddof 1 (repeat 0 n) = Num 0.
Proof.
  intros Hn. rewrite std_ddof_1_number by (by rewrite repeat_length).
  rewrite sum_sq_dev_zeros. unfold Rdiv. by rewrite Rmult_0_l, sqrt_0.
Qed.

(** The rolling Sortino series, position by position. *)
Lemma rolling_sortino_spec rets yrs dr :
  (1 ≤ yrs)%Z →
  let p := Performance.init rets yrs in
  let w := Z.to_nat (timeframe p) in
  (w ≤ length rets)%nat →
  ∃ rm out, rolling_mean p = Some rm ∧ compute_rolling_sortino p dr = Some out ∧
    length out = length rets ∧
    (∀ i, (i < length rets)%nat →
       ∃ m, rm !! i = Some m ∧
         out !! i = Some (round2 (fmul
           (fdiv (Num m)
                 (if (i + 1 <? w)%nat then NaN
                  else std_ddof 1 (window_at w i (np_where_below dr rets))))
           (Num (sqrt 252))))).
Proof.
  intros Hy p w Hw.
  destruct (rolling_mean_spec rets yrs Hy Hw) as (rm & Hrm & Hlen & _).
  fold p in Hrm.
  exists rm. unfold compute_rolling_sortino. rewrite Hrm. cbn [mbind option_bind].
  unfold rolling_std_of. fold w.
  change (rolling p) with rets.
  rewrite broadcast2_same
    by (by rewrite length_fmap, rolling_std_length, np_where_below_length).
  cbn [mbind option_bind]. eexists. split; [done|]. split; [done|]. split.
  - rewrite length_map, length_zip_with, length_fmap, rolling_std_length,
      np_where_below_length. lia.
  - intros i Hi.
    destruct (lookup_lt_is_Some_2 rm i) as [m Hm]; [lia|].
    exists m. split; [done|].
    rewrite lookup_map, lookup_zip_with, list_lookup_fmap, Hm.
    rewrite rolling_std_lookup by (by rewrite np_where_below_length). done.
Qed.

(** X17.  For an engine of at least one year over a series at least as
    long as its window, [compute_rolling_sortino] returns one value per
    return; the first window_length - 1 of them are NaN; from the first full
    window on, the value is a number exactly where the sample deviation of
    the window's downside returns is not zero, and that deviation is zero
    wherever the window holds no return below the threshold. *)
Theorem rolling_sortino_padding rets yrs dr :
  (1 ≤ yrs)%Z →
  let p := Performance.init rets yrs in
  let w := Z.to_nat (timeframe p) in
  (w ≤ length rets)%nat →
  ∃ out, compute_rolling_sortino p dr = Some out ∧ length out = length rets ∧
    (∀ i, (i < w - 1)%nat → out !! i = Some NaN) ∧
    (∀ i, (w - 1 ≤ i < length rets)%nat →
       ∃ s v, std_ddof 1 (window_at w i (np_where_below dr rets)) = Num s ∧
              out !! i = Some v ∧ (is_number v ↔ s ≠ 0) ∧
              (Forall (λ x, ¬ x < dr) (window_at w i rets) → s = 0)).
Proof.
  intros Hy p w Hw.
  destruct (rolling_sortino_spec rets yrs dr Hy Hw)
    as (rm & out & Hrm & Hout & Lout & Hval).
  fold p in Hrm, Hout, Hval. fold w in Hval.
  destruct (timeframe_positive rets yrs Hy) as (Hw252 & _).
  fold p in Hw252. fold w in Hw252.
  exists out. split; [done|]. split; [done|]. split.
  - intros i Hi. destruct (Hval i) as (m & Hm & Ho); [lia|].
    by rewrite (proj2 (Nat.ltb_lt (i + 1) w)) in Ho by lia.
  - intros i Hi. destruct (Hval i) as (m & Hm & Ho); [lia|].
    rewrite (proj2 (Nat.ltb_ge (i + 1) w)) in Ho by lia.
    assert (length (window_at w i (np_where_below dr rets)) = w) as Lw.
    { apply window_at_length. by rewrite np_where_below_length. }
    rewrite std_ddof_1_number in Ho |- * by lia.
    eexists _, _. split; [done|]. split; [exact Ho|]. split.
    + apply sharpe_value_number, sqrt_lt_R0. lra.
    + intros Hnone. unfold np_where_below in Lw |- *.
      rewrite window_at_map in Lw |- *.
      fold (np_where_below dr (window_at w i rets)) in Lw |- *.
      rewrite np_where_below_none in Lw |- * by done.
      rewrite sum_sq_dev_zeros. unfold Rdiv. by rewrite Rmult_0_l, sqrt_0.
Qed.

Lemma rolling_sortino_padding_witness :
  ∃ out, compute_rolling_sortino (Performance.init (repeat 0 252) 1) 0 = Some out ∧
         length out = 252%nat ∧ out !! 0%nat = Some NaN.
Proof.
  destruct (rolling_sortino_padding (repeat 0 252) 1 0)
    as (out & Hout & Lout & Hpad & _).
  - lia.
  - rewrite repeat_length. apply Nat.eq_le_incl. reflexivity.
  - exists out. split; [done|]. split.
    + by rewrite Lout, repeat_length.
    + apply (Hpad 0%nat). change (0 < 252 - 1)%nat. lia.
Defined.

(** *** A series shorter than the window *)

Lemma broadcast2_scalar_right {A B C} (f : A → B → C) a y :
  (2 ≤ length a)%nat → broadcast2 f a [y] = Some (map (λ x, f x y) a).
Proof.
  intros Ha. unfold broadcast2.
  destruct a as [|x [|x' a]]; simpl in Ha; try lia. done.
Qed.

(** X18.  For an engine of at least one year over a series shorter than
    its window, [np.convolve] swaps its arguments and the padded mean has
    2 * window - length of the series elements, not one per return.  With
    two returns or more the division by the rolling deviation cannot
    broadcast: both rolling metrics raise.  With a single return the
    deviation is the scalar NaN, and both metrics return 2 * window - 1
    values, all NaN. *)
Theorem rolling_metrics_on_short_series rets yrs dr :
  (1 ≤ yrs)%Z →
  let p := Performance.init rets yrs in
  let w := Z.to_nat (timeframe p) in
  (1 ≤ length rets < w)%nat →
  ((2 ≤ length rets)%nat →
     compute_rolling_sharpe p = None ∧ compute_rolling_sortino p dr = None) ∧
  (length rets = 1%nat →
     compute_rolling_sharpe p = Some (repeat NaN (2 * w - 1)) ∧
     compute_rolling_sortino p dr = Some (repeat NaN (2 * w - 1))).
Proof.
  intros Hy p w Hn.
  destruct (rolling_mean_short rets yrs Hy Hn) as (rm & Hrm & Lrm).
  fold p in Hrm, Lrm. fold w in Lrm.
  destruct (timeframe_positive rets yrs Hy) as (Hw252 & _).
  fold p in Hw252. fold w in Hw252.
  unfold compute_rolling_sharpe, compute_rolling_sortino.
  rewrite Hrm. cbn [mbind option_bind]. unfold rolling_std_of. fold w.
  change (rolling p) with rets.
  split.
  - intros H2.
    rewrite !broadcast2_mismatch; [done|..];
      rewrite ?length_fmap, ?rolling_std_length, ?np_where_below_length; lia.
  - intros H1. destruct rets as [|x [|? ?]]; simpl in H1; try lia.
    assert (∀ y, rolling_std w [y] = [NaN]) as Hstd.
    { intros y. unfold rolling_std. cbn [length seq map].
      by rewrite (proj2 (Nat.ltb_lt (0 + 1) w)) by lia. }
    unfold np_where_below. cbn [map]. rewrite !Hstd.
    cbn [length] in Lrm.
    rewrite broadcast2_scalar_right by (rewrite length_fmap; lia).
    cbn [mbind option_bind].
    assert (map (λ v, round2 (fmul v (Num (sqrt (IZR (trade_days p))))))
              (map (λ x, fdiv x NaN) (Num <$> rm)) = repeat NaN (2 * w - 1)) as ->;
      [|done].
    replace (2 * w - 1)%nat with (length rm) by lia.
    clear. induction rm as [|m rm IH]; [done|].
    cbn [fmap list_fmap map length repeat]. f_equal. exact IH.
Qed.

Lemma rolling_metrics_on_short_series_witness :
  compute_rolling_sharpe (Performance.init [0; 0] 1) = None.
Proof.
  destruct (rolling_metrics_on_short_series [0; 0] 1 0) as [H _].
  - lia.
  - change (1 ≤ 2 < 252)%nat. lia.
  - apply H. simpl. lia.
Defined.

(** *** Volatility and Sharpe on a window *)



(** *** Sortino against Sharpe *)

Lemma np_where_below_all dr a :
  Forall (λ x, x < dr) a → np_where_below dr a = a.
Proof.
  induction 1 as [|x a Hx _ IH]; [done|]. unfold np_where_below in *.
  cbn [map]. rewrite IH. by destruct (Rlt_dec x dr).
Qed.

(** X27.  The downside deviation is the deviation, around their own mean,
    of the returns with those at or above the threshold replaced by 0; so
    when every return of the window is below the threshold nothing is
    replaced and the Sortino ratio is the Sharpe ratio. *)
Theorem sortino_is_sharpe_below_threshold p dr :
  Forall (λ x, x < dr) (portfolio_ret p) →
  compute_sortino p dr = compute_sharpe p.
Proof.
  intros H. unfold compute_sortino, compute_sharpe.
  by rewrite (np_where_below_all _ _ H).
Qed.

Lemma sortino_is_sharpe_below_threshold_witness :
  compute_sortino (Performance.init [0; -1] 1) 1 =
  compute_sharpe (Performance.init [0; -1] 1).
Proof.
  apply sortino_is_sharpe_below_threshold.
  constructor; [lra|]. constructor; [lra|]. constructor.
Defined.

End EngineEdges.

(** ** The reports *)

Section Reports.
Import Account Backtest Performance Orchestration Scenario ReportScenario.
Local Open Scope R_scope.


Lemma rolling_sharpe_returns rets yrs :
  (1 ≤ yrs)%Z → (Z.to_nat (yrs * 252) ≤ length rets)%nat →
  ∃ out, compute_rolling_sharpe (Performance.init rets yrs) = Some out ∧
         length out = length rets.
Proof.
  intros Hy Hw. destruct (rolling_sharpe_spec rets yrs Hy Hw)
    as (rm & out & _ & Hout & _ & Lout & _).
  by exists out.
Qed.

Lemma rolling_sortino_returns rets yrs dr :
  (1 ≤ yrs)%Z → (Z.to_nat (yrs * 252) ≤ length rets)%nat →
  ∃ out, compute_rolling_sortino (Performance.init rets yrs) dr = Some out ∧
         length out = length rets.
Proof.
  intros Hy Hw. destruct (rolling_sortino_spec rets yrs dr Hy Hw)
    as (rm & out & _ & Hout & Lout & _).
  by exists out.
Qed.



Lemma ran_year_returns :
  ∃ rets, port_ret ran_year = Some rets ∧ length rets = 300%nat.
Proof. eexists. split; by vm_compute. Qed.


(** *** The report *)

Lemma max_dd_returns p :
  portfolio_ret p ≠ [] → ∃ v, compute_max_dd p = Some v.
Proof.
  intros Hne. unfold compute_max_dd, drawdown_ratios, np_cumprod.
  destruct (portfolio_ret p) as [|x a]; [done|].
  cbn [map cumprod_from np_maximum_accumulate zip_with np_max mbind option_bind].
  by eexists.
Qed.

Lemma report_one_returns s rets tf :
  (1 ≤ tf)%Z → (Z.to_nat (tf * 252) ≤ length rets)%nat →
  ∃ v, report_one s rets tf = Some v.
Proof.
  intros Hy Hw. unfold report_one.
  assert (∃ a, compute_annualized_rets (Performance.init rets tf) = Some a)
    as (a & ->).
  { unfold compute_annualized_rets. cbn [Performance.init Performance.timeframe].
    rewrite (proj2 (Z.eqb_neq (tf * 252) 0)) by lia. by eexists. }
  destruct (rolling_sharpe_returns rets tf Hy Hw) as (sh & -> & _).
  destruct (rolling_sortino_returns rets tf (Q2R (downside_risk s)) Hy Hw)
    as (so & -> & _).
  destruct (max_dd_returns (Performance.init rets tf)) as (v & ->).
  { intros E. apply (f_equal length) in E.
    cbn [Performance.init portfolio_ret] in E. unfold slice_from in E.
    rewrite (proj2 (Z.ltb_lt (- (tf * 252)) 0)) in E by lia.
    rewrite length_skipn in E. simpl in E. lia. }
  cbn [mbind option_bind]. by eexists.
Qed.

Lemma report_inner_loop s (rets : list Q) tfs (metric : string) :
  ∀ acc : list (string * Z * report_values),
  port_ret s = Some rets →
  (∀ tf, tf ∈ tfs → (1 ≤ tf)%Z ∧ (Z.to_nat (tf * 252) ≤ length rets)%nat) →
  ∃ out,
    for_each
      (λ out tf,
         if guard s tf then
           rets ← port_ret s;
           v ← report_one s (Q2R <$> rets) tf;
           Some (out ++ [(metric, tf, v)])
         else Some out) tfs acc = Some out ∧
    length out = (length acc + length (List.filter (guard s) tfs))%nat.
Proof.
  intros acc Hp. revert acc.
  match goal with |- context [for_each ?f _ _] => set (body := f) end.
  induction tfs as [|tf tfs IH]; intros acc Hfit.
  - exists acc. split; [done|]. simpl. lia.
  - destruct (Hfit tf) as [Hy Hw]; [apply list_elem_of_here|].
    assert (∀ tf', tf' ∈ tfs →
              (1 ≤ tf')%Z ∧ (Z.to_nat (tf' * 252) ≤ length rets)%nat) as Hfit'
      by (intros; by apply Hfit, list_elem_of_further).
    change (for_each body (tf :: tfs) acc) with
      (out ← body acc tf; for_each body tfs out).
    assert (body acc tf =
            if guard s tf
            then v ← report_one s (Q2R <$> rets) tf; Some (acc ++ [(metric, tf, v)])
            else Some acc) as ->
      by (unfold body; by rewrite Hp).
    cbn [List.filter]. destruct (guard s tf).
    + cbn [mbind option_bind].
      destruct (report_one_returns s (Q2R <$> rets) tf Hy) as (v & ->);
        [by rewrite length_fmap|].
      cbn [mbind option_bind].
      destruct (IH (acc ++ [(metric, tf, v)]) Hfit') as (out & Hrun & Lout).
      exists out. split; [done|]. rewrite Lout, length_app. simpl. lia.
    + cbn [mbind option_bind]. by apply IH.
Qed.

(** X20.  Once [run] has left a return series, and every timeframe is at
    least one year and no longer than that series, [generate_report]
    returns, with one line for every metric and every timeframe that passes
    the guard: for each of them all five figures are computed, whichever
    metric is printed. *)
Theorem generate_report_lines s rets :
  port_ret s = Some rets →
  (∀ tf, tf ∈ Backtest.timeframe s →
         (1 ≤ tf)%Z ∧ (Z.to_nat (tf * 252) ≤ length rets)%nat) →
  ∃ out, generate_report s = Some out ∧
    length out =
      (length (metrics s) *
       length (List.filter (guard s) (Backtest.timeframe s)))%nat.
Proof.
  intros Hp Hfit. unfold generate_report.
  assert (∀ (ms : list string) (acc : list (string * Z * report_values)), ∃ out,
            for_each
              (λ out metric,
                 for_each
                   (λ out tf,
                      if guard s tf then
                        rets ← port_ret s;
                        v ← report_one s (Q2R <$> rets) tf;
                        Some (out ++ [(metric, tf, v)])
                      else Some out)
                   (Backtest.timeframe s) out) ms acc = Some out ∧
            length out =
              (length acc +
               length ms * length (List.filter (guard s) (Backtest.timeframe s)))%nat)
    as Hloop.
  { induction ms as [|m ms IH]; intros acc.
    - exists acc. split; [done|]. simpl. lia.
    - cbn [for_each].
      destruct (report_inner_loop s rets (Backtest.timeframe s) m acc Hp Hfit)
        as (out1 & -> & L1).
      cbn [mbind option_bind]. destruct (IH out1) as (out & Hrun & L).
      exists out. split; [done|]. rewrite L, L1. simpl. lia. }
  destruct (Hloop (metrics s) []) as (out & Hrun & L).
  exists out. split; [done|]. rewrite L. simpl. lia.
Qed.

Lemma generate_report_lines_witness :
  ∃ out, generate_report ran_year = Some out ∧ length out = 2%nat.
Proof.
  destruct ran_year_returns as (rets & Hp & Hl).
  destruct (generate_report_lines ran_year rets Hp) as (out & H & L).
  - intros tf Htf. assert (tf ∈ [1%Z]) as Htf' by exact Htf.
    apply list_elem_of_singleton in Htf' as ->. rewrite Hl.
    split; [lia|]. change (252 ≤ 300)%nat. lia.
  - exists out. split; [done|]. rewrite L. by vm_compute.
Defined.

(** *** Before [run] *)

Lemma forallb_false {A} (f : A → bool) l :
  forallb f l = false → ∃ x, x ∈ l ∧ f x = false.
Proof.
  induction l as [|x l IH]; [done|]. simpl. destruct (f x) eqn:E.
  - intros H. destruct (IH H) as (y & Hy & Hf). exists y.
    split; [by apply list_elem_of_further|done].
  - intros _. exists x. split; [apply list_elem_of_here|done].
Qed.

(** X21.  On a backtest that has not run, [self.port_ret] is still [None]:
    [generate_performance] raises at once, slicing it, while
    [generate_report] reads it only behind the guard and so raises exactly
    when there is a metric to report and a timeframe that passes the guard;
    otherwise it returns without a line. *)
Theorem reports_before_run s :
  port_ret s = None →
  generate_performance s = None ∧
  (generate_report s = None ↔
   metrics s ≠ [] ∧ ∃ tf, tf ∈ Backtest.timeframe s ∧ guard s tf = true) ∧
  (generate_report s ≠ None → generate_report s = Some []).
Proof.
  intros Hp.
  set (inner := λ (metric : string) (out : list (string * Z * report_values)) tf,
         if guard s tf then
           rets ← port_ret s;
           v ← report_one s (Q2R <$> rets) tf;
           Some (out ++ [(metric, tf, v)])
         else Some out).
  assert (∀ m tfs acc,
            for_each (inner m) tfs acc =
            if forallb (λ tf, negb (guard s tf)) tfs then Some acc else None)
    as Hinner.
  { intros m tfs. induction tfs as [|tf tfs IH]; intros acc; [done|].
    change (for_each (inner m) (tf :: tfs) acc) with
      (out ← inner m acc tf; for_each (inner m) tfs out).
    assert (inner m acc tf = if guard s tf then None else Some acc) as ->
      by (unfold inner; by rewrite Hp).
    cbn [forallb]. destruct (guard s tf); [done|].
    cbn [mbind option_bind negb andb]. apply IH. }
  assert (generate_report s =
          match metrics s with
          | [] => Some []
          | _ :: _ =>
              if forallb (λ tf, negb (guard s tf)) (Backtest.timeframe s)
              then Some [] else None
          end) as Hrep.
  { change (generate_report s) with
      (for_each (λ out metric, for_each (inner metric) (Backtest.timeframe s) out)
                (metrics s) []).
    destruct (forallb _ (Backtest.timeframe s)) eqn:E.
    - assert (∀ ms, for_each
                (λ out metric, for_each (inner metric) (Backtest.timeframe s) out)
                ms [] = Some []) as Hall.
      { induction ms as [|m ms IH]; [done|]. cbn [for_each].
        rewrite Hinner, E. exact IH. }
      rewrite Hall. by destruct (metrics s).
    - destruct (metrics s) as [|m ms]; [done|]. cbn [for_each].
      by rewrite Hinner, E. }
  split; [|split].
  - unfold generate_performance. by rewrite Hp.
  - rewrite Hrep. destruct (metrics s) as [|m ms].
    { split; [done|]. by intros [? _]. }
    destruct (forallb _ (Backtest.timeframe s)) eqn:E.
    + split; [done|]. intros (_ & tf & Htf & Hg).
      rewrite forallb_forall in E.
      specialize (E tf (proj1 (list_elem_of_In _ _) Htf)). by rewrite Hg in E.
    + split; [|done]. intros _. split; [done|].
      destruct (forallb_false _ _ E) as (tf & Htf & Hg).
      exists tf. split; [done|]. by apply negb_false_iff.
  - rewrite Hrep. destruct (metrics s); [done|].
    by destruct (forallb _ (Backtest.timeframe s)).
Qed.

Lemma reports_before_run_witness :
  generate_performance bt_short = None ∧ generate_report bt_short = None.
Proof.
  destruct (reports_before_run bt_short eq_refl) as (H1 & H2 & _).
  split; [exact H1|]. apply H2. split; [done|].
  exists 1%Z. split; [compute_done|by vm_compute].
Defined.

(** *** From the run to the curve *)

(** X28.  The return series [run] leaves starts with 0, so the cumulative
    return curve the engine builds from it starts at 1 and the drawdown
    series at 0, whatever happened in the first period. *)
Theorem curve_starts_at_one self s' :
  run self = Some s' →
  ∃ rets, port_ret s' = Some rets ∧
    let p := Performance.init (Q2R <$> rets) 0 in
    compute_cum_rets p !! 0%nat = Some 1 ∧
    compute_drawdown p !! 0%nat = Some (Num 0).
Proof.
  intros H. unfold run in H.
  destruct (for_each day (dates self) self) as [s1|]; simpl in H; [|done].
  simplify_eq. eexists. split; [done|].
  unfold returns_of. cbn [fmap list_fmap].
  match goal with |- context [Q2R 0 :: ?l] => set (rest := l) end.
  assert (1 * (1 + Q2R 0) = 1) as E1 by (rewrite RMicromega.Q2R_0; lra).
  split.
  - unfold compute_cum_rets, np_cumprod.
    cbn [Performance.init rolling map cumprod_from lookup list_lookup].
    f_equal. rewrite RMicromega.Q2R_0. lra.
  - unfold compute_drawdown, np_cumprod. cbn [Performance.init portfolio_ret].
    change (- (0 * 252))%Z with 0%Z. rewrite slice_from_zero.
    cbn [map cumprod_from np_maximum_accumulate zip_with lookup list_lookup].
    rewrite E1, fdiv_num by lra. cbn [fsub]. do 2 f_equal. lra.
Qed.

Lemma curve_starts_at_one_witness :
  ∃ rets, port_ret ran_year = Some rets ∧
          compute_cum_rets (Performance.init (Q2R <$> rets) 0) !! 0%nat = Some 1.
Proof.
  destruct (curve_starts_at_one bt_year ran_year) as (rets & Hp & H1 & _).
  - by vm_compute.
  - by exists rets.
Defined.

End Reports.

(** ** The signals of the double Bollinger band strategy *)

Section Signals.
Import Strategy SignalVocabulary.
Local Open Scope Q_scope.

Lemma gt_true a b : gt a b = Some true ↔ ∃ x y, a = Some x ∧ b = Some y ∧ y < x.
Proof.
  unfold gt. split.
  - destruct a as [x|], b as [y|]; simpl; try done.
    destruct (Qlt_le_dec y x); [|done]. intros _. by exists x, y.
  - intros (x & y & -> & -> & H). simpl.
    destruct (Qlt_le_dec y x) as [|Hle]; [done|]. lra.
Qed.

Lemma lt_true a b : lt a b = Some true ↔ ∃ x y, a = Some x ∧ b = Some y ∧ x < y.
Proof.
  unfold lt. split.
  - destruct a as [x|], b as [y|]; simpl; try done.
    destruct (Qlt_le_dec x y); [|done]. intros _. by exists x, y.
  - intros (x & y & -> & -> & H). simpl.
    destruct (Qlt_le_dec x y) as [|Hle]; [done|]. lra.
Qed.

Lemma when_above_below close lo hi :
  when_ [gt close lo; lt close hi] = true ↔ in_zone close lo hi.
Proof.
  unfold when_, in_zone. cbn [forallb]. rewrite andb_true_r, andb_true_iff.
  assert (∀ p : option bool, default false p = true ↔ p = Some true) as Hd.
  { intros [[|]|]; simpl; split; done. }
  rewrite !Hd, gt_true, lt_true. split.
  - intros [(c & a & -> & -> & H1) (c' & b & [= <-] & -> & H2)]. by exists c, a, b.
  - intros (c & a & b & -> & -> & -> & H1 & H2). split; by eexists _, _.
Qed.

Lemma when_below_above close lo hi :
  when_ [lt close hi; gt close lo] = true ↔ in_zone close lo hi.
Proof.
  rewrite <- when_above_below. unfold when_. cbn [forallb].
  rewrite !andb_true_r. apply eq_iff_eq_true. apply andb_comm.
Qed.

(** X22.  On every row the signal is 1, 0 or -1.  It is 1 exactly when
    close and both upper bands are numbers and the close lies strictly
    between the first and the second upper band; it is -1 exactly when that
    fails and the close lies strictly between the second and the first lower
    band, so a close below both lower bands gives 0; a null cell never makes
    a signal.  When the first lower band is not above the first upper band
    the two zones are disjoint, and the precedence of the buy test plays no
    part. *)
Theorem double_bbands_zones close upper_1 upper_2 lower_1 lower_2 :
  let s := signal_at close upper_1 upper_2 lower_1 lower_2 in
  (s = 1 ∨ s = 0 ∨ s = -1)%Z ∧
  (s = 1%Z ↔ in_zone close upper_1 upper_2) ∧
  (s = (-1)%Z ↔ in_zone close lower_2 lower_1 ∧ ¬ in_zone close upper_1 upper_2) ∧
  (∀ a b, lower_1 = Some a → upper_1 = Some b → a <= b →
     (s = (-1)%Z ↔ in_zone close lower_2 lower_1)).
Proof.
  intros s. subst s. unfold signal_at.
  pose proof (when_above_below close upper_1 upper_2) as Hbuy.
  pose proof (when_below_above close lower_2 lower_1) as Hsell.
  destruct (when_ [gt close upper_1; lt close upper_2]) eqn:Eb;
    destruct (when_ [lt close lower_1; gt close lower_2]) eqn:Es.
  - split; [by left|]. split; [by split; [intros _; apply Hbuy|]|].
    split.
    + split; [done|]. intros [_ Hn]. destruct Hn. by apply Hbuy.
    + intros a b -> -> Hab. split; [done|]. intros _.
      destruct (proj1 Hbuy eq_refl) as (c & ? & ? & -> & [= <-] & _ & H1 & _).
      destruct (proj1 Hsell eq_refl) as (c' & ? & ? & [= <-] & _ & [= <-] & _ & H2).
      lra.
  - split; [by left|]. split; [by split; [intros _; apply Hbuy|]|].
    split.
    + split; [done|]. intros [_ Hn]. destruct Hn. by apply Hbuy.
    + intros a b _ _ _. split; [done|]. intros Hz. apply Hsell in Hz. done.
  - split; [by right; right|]. split.
    { split; [done|]. intros Hz. apply Hbuy in Hz. done. }
    split.
    + split; [|done]. intros _. split; [by apply Hsell|].
      intros Hz. apply Hbuy in Hz. done.
    + intros a b _ _ _. split; [|done]. intros _. by apply Hsell.
  - split; [by right; left|]. split.
    { split; [done|]. intros Hz. apply Hbuy in Hz. done. }
    split.
    + split; [done|]. intros [Hz _]. apply Hsell in Hz. done.
    + intros a b _ _ _. split; [done|]. intros Hz. apply Hsell in Hz. done.
Qed.

Lemma double_bbands_zones_witness :
  signal_at (Some 90) (Some 110) (Some 120) (Some 95) (Some 85) = (-1)%Z.
Proof.
  destruct (double_bbands_zones (Some 90) (Some 110) (Some 120) (Some 95) (Some 85))
    as (_ & _ & _ & H).
  apply (H 95 110); [done|done|by vm_compute|].
  exists 90, 85, 95. repeat split; by vm_compute.
Defined.

(** *** The columns the strategy adds *)

Lemma signal_column_Some df t v :
  signal_column df t = Some v ↔
  ∃ close upper_1 upper_2 lower_1 lower_2,
    df !! t = Some close ∧
    df !! (t +:+ "_1_upper_band") = Some upper_1 ∧
    df !! (t +:+ "_2_upper_band") = Some upper_2 ∧
    df !! (t +:+ "_1_lower_band") = Some lower_1 ∧
    df !! (t +:+ "_2_lower_band") = Some lower_2 ∧
    v = map (λ i, signal_at (at_row close i) (at_row upper_1 i) (at_row upper_2 i)
                            (at_row lower_1 i) (at_row lower_2 i))
            (seq 0 (length close)).
Proof.
  unfold signal_column. split.
  - destruct (df !! t) as [close|]; simpl; [|done].
    destruct (df !! (t +:+ "_1_upper_band")) as [u1|]; simpl; [|done].
    destruct (df !! (t +:+ "_2_upper_band")) as [u2|]; simpl; [|done].
    destruct (df !! (t +:+ "_1_lower_band")) as [l1|]; simpl; [|done].
    destruct (df !! (t +:+ "_2_lower_band")) as [l2|]; simpl; [|done].
    intros [= <-]. by exists close, u1, u2, l1, l2.
  - intros (close & u1 & u2 & l1 & l2 & -> & -> & -> & -> & -> & ->). done.
Qed.

Lemma signal_column_is_Some df t :
  is_Some (signal_column df t) ↔ has_bands df t.
Proof.
  unfold has_bands. split.
  - intros [v Hv]. apply signal_column_Some in Hv
      as (? & ? & ? & ? & ? & -> & -> & -> & -> & -> & _).
    by repeat split.
  - intros ([c Hc] & [u1 H1] & [u2 H2] & [l1 H3] & [l2 H4]).
    eexists. apply signal_column_Some. by exists c, u1, u2, l1, l2.
Qed.

Lemma signal_range close upper_1 upper_2 lower_1 lower_2 :
  let s := signal_at close upper_1 upper_2 lower_1 lower_2 in
  (s = 1 ∨ s = 0 ∨ s = -1)%Z.
Proof.
  unfold signal_at. destruct (when_ _); [by left|].
  destruct (when_ _); [by right; right|by right; left].
Qed.

(** X23.  [double_bbands] returns exactly when the tickers are distinct and
    the frame has the close and the four bands of each of them.  It then
    adds one column per ticker, in the order of the tickers, under the name
    [run] reads the signal from, which [backtest.__init__] recognises as a
    signal column; the column has the height of the frame, holds only 1, 0
    and -1, and its value on a row is decided by the cells of that row
    alone. *)
Theorem double_bbands_columns df tickers :
  (is_Some (double_bbands df tickers) ↔
   NoDup tickers ∧ ∀ t, t ∈ tickers → has_bands df t) ∧
  ∀ out, double_bbands df tickers = Some out →
    out.*1 = Backtest.signal_col <$> tickers ∧
    Forall (λ c, Backtest.is_signal_col c.1 = true ∧
                 Forall (λ z, z = 1 ∨ z = 0 ∨ z = -1)%Z c.2) out ∧
    ∀ t, t ∈ tickers →
      ∃ close upper_1 upper_2 lower_1 lower_2 v,
        df !! t = Some close ∧
        df !! (t +:+ "_1_upper_band") = Some upper_1 ∧
        df !! (t +:+ "_2_upper_band") = Some upper_2 ∧
        df !! (t +:+ "_1_lower_band") = Some lower_1 ∧
        df !! (t +:+ "_2_lower_band") = Some lower_2 ∧
        (Backtest.signal_col t, v) ∈ out ∧ length v = length close ∧
        ∀ i, (i < length close)%nat →
          v !! i = Some (signal_at (at_row close i) (at_row upper_1 i)
                           (at_row upper_2 i) (at_row lower_1 i) (at_row lower_2 i)).
Proof.
  unfold double_bbands. split.
  - destruct (decide (NoDup tickers)) as [Hnd|Hnd].
    + rewrite mapM_is_Some, Forall_forall. split.
      * intros H. split; [done|]. intros t Ht.
        apply signal_column_is_Some.
        specialize (H t (proj1 (list_elem_of_In _ _) Ht)). simpl in H.
        destruct (signal_column df t); [by eexists|by destruct H].
      * intros [_ H] t Ht. apply list_elem_of_In in Ht.
        apply H, signal_column_is_Some in Ht as [v Hv].
        simpl. rewrite Hv. by eexists.
    + split; [by intros [? ?]|]. by intros [? _].
  - intros out H. destruct (decide (NoDup tickers)) as [Hnd|]; [|done].
    apply mapM_Some in H. clear Hnd.
    induction H as [|t c tickers out Hc _ IH].
    { split; [done|]. split; [constructor|]. intros t Ht. by apply elem_of_nil in Ht. }
    destruct (signal_column df t) as [v|] eqn:Ev; simpl in Hc; [|done].
    injection Hc as <-. destruct IH as (IH1 & IH2 & IH3).
    apply signal_column_Some in Ev
      as (close & u1 & u2 & l1 & l2 & Hcl & H1 & H2 & H3 & H4 & Hv).
    split; [|split].
    + cbn [fmap list_fmap fst]. by f_equal.
    + constructor; [|done]. cbn [fst snd]. split.
      * apply is_signal_col_signal_col.
      * rewrite Hv. apply Forall_forall. intros z Hz.
        apply in_map_iff in Hz as (i & <- & _).
        apply signal_range.
    + intros u Hu. apply elem_of_cons in Hu as [->|Hu].
      * exists close, u1, u2, l1, l2, v. do 5 (split; [done|]).
        split; [apply list_elem_of_here|]. split.
        -- by rewrite Hv, length_map, length_seq.
        -- intros i Hi. rewrite Hv, lookup_map, lookup_seq_lt by done. done.
      * destruct (IH3 u Hu)
          as (close' & u1' & u2' & l1' & l2' & v' & ? & ? & ? & ? & ? & Hin & ?).
        exists close', u1', u2', l1', l2', v'. do 5 (split; [done|]).
        split; [by apply list_elem_of_further|done].
Qed.

Lemma double_bbands_columns_witness :
  ∃ out, double_bbands
           (<["A" := [Some 90]]> (<["A_1_upper_band" := [Some 110]]>
            (<["A_2_upper_band" := [Some 120]]> (<["A_1_lower_band" := [Some 95]]>
             (<["A_2_lower_band" := [Some 85]]> ∅))))) ["A"] = Some out ∧
         out.*1 = ["A_signal"].
Proof.
  assert (∃ out, double_bbands
           (<["A" := [Some 90]]> (<["A_1_upper_band" := [Some 110]]>
            (<["A_2_upper_band" := [Some 120]]> (<["A_1_lower_band" := [Some 95]]>
             (<["A_2_lower_band" := [Some 85]]> ∅))))) ["A"] = Some out)
    as (out & H) by (by eexists; vm_compute).
  exists out. split; [exact H|].
  by destruct (proj2 (double_bbands_columns _ _) out H) as (-> & _).
Defined.

End Signals.

(** ** From the indicators to the signals *)

Section Pipeline.
Import Strategy Indicators SignalVocabulary PipelineVocabulary.
Local Open Scope Q_scope.

(** *** Column names *)

Lemma index_cons pat c s :
  String.index 0 pat (String c s) =
  if String.prefix pat (String c s) then Some 0%nat
  else match String.index 0 pat s with Some n => Some (S n) | None => None end.
Proof. done. Qed.

(** A name that ends with a text containing the pattern contains it. *)
Lemma index_app_r pat t s :
  is_Some (String.index 0 pat s) → is_Some (String.index 0 pat (t +:+ s)).
Proof.
  intros Hs. induction t as [|c t IH]; [done|].
  change (String c t +:+ s) with (String c (t +:+ s)). rewrite index_cons.
  destruct (String.prefix _ _); [by eexists|].
  destruct IH as [n ->]. by eexists.
Qed.

Lemma is_sma_col_cons c t :
  is_sma_col (String c t) = String.prefix "sma" (String c t) || is_sma_col t.
Proof.
  unfold is_sma_col. rewrite index_cons.
  destruct (String.prefix _ _); [done|]. by destruct (String.index 0 "sma" t).
Qed.

Lemma is_sma_col_sma t : is_sma_col (t +:+ "_sma") = true.
Proof.
  unfold is_sma_col.
  destruct (index_app_r "sma" t "_sma") as [n ->]; [by eexists|done].
Qed.

Lemma is_band_col_band t k side :
  is_Some (String.index 0 "band" side) →
  is_band_col (t +:+ "_" +:+ k +:+ side) = true.
Proof.
  intros Hs. unfold is_band_col.
  destruct (index_app_r "band" t ("_" +:+ k +:+ side)) as [n ->]; [|done].
  apply (index_app_r "band" "_"). by apply index_app_r.
Qed.

(** No occurrence of [sma] straddles the end of a name and a text that
    starts with an underscore. *)
Lemma prefix_sma_app c t s :
  String.prefix "sma" (String c t) = false →
  String.prefix "sma" (String c (t +:+ "_" +:+ s)) = false.
Proof.
  assert (∀ u, String.prefix "" u = true) as Hnil by (by intros [|? ?]).
  assert (∀ a u v, String a u +:+ v = String a (u +:+ v)) as Hcons by done.
  assert (∀ v, "" +:+ v = v) as Hempty by done.
  destruct t as [|c1 [|c2 t]]; intros H;
    rewrite ?Hcons, ?Hempty, ?Hcons;
    repeat (cbn [String.prefix] in *;
            match goal with
            | |- context [Ascii.ascii_dec ?a ?b] =>
                destruct (Ascii.ascii_dec a b); try done; try discriminate
            end).
  by rewrite Hnil in H.
Qed.

Lemma is_sma_col_app t s :
  is_sma_col t = false → is_sma_col ("_" +:+ s) = false →
  is_sma_col (t +:+ "_" +:+ s) = false.
Proof.
  intros Ht Hs. induction t as [|c t IH]; [done|].
  rewrite is_sma_col_cons in Ht. apply orb_false_iff in Ht as [Hp Ht].
  change (String c t +:+ "_" +:+ s) with (String c (t +:+ "_" +:+ s)).
  rewrite is_sma_col_cons, (prefix_sma_app _ _ _ Hp). by apply IH.
Qed.

(** [replace('_sma', '')] undoes the suffix [compute_SMA] adds. *)
Lemma replace_sma_sma t : is_sma_col t = false → replace_sma (t +:+ "_sma") = t.
Proof.
  unfold replace_sma. induction t as [|c t IH]; intros Ht; [done|].
  rewrite is_sma_col_cons in Ht. apply orb_false_iff in Ht as [Hp Ht].
  change (String c t +:+ "_sma") with (String c (t +:+ "_sma")).
  cbn [replace_sma_from].
  assert (String.prefix "_sma" (String c (t +:+ "_sma")) = false) as ->.
  { cbn [String.prefix]. destruct (Ascii.ascii_dec _ c); [|done].
    destruct t as [|c1 t]; [done|].
    change (String c1 t +:+ "_sma") with (String c1 (t +:+ "_sma")).
    apply prefix_sma_app. rewrite is_sma_col_cons in Ht.
    by apply orb_false_iff in Ht as [? _]. }
  by rewrite IH.
Qed.

Lemma string_length_app t s :
  String.length (t +:+ s) = (String.length t + String.length s)%nat.
Proof.
  induction t as [|c t IH]; [done|].
  change (String c t +:+ s) with (String c (t +:+ s)). simpl. by rewrite IH.
Qed.

(** Two names with suffixes of one length are equal only part by part. *)
Lemma string_app_inj t u s s' :
  String.length s = String.length s' → t +:+ s = u +:+ s' → t = u ∧ s = s'.
Proof.
  intros Hl. revert u. induction t as [|c t IH]; intros [|d u] H.
  - done.
  - apply (f_equal String.length) in H.
    rewrite !string_length_app in H. simpl in H. lia.
  - apply (f_equal String.length) in H.
    rewrite !string_length_app in H. simpl in H. lia.
  - change (String c (t +:+ s) = String d (u +:+ s')) in H.
    injection H as -> H. by destruct (IH u H) as [-> ->].
Qed.

(** *** The moving averages *)

Section Kernels.
Variables rolling_mean rolling_std : Z → list cell → list cell.

Lemma concat_horizontal_Some frames df :
  concat_horizontal frames = Some df ↔ df = concat frames ∧ NoDup (concat frames).*1.
Proof.
  unfold concat_horizontal. destruct (decide (NoDup _)); split.
  - by intros [= <-].
  - by intros [-> _].
  - done.
  - by intros [_ ?].
Qed.

Lemma sma_frame_names (self : frame) window :
  (map (λ c, (c.1 +:+ "_sma", rolling_mean window c.2)) self).*1 = sma_names self.*1.
Proof.
  unfold sma_names. induction self as [|c self IH]; [done|].
  cbn [map fmap list_fmap fst] in *. by rewrite IH.
Qed.

(** X29.  [compute_SMA] returns exactly when no new name [<col>_sma]
    repeats itself or meets a column of the frame; it then appends, in
    order, one column [<col>_sma] per column, holding the rolling mean of
    that column, and returns the same columns as [pl_sma].  On the frame it
    has produced, a second call raises: it would add [<col>_sma] again. *)
Theorem compute_SMA_once self window :
  (is_Some (compute_SMA rolling_mean self window) ↔
   NoDup (self.*1 ++ sma_names self.*1)) ∧
  ∀ df pl_sma, compute_SMA rolling_mean self window = Some (df, pl_sma) →
    df = self ++ pl_sma ∧
    pl_sma = (λ c, (c.1 +:+ "_sma", rolling_mean window c.2)) <$> self ∧
    df.*1 = self.*1 ++ sma_names self.*1 ∧
    (self ≠ [] → ∀ window', compute_SMA rolling_mean df window' = None).
Proof.
  unfold compute_SMA.
  set (pl_sma := map (λ c, (c.1 +:+ "_sma", rolling_mean window c.2)) self).
  assert ((concat [self; pl_sma]).*1 = self.*1 ++ sma_names self.*1) as Hnames.
  { cbn [concat]. rewrite app_nil_r, fmap_app. f_equal. apply sma_frame_names. }
  split.
  - unfold concat_horizontal. rewrite Hnames.
    destruct (decide (NoDup _)) as [Hnd|Hnd]; simpl.
    + split; [done|]. intros _. by eexists.
    + split; [by intros [? ?]|done].
  - intros df sma H.
    destruct (concat_horizontal [self; pl_sma]) as [df'|] eqn:E; simpl in H; [|done].
    injection H as <- <-. apply concat_horizontal_Some in E as [-> Hnd].
    cbn [concat]. rewrite app_nil_r. split; [done|]. split; [done|].
    split; [by rewrite <- Hnames; cbn [concat]; rewrite app_nil_r|].
    intros Hne window'.
    destruct (concat_horizontal _) as [df2|] eqn:E2; simpl; [|done].
    apply concat_horizontal_Some in E2 as [_ Hnd2]. exfalso.
    cbn [concat] in Hnd2. rewrite app_nil_r, fmap_app, sma_frame_names in Hnd2.
    apply list.NoDup_app in Hnd2 as (_ & Hdis & _).
    destruct self as [|[t v] self]; [done|].
    apply (Hdis (t +:+ "_sma")).
    + rewrite fmap_app. apply elem_of_app. right.
      unfold pl_sma. cbn [map fmap list_fmap fst]. apply list_elem_of_here.
    + unfold sma_names. rewrite fmap_app. cbn [fmap list_fmap fst].
      apply list_elem_of_here.
Qed.

End Kernels.

Lemma compute_SMA_once_witness :
  compute_SMA still_mean [("A", [Some 100; Some 100]); ("A_sma", [Some 100; Some 100])] 2
  = None.
Proof.
  destruct (compute_SMA_once still_mean [("A", [Some 100; Some 100])] 2) as [_ H].
  destruct (H _ _ eq_refl) as (_ & _ & _ & Hraise). by apply Hraise.
Defined.

(** *** The bands, and the signals on top of them *)

Lemma filter_none {A} (f : A → bool) l :
  Forall (λ x, f x = false) l → List.filter f l = [].
Proof. induction 1 as [|x l Hx _ IH]; [done|]. simpl. by rewrite Hx. Qed.

Lemma filter_all {A} (f : A → bool) l :
  Forall (λ x, f x = true) l → List.filter f l = l.
Proof. induction 1 as [|x l Hx _ IH]; [done|]. simpl. by rewrite Hx, IH. Qed.

Lemma NoDup_app_l {A} (l k : list A) : NoDup (l ++ k) → NoDup l.
Proof. intros H. by apply list.NoDup_app in H as (? & _). Qed.

Lemma names_disjoint (P : string → Prop) (l k : list string) :
  Forall P l → Forall (λ x, ¬ P x) k → ∀ x, x ∈ l → x ∉ k.
Proof.
  rewrite !list.Forall_forall. intros Hl Hk x Hx Hx'. by apply (Hk x Hx'), Hl.
Qed.

Lemma suffix_names_NoDup s (T : list string) :
  NoDup T → NoDup ((λ t, t +:+ s) <$> T).
Proof.
  apply NoDup_fmap_2. intros t u H.
  by destruct (string_app_inj t u s s eq_refl H).
Qed.

Lemma suffix_names_disjoint s s' (T : list string) x :
  String.length s = String.length s' → s ≠ s' →
  x ∈ (λ t, t +:+ s) <$> T → x ∉ (λ t, t +:+ s') <$> T.
Proof.
  intros Hl Hne Hx Hx'.
  apply list_elem_of_fmap in Hx as (t & -> & _).
  apply list_elem_of_fmap in Hx' as (u & E & _).
  by destruct (string_app_inj t u s s' Hl E).
Qed.

Lemma band_names_sma k side (T : list string) :
  is_sma_col ("_" +:+ k +:+ side) = false → Forall plain T →
  Forall (λ x, is_sma_col x = false) ((λ t, t +:+ "_" +:+ k +:+ side) <$> T).
Proof.
  intros Hs HT. induction HT as [|t T [Ht _] _ IH]; cbn [fmap list_fmap];
    constructor; [|exact IH].
  by apply is_sma_col_app.
Qed.

Lemma band_names_band k side (T : list string) :
  is_Some (String.index 0 "band" side) →
  Forall (λ x, is_band_col x = true) ((λ t, t +:+ "_" +:+ k +:+ side) <$> T).
Proof.
  intros Hs. induction T as [|t T IH]; cbn [fmap list_fmap]; constructor;
    [|exact IH].
  by apply is_band_col_band.
Qed.

Lemma band_names_NoDup k (T : list string) :
  NoDup T → NoDup (band_names k T).
Proof.
  intros HT. unfold band_names. apply list.NoDup_app.
  split; [by apply suffix_names_NoDup|]. split; [|by apply suffix_names_NoDup].
  intros x. apply suffix_names_disjoint.
  - rewrite !string_length_app. done.
  - intros E.
    change (("_" +:+ k) +:+ "_upper_band" = ("_" +:+ k) +:+ "_lower_band") in E.
    by destruct (string_app_inj _ _ "_upper_band" "_lower_band" eq_refl E).
Qed.

End Pipeline.
